(** * Drain: an online log-template miner (faceair/drain, drain.go)

    A shallow embedding of [drain.go] and of the library functions it calls
    ([strings], [unicode], [unicode/utf8], [strconv], [simplelru]), followed by
    the properties of the miner.

    Conventions of the embedding:
    - a Go [string] is a sequence of bytes: Rocq's [string] (a list of 8-bit
      [ascii]); runes are code points in [Z];
    - Go's [int] is the 64-bit two's-complement integer; it is carried in [Z],
      and the two increments that are not bounded by the size of a data
      structure ([clustersCounter++], [size++]) go through [wrap];
    - [float64] is Rocq's primitive binary64 [float];
    - a [map[string]*Node] is a [gmap string Node]; the tree is a tree (every
      node is created by [createNode] and linked exactly once), so a child
      pointer is modelled by the child itself;
    - a [*LogCluster] is only ever obtained from the cache: it is modelled by
      the cache key under which it is stored together with the record it
      points to, and a write through the pointer updates that cache entry;
    - a Go panic is the [Panic] result. *)

From Stdlib Require Import ZArith Floats Uint63 Ascii String List Lia.
From stdpp Require Import base option list gmap strings fin_maps pretty.

Local Open Scope string_scope.
Local Open Scope Z_scope.

(** ** Panics *)

Inductive panic : Type :=
| ConfigError        (* panic("depth argument must be at least 3") *)
| LengthMismatch     (* panic("seq1 seq2 be of same length") *)
| NilDereference     (* a field of a nil pointer is read *)
| IndexOutOfRange.   (* a slice is indexed past its length *)

Inductive result (A : Type) : Type :=
| Ok (a : A)
| Panic (p : panic).
Arguments Ok {A} a.
Arguments Panic {A} p.

Definition bind {A B : Type} (r : result A) (f : A -> result B) : result B :=
  match r with
  | Ok a => f a
  | Panic p => Panic p
  end.

Notation "'do' x <- e ; k" := (bind e (fun x => k))
  (at level 10, x name, e at level 100, k at level 200).
Notation "'do' ' p <- e ; k" := (bind e (fun x => match x with p => k end))
  (at level 10, p pattern, e at level 100, k at level 200).

(** ** Machine integers *)

Definition MaxInt : Z := 2 ^ 63 - 1.

(** The value of a 64-bit [int] after an operation whose exact result is [z]. *)
Definition wrap (z : Z) : Z := (z + 2 ^ 63) mod 2 ^ 64 - 2 ^ 63.

Definition len {A} (l : list A) : Z := Z.of_nat (length l).

Definition byteval (c : ascii) : Z := Z.of_N (N_of_ascii c).

(** ** unicode/utf8 *)

Module utf8.

Definition RuneError : Z := 0xFFFD.
Definition RuneSelf : Z := 0x80.

(** The table [first] joined with [acceptRanges]: for a leading byte of a
    multi-byte sequence, the length of the sequence and the range allowed for
    its second byte. *)
Definition first (b : Z) : option (nat * Z * Z) :=
  if (0xC2 <=? b) && (b <=? 0xDF) then Some (2%nat, 0x80, 0xBF)
  else if b =? 0xE0 then Some (3%nat, 0xA0, 0xBF)
  else if (0xE1 <=? b) && (b <=? 0xEC) then Some (3%nat, 0x80, 0xBF)
  else if b =? 0xED then Some (3%nat, 0x80, 0x9F)
  else if (0xEE <=? b) && (b <=? 0xEF) then Some (3%nat, 0x80, 0xBF)
  else if b =? 0xF0 then Some (4%nat, 0x90, 0xBF)
  else if (0xF1 <=? b) && (b <=? 0xF3) then Some (4%nat, 0x80, 0xBF)
  else if b =? 0xF4 then Some (4%nat, 0x80, 0x8F)
  else None.

Definition cont (b : Z) : bool := (0x80 <=? b) && (b <=? 0xBF).
Definition maskx (b : Z) : Z := Z.land b 0x3F.

Definition DecodeRuneInString (s : string) : Z * nat :=
  match s with
  | EmptyString => (RuneError, 0%nat)
  | String c0 t0 =>
    let s0 := byteval c0 in
    if s0 <? RuneSelf then (s0, 1%nat) else
    match first s0 with
    | None => (RuneError, 1%nat)
    | Some (sz, lo, hi) =>
      match t0 with
      | EmptyString => (RuneError, 1%nat)
      | String c1 t1 =>
        let s1 := byteval c1 in
        if (s1 <? lo) || (hi <? s1) then (RuneError, 1%nat) else
        if (sz <=? 2)%nat
        then (Z.lor (Z.shiftl (Z.land s0 0x1F) 6) (maskx s1), 2%nat) else
        match t1 with
        | EmptyString => (RuneError, 1%nat)
        | String c2 t2 =>
          let s2 := byteval c2 in
          if negb (cont s2) then (RuneError, 1%nat) else
          if (sz <=? 3)%nat
          then (Z.lor (Z.lor (Z.shiftl (Z.land s0 0x0F) 12)
                             (Z.shiftl (maskx s1) 6)) (maskx s2), 3%nat) else
          match t2 with
          | EmptyString => (RuneError, 1%nat)
          | String c3 _ =>
            let s3 := byteval c3 in
            if negb (cont s3) then (RuneError, 1%nat) else
            (Z.lor (Z.lor (Z.lor (Z.shiftl (Z.land s0 0x07) 18)
                                 (Z.shiftl (maskx s1) 12))
                          (Z.shiftl (maskx s2) 6)) (maskx s3), 4%nat)
          end
        end
      end
    end
  end.

Definition RuneStart (b : Z) : bool := negb (Z.land b 0xC0 =? 0x80).

Definition byteAt (s : string) (i : Z) : Z :=
  match String.get (Z.to_nat i) s with
  | Some c => byteval c
  | None => 0
  end.

Fixpoint dropBytes (n : nat) (s : string) : string :=
  match n, s with
  | S k, String _ t => dropBytes k t
  | _, _ => s
  end.

Fixpoint takeBytes (n : nat) (s : string) : string :=
  match n, s with
  | S k, String c t => String c (takeBytes k t)
  | _, _ => EmptyString
  end.

(** The backwards scan [for start--; start >= lim; start--] of
    [DecodeLastRuneInString]; it visits at most [UTFMax - 1] positions. *)
Fixpoint lastStart (fuel : nat) (s : string) (start lim : Z) : Z :=
  match fuel with
  | O => start
  | S f =>
    if start <? lim then start
    else if RuneStart (byteAt s start) then start
    else lastStart f s (start - 1) lim
  end.

Definition DecodeLastRuneInString (s : string) : Z * nat :=
  let n := Z.of_nat (String.length s) in
  if n =? 0 then (RuneError, 0%nat) else
  let r := byteAt s (n - 1) in
  if r <? RuneSelf then (r, 1%nat) else
  let lim := Z.max 0 (n - 4) in
  let start := lastStart 4 s (n - 2) lim in
  let start := Z.max 0 start in
  let '(r, size) := DecodeRuneInString (dropBytes (Z.to_nat start) s) in
  if start + Z.of_nat size =? n then (r, size) else (RuneError, 1%nat).

(** [for _, c := range s]: the runes of [s] in order.  [skip] counts the
    bytes that remain of the rune decoded last. *)
Fixpoint runesFrom (skip : nat) (s : string) : list Z :=
  match s with
  | EmptyString => []
  | String _ t =>
    match skip with
    | S k => runesFrom k t
    | O => let '(r, size) := DecodeRuneInString s in r :: runesFrom (size - 1) t
    end
  end.

Definition runes (s : string) : list Z := runesFrom 0 s.

End utf8.

(** ** unicode *)

Module unicode.

Definition MaxLatin1 : Z := 0xFF.

Definition inRanges (tab : list (Z * Z)) (r : Z) : bool :=
  existsb (fun '(lo, hi) => (lo <=? r) && (r <=? hi)) tab.

(** The range table [unicode.Number] (general category N: Nd, Nl and No) and
    the range table [unicode.Digit] (general category Nd), written as closed
    intervals of code points, Unicode 14.0.0. *)
Definition Number : list (Z * Z) :=
  [(0x30, 0x39); (0xb2, 0xb3); (0xb9, 0xb9); (0xbc, 0xbe); (0x660, 0x669);
   (0x6f0, 0x6f9); (0x7c0, 0x7c9); (0x966, 0x96f); (0x9e6, 0x9ef);
   (0x9f4, 0x9f9); (0xa66, 0xa6f); (0xae6, 0xaef); (0xb66, 0xb6f);
   (0xb72, 0xb77); (0xbe6, 0xbf2); (0xc66, 0xc6f); (0xc78, 0xc7e);
   (0xce6, 0xcef); (0xd58, 0xd5e); (0xd66, 0xd78); (0xde6, 0xdef);
   (0xe50, 0xe59); (0xed0, 0xed9); (0xf20, 0xf33); (0x1040, 0x1049);
   (0x1090, 0x1099); (0x1369, 0x137c); (0x16ee, 0x16f0); (0x17e0, 0x17e9);
   (0x17f0, 0x17f9); (0x1810, 0x1819); (0x1946, 0x194f); (0x19d0, 0x19da);
   (0x1a80, 0x1a89); (0x1a90, 0x1a99); (0x1b50, 0x1b59); (0x1bb0, 0x1bb9);
   (0x1c40, 0x1c49); (0x1c50, 0x1c59); (0x2070, 0x2070); (0x2074, 0x2079);
   (0x2080, 0x2089); (0x2150, 0x2182); (0x2185, 0x2189); (0x2460, 0x249b);
   (0x24ea, 0x24ff); (0x2776, 0x2793); (0x2cfd, 0x2cfd); (0x3007, 0x3007);
   (0x3021, 0x3029); (0x3038, 0x303a); (0x3192, 0x3195); (0x3220, 0x3229);
   (0x3248, 0x324f); (0x3251, 0x325f); (0x3280, 0x3289); (0x32b1, 0x32bf);
   (0xa620, 0xa629); (0xa6e6, 0xa6ef); (0xa830, 0xa835); (0xa8d0, 0xa8d9);
   (0xa900, 0xa909); (0xa9d0, 0xa9d9); (0xa9f0, 0xa9f9); (0xaa50, 0xaa59);
   (0xabf0, 0xabf9); (0xff10, 0xff19); (0x10107, 0x10133);
   (0x10140, 0x10178); (0x1018a, 0x1018b); (0x102e1, 0x102fb);
   (0x10320, 0x10323); (0x10341, 0x10341); (0x1034a, 0x1034a);
   (0x103d1, 0x103d5); (0x104a0, 0x104a9); (0x10858, 0x1085f);
   (0x10879, 0x1087f); (0x108a7, 0x108af); (0x108fb, 0x108ff);
   (0x10916, 0x1091b); (0x109bc, 0x109bd); (0x109c0, 0x109cf);
   (0x109d2, 0x109ff); (0x10a40, 0x10a48); (0x10a7d, 0x10a7e);
   (0x10a9d, 0x10a9f); (0x10aeb, 0x10aef); (0x10b58, 0x10b5f);
   (0x10b78, 0x10b7f); (0x10ba9, 0x10baf); (0x10cfa, 0x10cff);
   (0x10d30, 0x10d39); (0x10e60, 0x10e7e); (0x10f1d, 0x10f26);
   (0x10f51, 0x10f54); (0x10fc5, 0x10fcb); (0x11052, 0x1106f);
   (0x110f0, 0x110f9); (0x11136, 0x1113f); (0x111d0, 0x111d9);
   (0x111e1, 0x111f4); (0x112f0, 0x112f9); (0x11450, 0x11459);
   (0x114d0, 0x114d9); (0x11650, 0x11659); (0x116c0, 0x116c9);
   (0x11730, 0x1173b); (0x118e0, 0x118f2); (0x11950, 0x11959);
   (0x11c50, 0x11c6c); (0x11d50, 0x11d59); (0x11da0, 0x11da9);
   (0x11fc0, 0x11fd4); (0x12400, 0x1246e); (0x16a60, 0x16a69);
   (0x16ac0, 0x16ac9); (0x16b50, 0x16b59); (0x16b5b, 0x16b61);
   (0x16e80, 0x16e96); (0x1d2e0, 0x1d2f3); (0x1d360, 0x1d378);
   (0x1d7ce, 0x1d7ff); (0x1e140, 0x1e149); (0x1e2f0, 0x1e2f9);
   (0x1e8c7, 0x1e8cf); (0x1e950, 0x1e959); (0x1ec71, 0x1ecab);
   (0x1ecad, 0x1ecaf); (0x1ecb1, 0x1ecb4); (0x1ed01, 0x1ed2d);
   (0x1ed2f, 0x1ed3d); (0x1f100, 0x1f10c); (0x1fbf0, 0x1fbf9)].

Definition Digit : list (Z * Z) :=
  [(0x30, 0x39); (0x660, 0x669); (0x6f0, 0x6f9); (0x7c0, 0x7c9);
   (0x966, 0x96f); (0x9e6, 0x9ef); (0xa66, 0xa6f); (0xae6, 0xaef);
   (0xb66, 0xb6f); (0xbe6, 0xbef); (0xc66, 0xc6f); (0xce6, 0xcef);
   (0xd66, 0xd6f); (0xde6, 0xdef); (0xe50, 0xe59); (0xed0, 0xed9);
   (0xf20, 0xf29); (0x1040, 0x1049); (0x1090, 0x1099); (0x17e0, 0x17e9);
   (0x1810, 0x1819); (0x1946, 0x194f); (0x19d0, 0x19d9); (0x1a80, 0x1a89);
   (0x1a90, 0x1a99); (0x1b50, 0x1b59); (0x1bb0, 0x1bb9); (0x1c40, 0x1c49);
   (0x1c50, 0x1c59); (0xa620, 0xa629); (0xa8d0, 0xa8d9); (0xa900, 0xa909);
   (0xa9d0, 0xa9d9); (0xa9f0, 0xa9f9); (0xaa50, 0xaa59); (0xabf0, 0xabf9);
   (0xff10, 0xff19); (0x104a0, 0x104a9); (0x10d30, 0x10d39);
   (0x11066, 0x1106f); (0x110f0, 0x110f9); (0x11136, 0x1113f);
   (0x111d0, 0x111d9); (0x112f0, 0x112f9); (0x11450, 0x11459);
   (0x114d0, 0x114d9); (0x11650, 0x11659); (0x116c0, 0x116c9);
   (0x11730, 0x11739); (0x118e0, 0x118e9); (0x11950, 0x11959);
   (0x11c50, 0x11c59); (0x11d50, 0x11d59); (0x11da0, 0x11da9);
   (0x16a60, 0x16a69); (0x16ac0, 0x16ac9); (0x16b50, 0x16b59);
   (0x1d7ce, 0x1d7ff); (0x1e140, 0x1e149); (0x1e2f0, 0x1e2f9);
   (0x1e950, 0x1e959); (0x1fbf0, 0x1fbf9)].

(** [unicode.White_Space]. *)
Definition White_Space : list (Z * Z) :=
  [(0x9, 0xd); (0x20, 0x20); (0x85, 0x85); (0xa0, 0xa0); (0x1680, 0x1680);
   (0x2000, 0x200a); (0x2028, 0x2029); (0x202f, 0x202f); (0x205f, 0x205f);
   (0x3000, 0x3000)].

Definition IsNumber (r : Z) : bool := inRanges Number r.
Definition IsDigit (r : Z) : bool := inRanges Digit r.
Definition IsSpace (r : Z) : bool := inRanges White_Space r.

End unicode.

(** ** strings *)

Module gostrings.

(** [TrimLeftFunc(s, unicode.IsSpace)]. *)
Fixpoint trimLeftSpace (skip : nat) (s : string) : string :=
  match s with
  | EmptyString => EmptyString
  | String _ t =>
    match skip with
    | S k => trimLeftSpace k t
    | O =>
      let '(r, size) := utf8.DecodeRuneInString s in
      if unicode.IsSpace r then trimLeftSpace (size - 1) t else s
    end
  end.

(** [TrimRightFunc(s, unicode.IsSpace)]; every round removes at least one
    byte, so [String.length s] rounds are enough. *)
Fixpoint trimRightSpace (fuel : nat) (s : string) : string :=
  match fuel with
  | O => s
  | S f =>
    match s with
    | EmptyString => s
    | _ =>
      let '(r, size) := utf8.DecodeLastRuneInString s in
      if unicode.IsSpace r
      then trimRightSpace f (utf8.takeBytes (String.length s - size) s)
      else s
    end
  end.

(** [strings.TrimSpace]: leading and trailing white-space runes removed (the
    ASCII fast path of the library returns the same string). *)
Definition TrimSpace (s : string) : string :=
  let s := trimLeftSpace 0 s in
  trimRightSpace (String.length s) s.

(** [strings.Replace(s, old, new, -1)] for a non-empty [old]: the
    non-overlapping occurrences of [old], leftmost first. *)
Fixpoint replaceFrom (old new : string) (skip : nat) (s : string) : string :=
  match s with
  | EmptyString => EmptyString
  | String c t =>
    match skip with
    | S k => replaceFrom old new k t
    | O =>
      if String.prefix old s
      then new +:+ replaceFrom old new (String.length old - 1) t
      else String c (replaceFrom old new 0 t)
    end
  end.

(** [strings.Replace(s, "", new, -1)]: [new] after every rune. *)
Fixpoint afterRunes (new : string) (skip : nat) (s : string) : string :=
  match s with
  | EmptyString => EmptyString
  | String c t =>
    let k := match skip with
             | S k => k
             | O => (snd (utf8.DecodeRuneInString s) - 1)%nat
             end in
    match k with
    | O => String c (new +:+ afterRunes new 0 t)
    | S _ => String c (afterRunes new k t)
    end
  end.

Definition ReplaceAll (s old new : string) : string :=
  if String.eqb old new then s
  else match old with
       | EmptyString => new +:+ afterRunes new 0 s
       | _ => replaceFrom old new 0 s
       end.

(** [strings.Split(s, sep)] for a non-empty [sep]; [cur] is the piece being
    read. *)
Fixpoint splitFrom (sep : string) (skip : nat) (cur s : string) : list string :=
  match s with
  | EmptyString => [cur]
  | String c t =>
    match skip with
    | S k => splitFrom sep k cur t
    | O =>
      if String.prefix sep s
      then cur :: splitFrom sep (String.length sep - 1) EmptyString t
      else splitFrom sep 0 (cur +:+ String c EmptyString) t
    end
  end.

(** [strings.Split(s, "")]: one piece per rune, an invalid byte that is not
    the last piece becoming the encoding of U+FFFD. *)
Fixpoint explode (skip : nat) (cur s : string) : list string :=
  match s with
  | EmptyString => []
  | String c t =>
    let k := match skip with
             | S k => k
             | O => (snd (utf8.DecodeRuneInString s) - 1)%nat
             end in
    let cur := cur +:+ String c EmptyString in
    match k with
    | O =>
      match t with
      | EmptyString => [cur]
      | _ =>
        (if fst (utf8.DecodeRuneInString cur) =? utf8.RuneError
         then String "239" (String "191" (String "189" EmptyString))
         else cur) :: explode 0 EmptyString t
      end
    | S _ => explode k cur t
    end
  end.

Definition Split (s sep : string) : list string :=
  match sep with
  | EmptyString => explode 0 EmptyString s
  | _ => splitFrom sep 0 EmptyString s
  end.

Fixpoint Join (elems : list string) (sep : string) : string :=
  match elems with
  | [] => EmptyString
  | [e] => e
  | e :: rest => e +:+ sep +:+ Join rest sep
  end.

End gostrings.

(** ** strconv *)

Module strconv.

(** [strconv.Itoa]: the decimal form of an [int]. *)
Definition Itoa (i : Z) : string := pretty i.

End strconv.

(** ** simplelru

    [simplelru.LRU] keeps a doubly linked [evictList] (front = most recently
    used) and an [items] map from each key to its list element.  The model is
    the list of entries, front first; a key is looked up in it. *)

Module simplelru.
Section LRU.
Context {V : Type}.

Record LRU : Type := mkLRU { size : Z; evictList : list (Z * V) }.

Definition NewLRU (size : Z) : option LRU :=
  if size <=? 0 then None else Some (mkLRU size []).

Fixpoint lookup (key : Z) (l : list (Z * V)) : option V :=
  match l with
  | [] => None
  | (k, v) :: t => if k =? key then Some v else lookup key t
  end.

Fixpoint remove (key : Z) (l : list (Z * V)) : list (Z * V) :=
  match l with
  | [] => []
  | (k, v) :: t => if k =? key then t else (k, v) :: remove key t
  end.

Definition Add (key : Z) (value : V) (c : LRU) : LRU :=
  match lookup key (evictList c) with
  | Some _ => mkLRU (size c) ((key, value) :: remove key (evictList c))
  | None =>
    let l := (key, value) :: evictList c in
    if len l >? size c then mkLRU (size c) (removelast l) else mkLRU (size c) l
  end.

Definition Get (key : Z) (c : LRU) : option V * LRU :=
  match lookup key (evictList c) with
  | Some v => (Some v, mkLRU (size c) ((key, v) :: remove key (evictList c)))
  | None => (None, c)
  end.

Definition Peek (key : Z) (c : LRU) : option V := lookup key (evictList c).

(** Oldest first. *)
Definition Keys (c : LRU) : list Z := rev (map fst (evictList c)).

(** A write through a pointer that the cache holds under [key]: the value
    changes, the position in [evictList] does not. *)
Fixpoint assign (key : Z) (value : V) (l : list (Z * V)) : list (Z * V) :=
  match l with
  | [] => []
  | (k, v) :: t => if k =? key then (k, value) :: t else (k, v) :: assign key value t
  end.

End LRU.
Arguments LRU V : clear implicits.
End simplelru.

(** ** drain.go: data *)

Record Config : Type := mkConfig {
  maxNodeDepth : Z;
  LogClusterDepth : Z;
  SimTh : float;
  MaxChildren : Z;
  ExtraDelimiters : list string;
  MaxClusters : Z;
  ParamString : string
}.

Record LogCluster : Type := mkLogCluster {
  logTemplateTokens : list string;
  id : Z;
  size : Z
}.

Definition getTemplate (c : LogCluster) : string :=
  gostrings.Join (logTemplateTokens c) " ".

Definition String_ (c : LogCluster) : string :=
  "id={" +:+ strconv.Itoa (id c) +:+ "} : size={" +:+ strconv.Itoa (size c)
  +:+ "} : " +:+ getTemplate c.

(** [cache] is [None] when [simplelru.NewLRU] failed and [createLogClusterCache]
    dropped the error: the interface then holds a nil [*LRU]. *)
Record LogClusterCache : Type := mkCache {
  cache : option (simplelru.LRU LogCluster)
}.

Definition createLogClusterCache (maxSize : Z) : LogClusterCache :=
  let maxSize := if maxSize =? 0 then MaxInt else maxSize in
  mkCache (simplelru.NewLRU maxSize).

Definition Values (c : LogClusterCache) : result (list LogCluster) :=
  match cache c with
  | None => Panic NilDereference
  | Some l =>
    Ok (omap (fun key => simplelru.Peek key l) (simplelru.Keys l))
  end.

Definition Set_ (key : Z) (cluster : LogCluster) (c : LogClusterCache)
  : result LogClusterCache :=
  match cache c with
  | None => Panic NilDereference
  | Some l => Ok (mkCache (Some (simplelru.Add key cluster l)))
  end.

Definition Get (key : Z) (c : LogClusterCache)
  : result (option LogCluster * LogClusterCache) :=
  match cache c with
  | None => Panic NilDereference
  | Some l =>
    let '(v, l') := simplelru.Get key l in Ok (v, mkCache (Some l'))
  end.

(** A [*LogCluster] handed out by the cache: the key it is stored under and
    the record it points to. *)
Definition LogClusterPtr : Type := Z * LogCluster.

(** Writing the fields of the cluster that [p] points to. *)
Definition writeCluster (p : LogClusterPtr) (cluster : LogCluster)
    (c : LogClusterCache) : LogClusterCache :=
  match cache c with
  | None => c
  | Some l =>
    mkCache (Some (simplelru.mkLRU (simplelru.size l)
                     (simplelru.assign (fst p) cluster (simplelru.evictList l))))
  end.

#[warnings="-register-all"]
Inductive Node : Type := mkNode {
  keyToChildNode : gmap string Node;
  clusterIDs : list Z
}.

Definition createNode : Node := mkNode ∅ [].

Definition DefaultConfig : Config :=
  {| maxNodeDepth := 0;
     LogClusterDepth := 4;
     SimTh := 0x1.999999999999ap-2;   (* the float64 nearest to 0.4 *)
     MaxChildren := 100;
     ExtraDelimiters := [];
     MaxClusters := 0;
     ParamString := "<*>" |}.

Record Drain : Type := mkDrain {
  config : Config;
  rootNode : Node;
  idToCluster : LogClusterCache;
  clustersCounter : Z
}.

Definition New (config : Config) : result Drain :=
  if LogClusterDepth config <? 3 then Panic ConfigError else
  let config := {| maxNodeDepth := LogClusterDepth config - 2;
                   LogClusterDepth := LogClusterDepth config;
                   SimTh := SimTh config;
                   MaxChildren := MaxChildren config;
                   ExtraDelimiters := ExtraDelimiters config;
                   MaxClusters := MaxClusters config;
                   ParamString := ParamString config |} in
  Ok {| config := config;
        rootNode := createNode;
        idToCluster := createLogClusterCache (MaxClusters config);
        clustersCounter := 0 |}.

(** ** drain.go: operations *)

(** The miner after the cache behind [d.idToCluster] has changed to [c]. *)
Definition withCache (d : Drain) (c : LogClusterCache) : Drain :=
  mkDrain (config d) (rootNode d) c (clustersCounter d).

Definition lenMap (m : gmap string Node) : Z := Z.of_nat (base.size m).

(** [float64(n)] for [0 <= n < 2^63]. *)
Definition float64 (n : Z) : float := PrimFloat.of_uint63 (Uint63.of_Z n).

Definition getContentAsTokens (cfg : Config) (content : string) : list string :=
  let content := gostrings.TrimSpace content in
  let content :=
    fold_left (fun content extraDelimiter =>
                 gostrings.ReplaceAll content extraDelimiter " ")
              (ExtraDelimiters cfg) content in
  gostrings.Split content " ".

Fixpoint anyNumber (rs : list Z) : bool :=
  match rs with
  | [] => false
  | c :: rest => if unicode.IsNumber c then true else anyNumber rest
  end.

Definition hasNumbers (s : string) : bool := anyNumber (utf8.runes s).

(** The loop of [getSeqDistance] over the positions of two sequences of the
    same length. *)
Fixpoint countSim (param : string) (seq1 seq2 : list string)
    (simTokens paramCount : Z) : Z * Z :=
  match seq1, seq2 with
  | token1 :: r1, token2 :: r2 =>
    if String.eqb token1 param
    then countSim param r1 r2 simTokens (paramCount + 1)
    else if String.eqb token1 token2
    then countSim param r1 r2 (simTokens + 1) paramCount
    else countSim param r1 r2 simTokens paramCount
  | _, _ => (simTokens, paramCount)
  end.

Definition getSeqDistance (cfg : Config) (seq1 seq2 : list string)
    (includeParams : bool) : result (float * Z) :=
  if negb (len seq1 =? len seq2) then Panic LengthMismatch else
  let '(simTokens, paramCount) := countSim (ParamString cfg) seq1 seq2 0 0 in
  let simTokens := if includeParams then simTokens + paramCount else simTokens in
  let retVal := PrimFloat.div (float64 simTokens) (float64 (len seq1)) in
  Ok (retVal, paramCount).

(** The loop of [createTemplate]; [seq2] is the template. *)
Fixpoint mergeTokens (param : string) (seq1 seq2 : list string) : list string :=
  match seq1, seq2 with
  | t1 :: r1, t2 :: r2 =>
    (if String.eqb t1 t2 then t2 else param) :: mergeTokens param r1 r2
  | _, _ => seq2
  end.

Definition createTemplate (cfg : Config) (seq1 seq2 : list string)
  : result (list string) :=
  if negb (len seq1 =? len seq2) then Panic LengthMismatch
  else Ok (mergeTokens (ParamString cfg) seq1 seq2).

(** The loop of [fastMatch]. *)
Fixpoint fastMatchLoop (cfg : Config) (clusterIDs : list Z) (tokens : list string)
    (includeParams : bool) (maxSim : float) (maxParamCount : Z)
    (maxCluster : option LogClusterPtr) (c : LogClusterCache)
  : result (float * option LogClusterPtr * LogClusterCache) :=
  match clusterIDs with
  | [] => Ok (maxSim, maxCluster, c)
  | clusterID :: rest =>
    do '(cluster, c) <- Get clusterID c;
    match cluster with
    | None => fastMatchLoop cfg rest tokens includeParams maxSim maxParamCount maxCluster c
    | Some cluster =>
      do '(curSim, paramCount) <-
        getSeqDistance cfg (logTemplateTokens cluster) tokens includeParams;
      if PrimFloat.ltb maxSim curSim
         || (PrimFloat.eqb curSim maxSim && (maxParamCount <? paramCount))
      then fastMatchLoop cfg rest tokens includeParams curSim paramCount
                         (Some (clusterID, cluster)) c
      else fastMatchLoop cfg rest tokens includeParams maxSim maxParamCount
                         maxCluster c
    end
  end.

Definition fastMatch (cfg : Config) (clusterIDs : list Z) (tokens : list string)
    (simTh : float) (includeParams : bool) (c : LogClusterCache)
  : result (option LogClusterPtr * LogClusterCache) :=
  do '(maxSim, maxCluster, c) <-
    fastMatchLoop cfg clusterIDs tokens includeParams (-1)%float (-1) None c;
  Ok (if PrimFloat.leb simTh maxSim then maxCluster else None, c).

(** The descent loop of [treeSearch]; [None] is the [return nil] of a
    missing child. *)
Fixpoint descend (cfg : Config) (tokenCount : Z) (curNode : Node)
    (curNodeDepth : Z) (tokens : list string) : option Node :=
  match tokens with
  | [] => Some curNode
  | token :: rest =>
    if curNodeDepth >=? maxNodeDepth cfg then Some curNode
    else if curNodeDepth =? tokenCount then Some curNode
    else
      match keyToChildNode curNode !! token with
      | Some child => descend cfg tokenCount child (curNodeDepth + 1) rest
      | None =>
        match keyToChildNode curNode !! ParamString cfg with
        | Some child => descend cfg tokenCount child (curNodeDepth + 1) rest
        | None => None
        end
      end
  end.

Definition treeSearch (d : Drain) (rootNode : Node) (tokens : list string)
    (simTh : float) (includeParams : bool)
  : result (option LogClusterPtr * Drain) :=
  let tokenCount := len tokens in
  match keyToChildNode rootNode !! strconv.Itoa tokenCount with
  | None => Ok (None, d)
  | Some curNode =>
    if tokenCount =? 0 then
      match clusterIDs curNode with
      | [] => Panic IndexOutOfRange
      | first :: _ =>
        do '(cluster, c) <- Get first (idToCluster d);
        Ok (pair first <$> cluster,
            withCache d c)
      end
    else
      match descend (config d) tokenCount curNode 1 tokens with
      | None => Ok (None, d)
      | Some leaf =>
        do '(cluster, c) <-
          fastMatch (config d) (clusterIDs leaf) tokens simTh includeParams
                    (idToCluster d);
        Ok (cluster, withCache d c)
      end
  end.

(** The stale-id clean-up of a leaf: the ids that [Get] still finds, in
    order. *)
Fixpoint liveIDs (ids : list Z) (c : LogClusterCache)
  : result (list Z * LogClusterCache) :=
  match ids with
  | [] => Ok ([], c)
  | clusterID :: rest =>
    do '(cluster, c) <- Get clusterID c;
    do '(newClusterIDs, c) <- liveIDs rest c;
    Ok (match cluster with
        | Some _ => clusterID :: newClusterIDs
        | None => newClusterIDs
        end, c)
  end.

(** Where the insertion loop goes from [curNode] on [token]: the edge and the
    node under it (a fresh one when the edge is new); [None] when the loop
    variable becomes nil. *)
Definition nextNode (cfg : Config) (curNode : Node) (token : string)
  : option (string * Node) :=
  let children := keyToChildNode curNode in
  match children !! token with
  | None =>
    if negb (hasNumbers token) then
      match children !! ParamString cfg with
      | Some wild =>
        if lenMap children <? MaxChildren cfg
        then Some (token, createNode)
        else Some (ParamString cfg, wild)
      | None =>
        if lenMap children + 1 <? MaxChildren cfg
        then Some (token, createNode)
        else if lenMap children + 1 =? MaxChildren cfg
        then Some (ParamString cfg, createNode)
        else None
      end
    else
      match children !! ParamString cfg with
      | None => Some (ParamString cfg, createNode)
      | Some wild => Some (ParamString cfg, wild)
      end
  | Some child => Some (token, child)
  end.

(** The loop of [addSeqToPrefixTree] from [curNode]; the result is [curNode]
    after the updates made below it. *)
Fixpoint addSeqLoop (cfg : Config) (clusterID tokenCount : Z) (curNode : Node)
    (currentDepth : Z) (tokens : list string) (c : LogClusterCache)
  : result (Node * LogClusterCache) :=
  match tokens with
  | [] => Ok (curNode, c)
  | token :: rest =>
    if (currentDepth >=? maxNodeDepth cfg) || (currentDepth >=? tokenCount) then
      do '(newClusterIDs, c) <- liveIDs (clusterIDs curNode) c;
      Ok (mkNode (keyToChildNode curNode) (newClusterIDs ++ [clusterID]), c)
    else
      match nextNode cfg curNode token with
      | Some (key, child) =>
        do '(child, c) <- addSeqLoop cfg clusterID tokenCount child
                                 (currentDepth + 1) rest c;
        Ok (mkNode (<[key := child]> (keyToChildNode curNode))
                   (clusterIDs curNode), c)
      | None =>
        match rest with
        | [] => Ok (curNode, c)
        | _ :: _ => Panic NilDereference
        end
      end
  end.

Definition addSeqToPrefixTree (cfg : Config) (rootNode : Node)
    (cluster : LogCluster) (c : LogClusterCache)
  : result (Node * LogClusterCache) :=
  let tokenCount := len (logTemplateTokens cluster) in
  let tokenCountStr := strconv.Itoa tokenCount in
  let firstLayerNode :=
    match keyToChildNode rootNode !! tokenCountStr with
    | Some n => n
    | None => createNode
    end in
  do '(firstLayerNode, c) <-
    (if tokenCount =? 0
     then Ok (mkNode (keyToChildNode firstLayerNode)
                     (clusterIDs firstLayerNode ++ [id cluster]), c)
     else addSeqLoop cfg (id cluster) tokenCount firstLayerNode 1
                     (logTemplateTokens cluster) c);
  Ok (mkNode (<[tokenCountStr := firstLayerNode]> (keyToChildNode rootNode))
             (clusterIDs rootNode), c).

(** Which branch of [Log] ran. *)
Inductive outcome : Type := Created | Merged.

(** The body of [Log], returning besides the cluster the branch taken. *)
Definition LogStep (d : Drain) (content : string)
  : result (Drain * LogCluster * outcome) :=
  let contentTokens := getContentAsTokens (config d) content in
  do '(matchCluster, d) <-
    treeSearch d (rootNode d) contentTokens (SimTh (config d)) false;
  match matchCluster with
  | None =>
    let clusterID := wrap (clustersCounter d + 1) in
    let matchCluster :=
      {| logTemplateTokens := contentTokens; id := clusterID; size := 1 |} in
    do c <- Set_ clusterID matchCluster (idToCluster d);
    do '(root, c) <- addSeqToPrefixTree (config d) (rootNode d) matchCluster c;
    Ok (mkDrain (config d) root c clusterID, matchCluster, Created)
  | Some p =>
    do newTemplateTokens <-
      createTemplate (config d) contentTokens (logTemplateTokens (snd p));
    let cluster :=
      {| logTemplateTokens := newTemplateTokens;
         id := id (snd p);
         size := wrap (size (snd p) + 1) |} in
    let c := writeCluster p cluster (idToCluster d) in
    do '(_, c) <- Get (id cluster) c;
    Ok (withCache d c, cluster, Merged)
  end.

Definition Log (d : Drain) (content : string) : result (Drain * LogCluster) :=
  do '(d, cluster, _) <- LogStep d content;
  Ok (d, cluster).

Definition Clusters (d : Drain) : result (list LogCluster) :=
  Values (idToCluster d).

(** A sequence of [Log] calls on one miner. *)
Fixpoint LogAll (d : Drain) (lines : list string) : result Drain :=
  match lines with
  | [] => Ok d
  | line :: rest => do '(d, _) <- Log d line; LogAll d rest
  end.

(** [New] followed by a sequence of [Log] calls. *)
Definition trained (cfg : Config) (lines : list string) : result Drain :=
  do d <- New cfg; LogAll d lines.

(** The ids of the clusters that a sequence of [Log] calls creates, in the
    order of their creation. *)
Fixpoint createdIDs (d : Drain) (lines : list string) : result (list Z) :=
  match lines with
  | [] => Ok []
  | line :: rest =>
    do '(d, cluster, o) <- LogStep d line;
    do ids <- createdIDs d rest;
    Ok (match o with
        | Created => id cluster :: ids
        | Merged => ids
        end)
  end.

(** Modelled from the spec: [Match], which drain.go does not define (the
    example program calls it).  The spec gives it as the first two steps of
    train, tokenization and tree search, with [include_params = true], and
    nothing else. *)
Definition Match (d : Drain) (content : string)
  : result (option LogCluster * Drain) :=
  let contentTokens := getContentAsTokens (config d) content in
  do '(matchCluster, d) <-
    treeSearch d (rootNode d) contentTokens (SimTh (config d)) true;
  Ok (snd <$> matchCluster, d).

Definition S1 : list string :=
  ["connected to 10.0.0.1"; "connected to 10.0.0.2"; "connected to 10.0.0.3";
   "Hex number 0xDEADBEAF"; "Hex number 0x10000";
   "user davidoh logged in"; "user eranr logged in"].

(** * The vocabulary of the properties *)

(** [safe E r Q]: [r] is a value satisfying [Q], or a panic allowed by [E]. *)
Definition safe {A : Type} (E : panic -> Prop) (r : result A) (Q : A -> Prop)
  : Prop :=
  match r with
  | Ok a => Q a
  | Panic p => E p
  end.

Definition entries (c : LogClusterCache) : list (Z * LogCluster) :=
  match cache c with
  | Some l => simplelru.evictList l
  | None => []
  end.

(** The cluster stored under [k], not touching the store. *)
Definition peek (c : LogClusterCache) (k : Z) : option LogCluster :=
  simplelru.lookup k (entries c).

(** The keys, most recently used first. *)
Definition recency (c : LogClusterCache) : list Z := map fst (entries c).

Definition capacity (c : LogClusterCache) : Z :=
  match cache c with
  | Some l => simplelru.size l
  | None => 0
  end.

(** [c'] holds what [c] holds, possibly in another recency order. *)
Definition reordered (c c' : LogClusterCache) : Prop :=
  (cache c = None <-> cache c' = None) /\
  capacity c' = capacity c /\
  (forall k, peek c' k = peek c k) /\
  recency c' ≡ₚ recency c.

(** What the store has to satisfy for a miner whose counter is [n]. *)
Definition storeInv (n : Z) (c : LogClusterCache) : Prop :=
  NoDup (recency c) /\
  (cache c <> None -> 0 < capacity c) /\
  forall k cl, peek c k = Some cl ->
    1 <= k <= n /\ id cl = k /\ 1 <= len (logTemplateTokens cl).

(** [P] holds at a node and at every node below it. *)
Inductive allNodes (P : Node -> Prop) : Node -> Prop :=
| allNodes_intro n :
    P n ->
    (forall k c, keyToChildNode n !! k = Some c -> allNodes P c) ->
    allNodes P n.

(** [reach n m]: [m] is [n] or a node below [n]. *)
Inductive reach : Node -> Node -> Prop :=
| reach_here n : reach n n
| reach_child n k c m :
    keyToChildNode n !! k = Some c -> reach c m -> reach n m.

(** The children of the root are keyed by token counts [n >= 1], and [P n]
    holds throughout the subtree under the key of [n]. *)
Definition treeInv (P : Z -> Node -> Prop) (root : Node) : Prop :=
  forall key node, keyToChildNode root !! key = Some node ->
    exists n, key = strconv.Itoa n /\ 1 <= n /\ allNodes (P n) node.

(** A pointer returned by the search: it points to a live cluster whose
    template is as long as the line. *)
Definition ptrOK (pk : Z -> option LogCluster) (tokens : list string)
    (p : option LogClusterPtr) : Prop :=
  forall k cl, p = Some (k, cl) ->
    pk k = Some cl /\ len (logTemplateTokens cl) = len tokens.

(** The ids below the depth-1 node of token count [count]: assigned ids
    whose cluster, when it is still stored, has a template of [count]
    tokens. *)
Definition idGood (pk : Z -> option LogCluster) (n count k : Z) : Prop :=
  1 <= k <= n /\
  forall cl, pk k = Some cl -> len (logTemplateTokens cl) = count.

Definition nodeGood (pk : Z -> option LogCluster) (n : Z) (X : Node -> Prop)
    (count : Z) (nd : Node) : Prop :=
  Forall (idGood pk n count) (clusterIDs nd) /\ X nd.

(** The invariant of the miner.  [X] is a further property of the nodes
    below the root. *)
Definition Inv (X : Node -> Prop) (d : Drain) : Prop :=
  0 <= clustersCounter d /\
  storeInv (clustersCounter d) (idToCluster d) /\
  treeInv (nodeGood (peek (idToCluster d)) (clustersCounter d) X) (rootNode d).

(** What a [Log] call on the tokens [tokens] that returns [cl] does to the
    miner. *)
Definition stepRel (d d' : Drain) (tokens : list string) (cl : LogCluster)
    (o : outcome) : Prop :=
  let pk := peek (idToCluster d) in
  let pk' := peek (idToCluster d') in
  config d' = config d /\
  capacity (idToCluster d') = capacity (idToCluster d) /\
  (cache (idToCluster d') = None -> cache (idToCluster d) = None) /\
  pk' (id cl) = Some cl /\
  match o with
  | Created =>
    clustersCounter d' = clustersCounter d + 1 /\
    cl = mkLogCluster tokens (clustersCounter d + 1) 1 /\
    (forall k, k <> id cl -> pk' k = pk k \/ pk' k = None)
  | Merged =>
    clustersCounter d' = clustersCounter d /\
    rootNode d' = rootNode d /\
    recency (idToCluster d') ≡ₚ recency (idToCluster d) /\
    (forall k, k <> id cl -> pk' k = pk k) /\
    exists old, pk (id cl) = Some old /\
      len (logTemplateTokens old) = len tokens /\
      cl = mkLogCluster
             (mergeTokens (ParamString (config d)) tokens (logTemplateTokens old))
             (id old) (wrap (size old + 1))
  end.

(** The bound that the grow policy keeps at a node below the root: at most
    [MaxChildren] children, and one slot left while there is no wildcard
    child. *)
Definition fanOK (cfg : Config) (nd : Node) : Prop :=
  let m := keyToChildNode nd in
  match m !! ParamString cfg with
  | Some _ => lenMap m <= MaxChildren cfg
  | None => lenMap m + 1 <= MaxChildren cfg
  end.

(** The configuration that [New] stores. *)
Definition configured (cfg : Config) : Config :=
  {| maxNodeDepth := LogClusterDepth cfg - 2;
     LogClusterDepth := LogClusterDepth cfg;
     SimTh := SimTh cfg;
     MaxChildren := MaxChildren cfg;
     ExtraDelimiters := ExtraDelimiters cfg;
     MaxClusters := MaxClusters cfg;
     ParamString := ParamString cfg |}.

(** The ids that [Clusters] lists, oldest first. *)
Definition liveClusterIDs (d : Drain) : result (list Z) :=
  do cs <- Clusters d; Ok (map id cs).

(** The default configuration with a store of two clusters. *)
Definition twoClusters : Config :=
  {| maxNodeDepth := 0;
     LogClusterDepth := 4;
     SimTh := SimTh DefaultConfig;
     MaxChildren := 100;
     ExtraDelimiters := [];
     MaxClusters := 2;
     ParamString := "<*>" |}.

(** Lines of 1, 2, ..., [n] tokens. *)
Definition countLines (n : nat) : list string :=
  map (fun k => gostrings.Join (repeat "x" k) " ") (seq 1 n).

(** Every interval of [tab1] lies within an interval of [tab2]. *)
Definition covered (tab1 tab2 : list (Z * Z)) : bool :=
  forallb (fun '(lo, hi) =>
             existsb (fun '(lo', hi') => (lo' <=? lo) && (hi <=? hi')) tab2)
          tab1.

(** The Roman numeral eight, U+2167 (category Nl), in UTF-8. *)
Definition romanEight : string :=
  String "226" (String "133" (String "167" EmptyString)).

(** Every wildcard of [t] is a wildcard of [t']. *)
Definition generalizes (param : string) (t t' : list string) : Prop :=
  forall i : nat, t !! i = Some param -> t' !! i = Some param.

(** What one [Log] call does to the cluster stored under an id [k] that has
    been assigned. *)
Definition fate (param : string) (before after : option LogCluster) : Prop :=
  match before with
  | None => after = None
  | Some c =>
    after = None \/
    exists c', after = Some c' /\
      generalizes param (logTemplateTokens c) (logTemplateTokens c')
  end.

(** The leaf that the search reaches on [tokens], if there is one. *)
Definition searchLeaf (d : Drain) (tokens : list string) : option Node :=
  match keyToChildNode (rootNode d) !! strconv.Itoa (len tokens) with
  | None => None
  | Some curNode => descend (config d) (len tokens) curNode 1 tokens
  end.

(** A candidate of the scoring of the id list [ids]: at place [i] there is
    an id with a stored cluster [cl], whose similarity to [tokens] is [sim]
    and whose wildcard count is [paramCount]. *)
Definition candidate (cfg : Config) (pk : Z -> option LogCluster)
    (tokens : list string) (includeParams : bool) (ids : list Z) (i : nat)
    (cl : LogCluster) (sim : float) (paramCount : Z) : Prop :=
  exists k,
    ids !! i = Some k /\ pk k = Some cl /\
    getSeqDistance cfg (logTemplateTokens cl) tokens includeParams
      = Ok (sim, paramCount).

(** [r] is the best candidate of [ids], or none.  A cluster is the best
    when its similarity is at least [simTh], no candidate has a greater
    similarity, none of the same similarity has more wildcards, and none of
    the same similarity and wildcard count stands before it in the list.
    There is none when no candidate has a similarity that is above the
    initial maximum -1 of the scoring and at least [simTh]. *)
Definition best (cfg : Config) (pk : Z -> option LogCluster)
    (tokens : list string) (includeParams : bool) (ids : list Z)
    (simTh : float) (r : option LogCluster) : Prop :=
  match r with
  | Some cl =>
    exists i sim n,
      candidate cfg pk tokens includeParams ids i cl sim n /\
      PrimFloat.leb simTh sim = true /\
      forall j cl2 s2 p2,
        candidate cfg pk tokens includeParams ids j cl2 s2 p2 ->
        PrimFloat.ltb sim s2 = false /\
        (PrimFloat.eqb s2 sim = true ->
         p2 <= n /\ (p2 = n -> (i <= j)%nat))
  | None =>
    forall j cl2 s2 p2,
      candidate cfg pk tokens includeParams ids j cl2 s2 p2 ->
      PrimFloat.ltb (-1) s2 && PrimFloat.leb simTh s2 = false /\
      (PrimFloat.ltb (-1) simTh = true -> PrimFloat.leb simTh s2 = false)
  end.

(** The state of the scoring loop after the ids [seen]. *)
Definition bestSoFar (cfg : Config) (pk : Z -> option LogCluster)
    (tokens : list string) (includeParams : bool) (seen : list Z)
    (maxSim : float) (maxParamCount : Z) (maxCluster : option LogClusterPtr)
  : Prop :=
  PrimFloat.eqb maxSim maxSim = true /\
  (forall j cl2 s2 p2,
     candidate cfg pk tokens includeParams seen j cl2 s2 p2 ->
     PrimFloat.ltb maxSim s2 = false /\
     (PrimFloat.eqb s2 maxSim = true -> p2 <= maxParamCount)) /\
  match maxCluster with
  | Some (k, cl) =>
    exists i,
      seen !! i = Some k /\ pk k = Some cl /\
      getSeqDistance cfg (logTemplateTokens cl) tokens includeParams
        = Ok (maxSim, maxParamCount) /\
      forall j cl2 s2 p2,
        candidate cfg pk tokens includeParams seen j cl2 s2 p2 ->
        (j < i)%nat -> PrimFloat.eqb s2 maxSim = true -> p2 < maxParamCount
  | None => maxSim = (-1)%float /\ maxParamCount = -1
  end.

(** A miner with two clusters of five tokens, the first one generalized in
    three places. *)
Definition generalized : list string := ["a b c d e"; "a b f g h"; "k l m n o"].

(** ** The vocabulary of the further properties *)

(** The sizes of the stored clusters lie between 1 and [B]. *)
Definition sizesWithin (B : Z) (c : LogClusterCache) : Prop :=
  forall k cl, peek c k = Some cl -> 1 <= size cl <= B.

(** [template] describes [tokens]: they have the same length, and every
    token of the template is the wildcard or the token of the line. *)
Definition describes (param : string) (template tokens : list string) : Prop :=
  length template = length tokens /\
  forall (i : nat) t, template !! i = Some t -> t = param \/ tokens !! i = Some t.

(** The sum of a list of integers. *)
Definition sumZ (l : list Z) : Z := foldr Z.add 0 l.

(** The sizes of the stored clusters, added up. *)
Definition totalSize (c : LogClusterCache) : Z :=
  sumZ (map (fun k => from_option size 0 (peek c k)) (recency c)).

(** The number of wildcard tokens of a template. *)
Fixpoint wildcards (param : string) (template : list string) : Z :=
  match template with
  | [] => 0
  | t :: rest =>
    (if String.eqb t param then 1 else 0) + wildcards param rest
  end.

(** The number of places where a template has a token that is not the
    wildcard and the line has the same token. *)
Fixpoint matches (param : string) (template tokens : list string) : Z :=
  match template, tokens with
  | t1 :: r1, t2 :: r2 =>
    (if String.eqb t1 param then 0 else if String.eqb t1 t2 then 1 else 0)
    + matches param r1 r2
  | _, _ => 0
  end.

(** The line as [getContentAsTokens] splits it: trimmed, and with every
    extra delimiter replaced by a space. *)
Definition normalized (cfg : Config) (content : string) : string :=
  fold_left (fun content extraDelimiter =>
               gostrings.ReplaceAll content extraDelimiter " ")
            (ExtraDelimiters cfg) (gostrings.TrimSpace content).

(** [s] has no space. *)
Definition spaceless (s : string) : Prop :=
  ~ In " "%char (list_ascii_of_string s).

(** One of the bytes ['0'] to ['9']. *)
Definition isAsciiDigit (c : ascii) : bool :=
  (0x30 <=? byteval c) && (byteval c <=? 0x39).

(** [reachIn n i m]: [m] is [i] edges below [n]. *)
Inductive reachIn : Node -> Z -> Node -> Prop :=
| reachIn_here n : reachIn n 0 n
| reachIn_child n k c i m :
    keyToChildNode n !! k = Some c -> reachIn c i m -> reachIn n (i + 1) m.

(** The shape of the subtree of token count [count] at a node of depth [j]
    (the children of the root have depth 1), for a maximal depth [M]: a node
    where the insertion stops has no children, a node where it goes on
    holds no ids. *)
Inductive depthInv (M count : Z) : Z -> Node -> Prop :=
| depthInv_intro j n :
    (M <= j \/ count <= j -> keyToChildNode n = ∅) ->
    (j < M /\ j < count -> clusterIDs n = []) ->
    (forall k c, keyToChildNode n !! k = Some c -> depthInv M count (j + 1) c) ->
    depthInv M count j n.

(** The same for the whole tree. *)
Definition treeDepthInv (M : Z) (root : Node) : Prop :=
  forall key first, keyToChildNode root !! key = Some first ->
    exists count, key = strconv.Itoa count /\ 1 <= count /\
      depthInv M count 1 first.

(** The best candidate so far in the scoring loop over the ids [ids]: a
    stored cluster of the list with its similarity and wildcard count. *)
Definition candidateOK (cfg : Config) (tokens : list string)
    (includeParams : bool) (pk : Z -> option LogCluster) (ids : list Z)
    (maxSim : float) (maxParamCount : Z) (p : option LogClusterPtr) : Prop :=
  forall k cl, p = Some (k, cl) ->
    In k ids /\ pk k = Some cl /\
    getSeqDistance cfg (logTemplateTokens cl) tokens includeParams
      = Ok (maxSim, maxParamCount).

(** * Properties *)

(** ** Results that panic only in allowed ways *)

Lemma safe_bind {A B : Type} (E : panic -> Prop) (r : result A)
    (f : A -> result B) (Q : A -> Prop) (Q' : B -> Prop) :
  safe E r Q -> (forall a, Q a -> safe E (f a) Q') -> safe E (bind r f) Q'.
Proof. destruct r as [a|p]; simpl; auto. Qed.

Lemma safe_mono {A : Type} (E : panic -> Prop) (r : result A)
    (Q Q' : A -> Prop) :
  safe E r Q -> (forall a, Q a -> Q' a) -> safe E r Q'.
Proof. destruct r as [a|p]; simpl; auto. Qed.

Lemma safe_Ok {A : Type} (E : panic -> Prop) (r : result A) (Q : A -> Prop) a :
  safe E r Q -> r = Ok a -> Q a.
Proof. intros H ->. exact H. Qed.

Lemma safe_total {A : Type} (r : result A) (Q : A -> Prop) :
  safe (fun _ => False) r Q -> exists a, r = Ok a /\ Q a.
Proof. destruct r as [a|p]; simpl; [eauto | tauto]. Qed.

(** ** The LRU list *)

Section LRUFacts.
Context {V : Type}.
Implicit Types (l : list (Z * V)) (k key : Z) (v : V).

Lemma lookup_remove_ne l k key :
  k <> key -> simplelru.lookup k (simplelru.remove key l) = simplelru.lookup k l.
Proof.
  intros Hne. induction l as [|[k0 v0] t IH]; simpl; [done|].
  destruct (Z.eqb_spec k0 key) as [->|Hk0].
  - destruct (Z.eqb_spec key k); [congruence | done].
  - simpl. rewrite IH. done.
Qed.

Lemma lookup_None_keys l k :
  simplelru.lookup k l = None <-> k ∉ map fst l.
Proof.
  induction l as [|[k0 v0] t IH]; simpl.
  - split; [intros _; apply not_elem_of_nil | done].
  - rewrite not_elem_of_cons. destruct (Z.eqb_spec k0 k) as [->|Hne].
    + split; [done | intros [? _]; done].
    + rewrite IH. split; [intros ?; split; congruence | tauto].
Qed.

Lemma remove_Permutation l key v :
  simplelru.lookup key l = Some v ->
  map fst ((key, v) :: simplelru.remove key l) ≡ₚ map fst l.
Proof.
  induction l as [|[k0 v0] t IH]; simpl; [done|].
  destruct (Z.eqb_spec k0 key) as [->|Hne].
  - intros _. done.
  - intros H. simpl. rewrite <- (IH H). simpl. apply Permutation_swap.
Qed.

Lemma assign_keys l key v :
  map fst (simplelru.assign key v l) = map fst l.
Proof.
  induction l as [|[k0 v0] t IH]; simpl; [done|].
  destruct (k0 =? key); simpl; congruence.
Qed.

Lemma lookup_assign l k key v :
  simplelru.lookup k (simplelru.assign key v l) =
  if decide (k = key) then const v <$> simplelru.lookup key l
  else simplelru.lookup k l.
Proof.
  induction l as [|[k0 v0] t IH]; simpl.
  - by case_decide.
  - destruct (Z.eqb_spec k0 key) as [->|Hne]; simpl.
    + case_decide as Hk; [subst; by rewrite Z.eqb_refl|].
      destruct (Z.eqb_spec key k); [congruence | done].
    + rewrite IH. case_decide as Hk; [subst|done].
      destruct (Z.eqb_spec k0 key); [done | done].
Qed.

Lemma removelast_keys l : map fst (removelast l) = removelast (map fst l).
Proof.
  induction l as [|a [|b t] IH]; simpl; [done | done |].
  simpl in IH. by rewrite IH.
Qed.

Lemma removelast_subset {A} (l : list A) x : x ∈ removelast l -> x ∈ l.
Proof.
  induction l as [|a [|b t] IH]; simpl; [done | by rewrite elem_of_nil |].
  rewrite !elem_of_cons. simpl in IH. rewrite elem_of_cons in IH. tauto.
Qed.

Lemma removelast_NoDup {A} (l : list A) : NoDup l -> NoDup (removelast l).
Proof.
  induction l as [|a [|b t] IH]; simpl; [done | intros _; apply NoDup_nil_2 |].
  intros [Ha Ht]%NoDup_cons. apply NoDup_cons. split; [|auto].
  intros Hin. apply Ha. by apply (removelast_subset (b :: t)).
Qed.

Lemma lookup_removelast l k v :
  simplelru.lookup k (removelast l) = Some v -> simplelru.lookup k l = Some v.
Proof.
  induction l as [|[k0 v0] [|b t] IH]; simpl; [done | done |].
  simpl in IH. destruct (k0 =? k); [done | auto].
Qed.

Lemma lookup_removelast_head l k v :
  l <> [] -> simplelru.lookup k (removelast ((k, v) :: l)) = Some v.
Proof. destruct l; [done|]. intros _. simpl. by rewrite Z.eqb_refl. Qed.

End LRUFacts.

(** ** The cluster store seen through its contents *)

Lemma reordered_refl c : reordered c c.
Proof. repeat split; auto. Qed.

Lemma reordered_trans c1 c2 c3 :
  reordered c1 c2 -> reordered c2 c3 -> reordered c1 c3.
Proof.
  intros (Hn1 & Hc1 & Hp1 & Hr1) (Hn2 & Hc2 & Hp2 & Hr2).
  split; [tauto|]. split; [congruence|]. split.
  - intros k. by rewrite Hp2.
  - by rewrite Hr2.
Qed.

Lemma Get_safe (E : panic -> Prop) k c :
  (cache c = None -> E NilDereference) ->
  safe E (Get k c) (fun '(v, c') => v = peek c k /\ reordered c c').
Proof.
  intros HE. unfold Get, reordered, peek, recency, capacity, entries.
  destruct (cache c) as [l|] eqn:Hc; simpl; [|auto].
  unfold simplelru.Get.
  destruct (simplelru.lookup k (simplelru.evictList l)) as [v|] eqn:Hl; simpl.
  - split; [done|]. split; [done|]. split; [done|]. split.
    + intros k'. simpl. rewrite Z.eqb_sym.
      destruct (Z.eqb_spec k' k) as [->|Hne]; [done|].
      by apply lookup_remove_ne.
    + by apply (remove_Permutation _ _ v).
  - repeat split; auto.
Qed.

Lemma reordered_storeInv n c c' :
  reordered c c' -> storeInv n c -> storeInv n c'.
Proof.
  intros (Hn & Hc & Hp & Hr) (Hnd & Hcap & Hk). split; [|split].
  - by rewrite Hr.
  - rewrite Hc. tauto.
  - intros k cl. rewrite Hp. auto.
Qed.

(** [Set] with a key that the store does not hold. *)
Lemma Set_safe (E : panic -> Prop) n k cl c :
  (cache c = None -> E NilDereference) ->
  storeInv n c -> peek c k = None ->
  safe E (Set_ k cl c) (fun c' =>
    cache c' <> None /\
    0 < capacity c' /\
    capacity c' = capacity c /\
    NoDup (recency c') /\
    peek c' k = Some cl /\
    forall k', k' <> k -> peek c' k' = peek c k' \/ peek c' k' = None).
Proof.
  intros HE (Hnd & Hcap & Hk) Hfresh.
  unfold Set_, peek, recency, capacity, entries in *.
  destruct (cache c) as [l|] eqn:Hc; simpl; [|auto].
  unfold simplelru.Add. rewrite Hfresh.
  assert (Hnd' : NoDup (k :: map fst (simplelru.evictList l))).
  { apply NoDup_cons. split; [|done]. by apply lookup_None_keys. }
  assert (0 < simplelru.size l) as Hpos by (apply Hcap; done).
  destruct (len ((k, cl) :: simplelru.evictList l) >? simplelru.size l) eqn:Hlen;
    cbn [safe cache simplelru.evictList simplelru.size].
  - assert (simplelru.evictList l <> []) as Hne.
    { intros Hl. rewrite Hl in Hlen. apply Z.gtb_lt in Hlen.
      unfold len in Hlen. simpl in Hlen. lia. }
    split; [done|]. split; [done|]. split; [done|]. split; [|split].
    + rewrite removelast_keys. by apply (removelast_NoDup (k :: _)).
    + by apply lookup_removelast_head.
    + intros k' Hk'.
      destruct (simplelru.lookup k' (removelast ((k, cl) :: simplelru.evictList l)))
        as [v|] eqn:Hv; [left | by right].
      apply lookup_removelast in Hv. simpl in Hv.
      destruct (Z.eqb_spec k k'); [congruence | done].
  - split; [done|]. split; [done|]. split; [done|]. split; [done|]. split.
    + simpl. by rewrite Z.eqb_refl.
    + intros k' Hne. left. simpl. destruct (Z.eqb_spec k k'); [congruence | done].
Qed.

Lemma liveIDs_safe (E : panic -> Prop) ids c :
  (cache c = None -> E NilDereference) ->
  safe E (liveIDs ids c) (fun '(new, c') =>
    new = filter (fun k => is_Some (peek c k)) ids /\ reordered c c').
Proof.
  revert c. induction ids as [|k rest IH]; intros c HE; simpl.
  - split; [done | apply reordered_refl].
  - eapply safe_bind; [apply Get_safe; done|].
    intros [v c1] [-> Hr1].
    eapply safe_bind.
    { apply IH. intros Hn. apply HE. by apply Hr1. }
    intros [new c2] [-> Hr2]. simpl. split.
    + rewrite filter_cons. pose proof Hr1 as (_ & _ & Hp & _).
      assert (filter (λ k0, is_Some (peek c1 k0)) rest
              = filter (λ k0, is_Some (peek c k0)) rest) as ->.
      { apply list_filter_iff. intros x. by rewrite Hp. }
      case_decide as Hd; destruct (peek c k) eqn:Hpk;
        first [done | by destruct Hd | (exfalso; apply Hd; eauto)].
    + eapply reordered_trans; eauto.
Qed.

(** ** The prefix tree *)

Lemma allNodes_here P n : allNodes P n -> P n.
Proof. by intros []. Qed.

Lemma allNodes_child P n k c :
  allNodes P n -> keyToChildNode n !! k = Some c -> allNodes P c.
Proof. intros [n' _ Hc]. apply Hc. Qed.

Lemma allNodes_reach P n m : allNodes P n -> reach n m -> P m.
Proof.
  intros Hn Hr. induction Hr as [n|n k c m Hk _ IH].
  - by apply allNodes_here.
  - apply IH. by eapply allNodes_child.
Qed.

Lemma allNodes_impl (P Q : Node -> Prop) n :
  (forall m, P m -> Q m) -> allNodes P n -> allNodes Q n.
Proof.
  intros HPQ Hn. induction Hn as [n Hn _ IH]. constructor; auto.
Qed.

Lemma allNodes_createNode (P : Node -> Prop) :
  P createNode -> allNodes P createNode.
Proof.
  intros H. constructor; [done|]. intros k c. simpl.
  by rewrite lookup_empty.
Qed.

Lemma allNodes_insert (P : Node -> Prop) n key child :
  P (mkNode (<[key := child]> (keyToChildNode n)) (clusterIDs n)) ->
  allNodes P child -> allNodes P n ->
  allNodes P (mkNode (<[key := child]> (keyToChildNode n)) (clusterIDs n)).
Proof.
  intros Hp Hchild Hn. constructor; [done|].
  intros k c. simpl. destruct (decide (key = k)) as [->|Hne].
  - rewrite lookup_insert_eq. by intros [= <-].
  - rewrite lookup_insert_ne by done. by apply allNodes_child.
Qed.

Lemma Itoa_inj n m : strconv.Itoa n = strconv.Itoa m -> n = m.
Proof. apply pretty_Z_inj. Qed.

(** The descent of [treeSearch] ends at a node of the subtree it started in. *)
Lemma descend_reach cfg tokenCount curNode depth tokens leaf :
  descend cfg tokenCount curNode depth tokens = Some leaf -> reach curNode leaf.
Proof.
  revert curNode depth. induction tokens as [|token rest IH];
    intros curNode depth; simpl.
  - intros [= <-]. constructor.
  - destruct (depth >=? maxNodeDepth cfg); [intros [= <-]; constructor|].
    destruct (depth =? tokenCount); [intros [= <-]; constructor|].
    destruct (keyToChildNode curNode !! token) as [child|] eqn:Ht.
    + intros H. eapply reach_child; eauto.
    + destruct (keyToChildNode curNode !! ParamString cfg) as [child|] eqn:Hw;
        [|done].
      intros H. eapply reach_child; eauto.
Qed.

(** ** Leaf matching *)

Lemma getSeqDistance_Ok cfg seq1 seq2 includeParams :
  len seq1 = len seq2 ->
  exists sim n, getSeqDistance cfg seq1 seq2 includeParams = Ok (sim, n).
Proof.
  intros Hlen. unfold getSeqDistance. rewrite Hlen, Z.eqb_refl. simpl.
  destruct (countSim _ _ _ _ _). eauto.
Qed.

Section FastMatch.
Variable E : panic -> Prop.
Variable cfg : Config.
Variable tokens : list string.
Variable includeParams : bool.
Variable pk : Z -> option LogCluster.

Lemma fastMatchLoop_safe ids maxSim maxParamCount maxCluster c :
  (cache c = None -> E NilDereference) ->
  (forall k, peek c k = pk k) ->
  Forall (fun k => forall cl, pk k = Some cl ->
            len (logTemplateTokens cl) = len tokens) ids ->
  ptrOK pk tokens maxCluster ->
  safe E (fastMatchLoop cfg ids tokens includeParams maxSim maxParamCount
                        maxCluster c)
       (fun '(_, p, c') => ptrOK pk tokens p /\ reordered c c').
Proof.
  revert maxSim maxParamCount maxCluster c.
  induction ids as [|k rest IH]; intros maxSim maxParamCount maxCluster c
    HE Hpk Hids Hptr; simpl.
  - split; [done | apply reordered_refl].
  - apply Forall_cons in Hids as [Hk Hrest].
    eapply safe_bind; [apply Get_safe; done|].
    intros [v c1] [-> Hr1].
    assert (cache c1 = None -> E NilDereference) as HE1.
    { intros Hn. apply HE. by apply Hr1. }
    assert (forall k, peek c1 k = pk k) as Hpk1.
    { intros k'. destruct Hr1 as (_ & _ & Hp & _). by rewrite Hp. }
    assert (forall ms mp mc, ptrOK pk tokens mc ->
              safe E (fastMatchLoop cfg rest tokens includeParams ms mp mc c1)
                   (fun '(_, p, c') => ptrOK pk tokens p /\ reordered c c'))
      as Hgo.
    { intros ms mp mc Hmc. eapply safe_mono; [by apply IH|].
      intros [[? p] c'] [? ?]. split; [done|].
      eapply reordered_trans; eauto. }
    destruct (peek c k) as [cl|] eqn:Hcl; [|by apply Hgo].
    rewrite Hpk in Hcl.
    destruct (getSeqDistance_Ok cfg (logTemplateTokens cl) tokens includeParams)
      as (sim & n & ->); [by apply Hk|].
    simpl.
    destruct (_ || _); apply Hgo; [|done].
    intros k' cl' [= <- <-]. split; [done | by apply Hk].
Qed.

Lemma fastMatch_safe ids simTh c :
  (cache c = None -> E NilDereference) ->
  (forall k, peek c k = pk k) ->
  Forall (fun k => forall cl, pk k = Some cl ->
            len (logTemplateTokens cl) = len tokens) ids ->
  safe E (fastMatch cfg ids tokens simTh includeParams c)
       (fun '(p, c') => ptrOK pk tokens p /\ reordered c c').
Proof.
  intros HE Hpk Hids. unfold fastMatch.
  eapply safe_bind.
  { apply fastMatchLoop_safe; [done | done | done |]. by intros k cl. }
  intros [[ms p] c'] [Hp Hr]. simpl. split; [|done].
  destruct (PrimFloat.leb simTh ms); [done | by intros k cl].
Qed.

End FastMatch.

Lemma treeSearch_safe (E : panic -> Prop) (X : Node -> Prop) d n tokens simTh
    includeParams :
  (cache (idToCluster d) = None -> E NilDereference) ->
  tokens <> [] ->
  treeInv (nodeGood (peek (idToCluster d)) n X) (rootNode d) ->
  safe E (treeSearch d (rootNode d) tokens simTh includeParams)
       (fun '(p, d') =>
          ptrOK (peek (idToCluster d)) tokens p /\
          exists c', d' = withCache d c' /\ reordered (idToCluster d) c').
Proof.
  intros HE Hne Htree. unfold treeSearch.
  destruct (keyToChildNode (rootNode d) !! strconv.Itoa (len tokens))
    as [curNode|] eqn:Hroot.
  2:{ simpl. split; [by intros k cl|]. exists (idToCluster d).
      split; [by destruct d | apply reordered_refl]. }
  assert ((len tokens =? 0) = false) as ->.
  { apply Z.eqb_neq. unfold len. destruct tokens; [done | simpl; lia]. }
  destruct (descend _ _ _ _ _) as [leaf|] eqn:Hleaf.
  2:{ simpl. split; [by intros k cl|]. exists (idToCluster d).
      split; [by destruct d | apply reordered_refl]. }
  destruct (Htree _ _ Hroot) as (m & Hm & _ & Hall).
  apply Itoa_inj in Hm. subst m.
  apply descend_reach in Hleaf.
  destruct (allNodes_reach _ _ _ Hall Hleaf) as [Hids _].
  eapply safe_bind.
  { apply fastMatch_safe with (pk := peek (idToCluster d)); [done | done |].
    eapply Forall_impl; [exact Hids|]. by intros k [_ Hk]. }
  intros [p c'] [Hp Hr]. simpl. eauto.
Qed.

(** ** Insertion *)

Lemma nextNode_child cfg nd token key child :
  nextNode cfg nd token = Some (key, child) ->
  child = createNode \/ keyToChildNode nd !! key = Some child.
Proof.
  unfold nextNode.
  destruct (keyToChildNode nd !! token) as [c0|] eqn:Ht.
  { intros [= <- <-]. by right. }
  destruct (negb (hasNumbers token)).
  - destruct (keyToChildNode nd !! ParamString cfg) as [w|] eqn:Hw.
    + destruct (_ <? _); intros [= <- <-]; [by left | by right].
    + destruct (_ <? _); [intros [= <- <-]; by left|].
      destruct (_ =? _); [intros [= <- <-]; by left | done].
  - destruct (keyToChildNode nd !! ParamString cfg) as [w|] eqn:Hw;
      intros [= <- <-]; [by right | by left].
Qed.

Section AddSeq.
Variable E : panic -> Prop.
Variable cfg : Config.
Variable clusterID tokenCount : Z.
Variable P : Node -> Prop.
Variable c : LogClusterCache.

Hypothesis HE : cache c = None -> E NilDereference.
Hypothesis P_leaf : forall nd, P nd ->
  P (mkNode (keyToChildNode nd)
            (filter (fun k => is_Some (peek c k)) (clusterIDs nd) ++ [clusterID])).
Hypothesis P_next : forall nd token, P nd ->
  match nextNode cfg nd token with
  | Some (key, _) => forall child,
      P (mkNode (<[key := child]> (keyToChildNode nd)) (clusterIDs nd))
  | None => E NilDereference
  end.
Hypothesis P_new : P createNode.

Lemma addSeqLoop_safe curNode depth tokens :
  allNodes P curNode ->
  safe E (addSeqLoop cfg clusterID tokenCount curNode depth tokens c)
       (fun '(n', c') => allNodes P n' /\ reordered c c').
Proof.
  revert curNode depth. induction tokens as [|token rest IH];
    intros curNode depth Hcur; simpl.
  - split; [done | apply reordered_refl].
  - destruct (_ || _).
    + eapply safe_bind; [by apply liveIDs_safe|].
      intros [new c'] [-> Hr]. simpl. split; [|done].
      constructor; [apply P_leaf; by apply allNodes_here|].
      simpl. intros k ch. by apply allNodes_child.
    + pose proof (P_next curNode token (allNodes_here _ _ Hcur)) as Hnext.
      destruct (nextNode cfg curNode token) as [[key child]|] eqn:Hnn.
      * eapply safe_bind.
        { apply IH. destruct (nextNode_child _ _ _ _ _ Hnn) as [->|Hch].
          - by apply allNodes_createNode.
          - by eapply allNodes_child. }
        intros [child' c'] [Hch' Hr]. simpl. split; [|done].
        by apply allNodes_insert.
      * destruct rest; simpl; [|done].
        split; [done | apply reordered_refl].
Qed.

End AddSeq.

Lemma addSeqToPrefixTree_safe (E : panic -> Prop) cfg (P : Z -> Node -> Prop)
    root cluster c :
  let count := len (logTemplateTokens cluster) in
  (cache c = None -> E NilDereference) ->
  (forall nd, P count nd ->
     P count (mkNode (keyToChildNode nd)
                (filter (fun k => is_Some (peek c k)) (clusterIDs nd)
                 ++ [id cluster]))) ->
  (forall nd token, P count nd ->
     match nextNode cfg nd token with
     | Some (key, _) => forall child,
         P count (mkNode (<[key := child]> (keyToChildNode nd)) (clusterIDs nd))
     | None => E NilDereference
     end) ->
  P count createNode ->
  1 <= count ->
  treeInv P root ->
  safe E (addSeqToPrefixTree cfg root cluster c)
       (fun '(root', c') => treeInv P root' /\ reordered c c').
Proof.
  intros count HE Hleaf Hnext Hnew Hcount Htree. unfold addSeqToPrefixTree.
  fold count.
  assert ((count =? 0) = false) as -> by (apply Z.eqb_neq; lia).
  eapply safe_bind.
  { apply (addSeqLoop_safe E cfg (id cluster) count (P count) c);
      [exact HE | exact Hleaf | exact Hnext | exact Hnew |].
    destruct (keyToChildNode root !! strconv.Itoa count) as [n0|] eqn:Hroot.
    - destruct (Htree _ _ Hroot) as (m & Hm & _ & Hall).
      apply Itoa_inj in Hm. by subst m.
    - by apply allNodes_createNode. }
  intros [first c'] [Hfirst Hr]. simpl. split; [|done].
  intros key node. simpl.
  destruct (decide (strconv.Itoa count = key)) as [<-|Hne].
  - rewrite lookup_insert_eq. intros [= <-]. eauto.
  - rewrite lookup_insert_ne by done. apply Htree.
Qed.

Lemma treeInv_impl (P Q : Z -> Node -> Prop) root :
  (forall n nd, P n nd -> Q n nd) -> treeInv P root -> treeInv Q root.
Proof.
  intros HPQ Htree key node Hk.
  destruct (Htree key node Hk) as (n & ? & ? & Hall).
  exists n. split; [done|]. split; [done|].
  eapply allNodes_impl; [|exact Hall]. apply HPQ.
Qed.

Lemma nodeGood_transfer pk pk' n n' X count nd :
  n <= n' ->
  (forall k cl', 1 <= k <= n -> pk' k = Some cl' ->
     exists cl, pk k = Some cl /\
       len (logTemplateTokens cl') = len (logTemplateTokens cl)) ->
  nodeGood pk n X count nd -> nodeGood pk' n' X count nd.
Proof.
  intros Hle Hpk [Hids HX]. split; [|done].
  eapply Forall_impl; [exact Hids|].
  intros k [Hk Hlen]. split; [lia|].
  intros cl' Hcl'. destruct (Hpk k cl' Hk Hcl') as (cl & Hcl & ->). auto.
Qed.

(** ** Tokenization and merging *)

Lemma splitFrom_nonempty sep skip cur s : gostrings.splitFrom sep skip cur s <> [].
Proof.
  revert skip cur. induction s as [|ch t IH]; intros skip cur;
    cbn [gostrings.splitFrom]; [done|].
  destruct skip; [|apply IH].
  destruct (String.prefix sep (String ch t)); [done | apply IH].
Qed.

Lemma getContentAsTokens_nonempty cfg content :
  getContentAsTokens cfg content <> [].
Proof. unfold getContentAsTokens, gostrings.Split. apply splitFrom_nonempty. Qed.

Lemma mergeTokens_length param seq1 seq2 :
  length (mergeTokens param seq1 seq2) = length seq2.
Proof.
  revert seq2. induction seq1 as [|t1 r1 IH]; intros [|t2 r2]; simpl; auto.
Qed.

Lemma wrap_small z : - 2 ^ 63 <= z < 2 ^ 63 -> wrap z = z.
Proof. intros Hz. unfold wrap. rewrite Z.mod_small; lia. Qed.

(** ** One [Log] call *)

Lemma writeCluster_cache p cl c :
  cache (writeCluster p cl c) = None <-> cache c = None.
Proof.
  unfold writeCluster. destruct (cache c) eqn:Hc; simpl; rewrite ?Hc; done.
Qed.

Lemma writeCluster_capacity p cl c :
  capacity (writeCluster p cl c) = capacity c.
Proof. unfold writeCluster, capacity. destruct (cache c) eqn:Hc; simpl; by rewrite ?Hc. Qed.

Lemma writeCluster_recency p cl c : recency (writeCluster p cl c) = recency c.
Proof.
  unfold writeCluster, recency, entries.
  destruct (cache c) eqn:Hc; simpl; [apply assign_keys | by rewrite Hc].
Qed.

Lemma writeCluster_peek p cl c k :
  peek (writeCluster p cl c) k =
  if decide (k = fst p) then const cl <$> peek c (fst p) else peek c k.
Proof.
  unfold writeCluster, peek, entries.
  destruct (cache c) eqn:Hc; simpl; [apply lookup_assign|].
  rewrite Hc. by case_decide.
Qed.

Section Step.
Variable E : panic -> Prop.
Variable cfg : Config.
Variable X : Node -> Prop.

Hypothesis X_new : X createNode.
Hypothesis X_ids : forall nd ids, X nd -> X (mkNode (keyToChildNode nd) ids).
Hypothesis X_next : forall nd token, X nd ->
  match nextNode cfg nd token with
  | Some (key, _) => forall child,
      X (mkNode (<[key := child]> (keyToChildNode nd)) (clusterIDs nd))
  | None => E NilDereference
  end.

Lemma LogStep_merge d tokens key old c1 :
  Inv X d ->
  reordered (idToCluster d) c1 ->
  peek (idToCluster d) key = Some old ->
  len (logTemplateTokens old) = len tokens ->
  forall c3,
  let cl := mkLogCluster
              (mergeTokens (ParamString (config d)) tokens (logTemplateTokens old))
              (id old) (wrap (size old + 1)) in
  reordered (writeCluster (key, old) cl c1) c3 ->
  Inv X (withCache (withCache d c1) c3) /\
  stepRel d (withCache (withCache d c1) c3) tokens cl Merged.
Proof.
  intros (Hn & Hstore & Htree) Hr1 Hold Hlen c3 cl Hr3.
  pose proof Hstore as (Hnd & Hcap & Hent).
  destruct (Hent key old Hold) as (Hkey & Hid & Hlen1).
  assert (forall k, peek c3 k =
            if decide (k = key) then Some cl else peek (idToCluster d) k) as Hpk3.
  { intros k. destruct Hr3 as (_ & _ & -> & _). rewrite writeCluster_peek. simpl.
    destruct Hr1 as (_ & _ & Hp1 & _). rewrite !Hp1, Hold. done. }
  assert (len (logTemplateTokens cl) = len (logTemplateTokens old)) as Hlencl.
  { unfold cl, len. simpl. by rewrite mergeTokens_length. }
  split; [split; [done|]; split|].
  - (* store *)
    split; [|split].
    + destruct Hr3 as (_ & _ & _ & ->). rewrite writeCluster_recency.
      destruct Hr1 as (_ & _ & _ & ->). done.
    + simpl. destruct Hr3 as (Hn3 & -> & _). rewrite writeCluster_capacity.
      destruct Hr1 as (Hn1 & -> & _). intros Hc3. apply Hcap.
      intros Hc. apply Hc3, Hn3, writeCluster_cache, Hn1, Hc.
    + simpl. intros k cl'. rewrite Hpk3. case_decide as Hk.
      * intros [= <-]. subst k. split; [done|]. split; [done|]. lia.
      * apply Hent.
  - (* tree *)
    simpl. eapply treeInv_impl; [|exact Htree].
    intros n nd. apply nodeGood_transfer; [lia|].
    intros k cl' _. rewrite Hpk3. case_decide as Hk.
    + intros [= <-]. subst k. eauto.
    + eauto.
  - (* step *)
    unfold stepRel. simpl. split; [done|]. split.
    { destruct Hr3 as (_ & -> & _). rewrite writeCluster_capacity.
      by destruct Hr1 as (_ & -> & _). }
    split.
    { intros Hc3. apply Hr1, (writeCluster_cache (key, old) cl), Hr3, Hc3. }
    rewrite Hid. split; [rewrite Hpk3; by rewrite decide_True|].
    split; [done|]. split; [done|]. split.
    { destruct Hr3 as (_ & _ & _ & ->). rewrite writeCluster_recency.
      by destruct Hr1 as (_ & _ & _ & ->). }
    split.
    { intros k Hk. rewrite Hpk3. by rewrite decide_False. }
    exists old. split; [done|]. split; [done|]. unfold cl. by rewrite Hid.
Qed.

Lemma LogStep_safe d content :
  config d = cfg ->
  Inv X d ->
  clustersCounter d < MaxInt ->
  (cache (idToCluster d) = None -> E NilDereference) ->
  safe E (LogStep d content)
       (fun '(d', cl, o) =>
          Inv X d' /\ stepRel d d' (getContentAsTokens cfg content) cl o).
Proof.
  intros Hcfg HInv Hmax HE. unfold LogStep. rewrite Hcfg.
  set (tokens := getContentAsTokens cfg content).
  assert (1 <= len tokens) as Htok.
  { pose proof (getContentAsTokens_nonempty cfg content) as Hne.
    fold tokens in Hne. unfold len. destruct tokens; [done | simpl; lia]. }
  pose proof HInv as (Hn & Hstore & Htree).
  eapply safe_bind.
  { eapply treeSearch_safe;
      [exact HE | apply getContentAsTokens_nonempty | exact Htree]. }
  intros [p d1] (Hp & c1 & -> & Hr1).
  cbn [config rootNode idToCluster clustersCounter withCache]. rewrite Hcfg.
  destruct p as [[key old]|].
  - (* merge into the cluster found *)
    destruct (Hp key old eq_refl) as [Hold Hlen].
    cbn [snd]. unfold createTemplate. rewrite Hlen, Z.eqb_refl.
    cbn [negb bind id].
    eapply safe_bind.
    { apply Get_safe. intros Hc. apply HE, Hr1.
      eapply writeCluster_cache. exact Hc. }
    intros [v c3] [_ Hr3]. cbn [safe].
    pose proof (LogStep_merge d tokens key old c1 HInv Hr1 Hold Hlen c3) as Hm.
    rewrite Hcfg in Hm. by apply Hm.
  - (* a new cluster *)
    set (n := clustersCounter d) in *.
    rewrite wrap_small by (unfold MaxInt in Hmax; lia).
    set (newc := mkLogCluster tokens (n + 1) 1).
    assert (storeInv n c1) as Hstore1 by (by eapply reordered_storeInv).
    eapply safe_bind.
    { eapply (Set_safe E n); [|exact Hstore1|].
      - intros Hc. by apply HE, Hr1.
      - destruct (peek c1 (n + 1)) as [cl|] eqn:Hcl; [|done].
        destruct Hstore1 as (_ & _ & Hent).
        destruct (Hent _ _ Hcl) as [? _]. lia. }
    intros c2 (Hc2 & Hpos2 & Hcap2 & Hnd2 & Hnew2 & Hold2).
    assert (forall k cl', 1 <= k <= n -> peek c2 k = Some cl' ->
              peek (idToCluster d) k = Some cl') as Hback.
    { intros k cl' Hk Hcl'. destruct (Hold2 k) as [Hk2|Hk2]; [lia | |congruence].
      destruct Hr1 as (_ & _ & Hp1 & _). by rewrite <- Hp1, <- Hk2. }
    eapply safe_bind.
    { apply (addSeqToPrefixTree_safe E cfg (nodeGood (peek c2) (n + 1) X)).
      - intros Hc. done.
      - intros nd [Hids HX]. split; [|by apply X_ids].
        cbn [clusterIDs id newc]. apply Forall_app. split.
        + apply Forall_forall. intros k [_ Hk]%list_elem_of_filter.
          by apply (proj1 (Forall_forall _ _) Hids).
        + apply Forall_singleton. split; [lia|].
          intros cl. rewrite Hnew2. by intros [= <-].
      - intros nd token [Hids HX].
        pose proof (X_next nd token HX) as Hnext.
        destruct (nextNode cfg nd token) as [[key child]|]; [|done].
        intros child'. split; [done | apply Hnext].
      - split; [apply Forall_nil_2 | done].
      - done.
      - eapply treeInv_impl; [|exact Htree].
        intros m nd. apply nodeGood_transfer; [lia|].
        intros k cl' Hk Hcl'. exists cl'. split; [|done]. by apply Hback. }
    intros [root' c3] [Htree' Hr3]. cbn [safe].
    assert (forall k, peek c3 k = peek c2 k) as Hpk3 by apply Hr3.
    split; [split; [|split]|].
    + simpl. lia.
    + cbn [clustersCounter idToCluster]. eapply reordered_storeInv; [exact Hr3|].
      split; [done|]. split.
      * done.
      * intros k cl Hcl. destruct (decide (k = n + 1)) as [->|Hk].
        -- rewrite Hnew2 in Hcl. injection Hcl as <-. simpl.
           split; [lia|]. split; [done|]. done.
        -- destruct (Hold2 k Hk) as [Hk2|Hk2]; [|congruence].
           destruct Hstore1 as (_ & _ & Hent). rewrite Hk2 in Hcl.
           destruct (Hent _ _ Hcl) as (? & ? & ?). split; [lia|]. done.
    + cbn [clustersCounter idToCluster rootNode].
      eapply treeInv_impl; [|exact Htree'].
      intros m nd. apply nodeGood_transfer; [lia|].
      intros k cl' _. rewrite Hpk3. eauto.
    + unfold stepRel. cbn [config idToCluster clustersCounter rootNode id].
      split; [done|]. split.
      { destruct Hr3 as (_ & -> & _). rewrite Hcap2. by destruct Hr1 as (_ & -> & _). }
      split.
      { intros Hc3. exfalso. apply Hc2. by apply Hr3. }
      split; [by rewrite Hpk3|].
      split; [done|]. split; [done|].
      intros k Hk. rewrite Hpk3. destruct (Hold2 k Hk) as [-> | ->]; [left | by right].
      by destruct Hr1 as (_ & _ & -> & _).
Qed.

End Step.

(** ** Fan-out *)

Lemma lenMap_insert_Some (m : gmap string Node) key child child' :
  m !! key = Some child -> lenMap (<[key := child']> m) = lenMap m.
Proof. intros H. unfold lenMap. by erewrite map_size_insert_Some. Qed.

Lemma lenMap_insert_None (m : gmap string Node) key child' :
  m !! key = None -> lenMap (<[key := child']> m) = lenMap m + 1.
Proof. intros H. unfold lenMap. rewrite map_size_insert_None by done. lia. Qed.

Lemma fanOK_new cfg : 1 <= MaxChildren cfg -> fanOK cfg createNode.
Proof.
  intros H. unfold fanOK, createNode, lenMap. simpl.
  rewrite lookup_empty, map_size_empty. simpl. lia.
Qed.

Lemma fanOK_ids cfg nd ids :
  fanOK cfg nd -> fanOK cfg (mkNode (keyToChildNode nd) ids).
Proof. done. Qed.

Lemma fanOK_next cfg nd token :
  fanOK cfg nd ->
  match nextNode cfg nd token with
  | Some (key, _) => forall child,
      fanOK cfg (mkNode (<[key := child]> (keyToChildNode nd)) (clusterIDs nd))
  | None => False
  end.
Proof.
  unfold fanOK, nextNode. cbn [keyToChildNode].
  set (m := keyToChildNode nd). set (w := ParamString cfg).
  intros Hfan.
  assert (forall key c0 child, m !! key = Some c0 ->
            match <[key := child]> m !! w with
            | Some _ => lenMap (<[key := child]> m) <= MaxChildren cfg
            | None => lenMap (<[key := child]> m) + 1 <= MaxChildren cfg
            end) as Hreplace.
  { intros key c0 child Hk. rewrite (lenMap_insert_Some m key c0) by done.
    destruct (decide (key = w)) as [->|Hne].
    - rewrite lookup_insert_eq. by rewrite Hk in Hfan.
    - by rewrite lookup_insert_ne. }
  destruct (m !! token) as [c0|] eqn:Ht.
  { intros child. by eapply Hreplace. }
  destruct (negb (hasNumbers token)).
  - destruct (m !! w) as [wild|] eqn:Hw.
    + destruct (Z.ltb_spec (lenMap m) (MaxChildren cfg)).
      * intros child. rewrite lenMap_insert_None by done.
        rewrite lookup_insert_ne by congruence. rewrite Hw. lia.
      * intros child. eapply Hreplace. done.
    + destruct (Z.ltb_spec (lenMap m + 1) (MaxChildren cfg)).
      * intros child. rewrite lenMap_insert_None by done.
        destruct (decide (token = w)) as [->|Hne].
        -- rewrite lookup_insert_eq. lia.
        -- rewrite lookup_insert_ne by done. rewrite Hw. lia.
      * destruct (Z.eqb_spec (lenMap m + 1) (MaxChildren cfg)); [|lia].
        intros child. rewrite lenMap_insert_None by done.
        rewrite lookup_insert_eq. lia.
  - destruct (m !! w) as [wild|] eqn:Hw.
    + intros child. eapply Hreplace. done.
    + intros child. rewrite lenMap_insert_None by done.
      rewrite lookup_insert_eq. lia.
Qed.

Lemma fanOK_bound cfg nd : fanOK cfg nd -> lenMap (keyToChildNode nd) <= MaxChildren cfg.
Proof. unfold fanOK. destruct (_ !! _); lia. Qed.

(** ** The frame of the tree search *)

Lemma treeSearch_frame d root tokens simTh includeParams p d' :
  treeSearch d root tokens simTh includeParams = Ok (p, d') ->
  exists c, d' = withCache d c.
Proof.
  unfold treeSearch.
  destruct (keyToChildNode root !! _) as [curNode|].
  2:{ intros [= <- <-]. exists (idToCluster d). by destruct d. }
  destruct (_ =? _).
  - destruct (clusterIDs curNode) as [|first ?]; [done|].
    destruct (Get first (idToCluster d)) as [[v c]|]; [|done].
    simpl. intros [= <- <-]. eauto.
  - destruct (descend _ _ _ _ _) as [leaf|].
    2:{ intros [= <- <-]. exists (idToCluster d). by destruct d. }
    destruct (fastMatch _ _ _ _ _ _) as [[v c]|]; [|done].
    simpl. intros [= <- <-]. eauto.
Qed.

(** Whatever else a [Log] call does, it keeps the shape of the root and a
    property [X] of the nodes below it that insertion keeps. *)
Lemma LogStep_tree (X : Node -> Prop) d content d' cl o :
  X createNode ->
  (forall nd ids, X nd -> X (mkNode (keyToChildNode nd) ids)) ->
  (forall nd token key child0 child, X nd ->
     nextNode (config d) nd token = Some (key, child0) ->
     X (mkNode (<[key := child]> (keyToChildNode nd)) (clusterIDs nd))) ->
  treeInv (fun _ => X) (rootNode d) ->
  LogStep d content = Ok (d', cl, o) ->
  config d' = config d /\ treeInv (fun _ => X) (rootNode d').
Proof.
  intros X_new X_ids X_next Htree. unfold LogStep.
  set (tokens := getContentAsTokens (config d) content).
  assert (1 <= len tokens) as Htok.
  { pose proof (getContentAsTokens_nonempty (config d) content) as Hne.
    fold tokens in Hne. unfold len. destruct tokens; [done | simpl; lia]. }
  destruct (treeSearch _ _ _ _ _) as [[p d1]|] eqn:Hsearch; [|done].
  apply treeSearch_frame in Hsearch as [c1 ->].
  cbn [bind config rootNode idToCluster clustersCounter withCache].
  destruct p as [p|].
  - destruct (createTemplate _ _ _); [|done]. cbn [bind].
    destruct (Get _ _) as [[? c3]|]; [|done]. cbn [bind].
    by intros [= <- <- <-].
  - destruct (Set_ _ _ _) as [c2|]; [|done]. cbn [bind].
    match goal with
    | |- context [addSeqToPrefixTree ?cf ?r ?cl0 ?c0] =>
        pose proof (addSeqToPrefixTree_safe (fun _ => True) cf
                      (fun _ => X) r cl0 c0) as Hadd
    end.
    cbn [logTemplateTokens] in Hadd.
    destruct (addSeqToPrefixTree _ _ _ _) as [[root' c3]|]; [|done].
    cbn [bind]. intros [= <- <- <-]. split; [done|].
    cbn [rootNode]. apply Hadd; [done | | | done | done | done].
    + intros nd Hnd. by apply X_ids.
    + intros nd token Hnd.
      destruct (nextNode _ nd token) as [[key child0]|] eqn:Hnn; [|done].
      intros child. by eapply X_next.
Qed.

(** ** Sequences of [Log] calls *)

Lemma New_Ok cfg d :
  New cfg = Ok d ->
  3 <= LogClusterDepth cfg /\
  d = mkDrain (configured cfg) createNode
              (createLogClusterCache (MaxClusters cfg)) 0.
Proof.
  unfold New. destruct (Z.ltb_spec (LogClusterDepth cfg) 3); [done|].
  by intros [= <-].
Qed.

Lemma New_total cfg : 3 <= LogClusterDepth cfg -> exists d, New cfg = Ok d.
Proof.
  intros H. unfold New. destruct (Z.ltb_spec (LogClusterDepth cfg) 3); [lia|].
  eauto.
Qed.

Lemma createLogClusterCache_cache maxSize :
  0 <= maxSize -> cache (createLogClusterCache maxSize) <> None.
Proof.
  intros H. unfold createLogClusterCache, simplelru.NewLRU. simpl.
  destruct (Z.eqb_spec maxSize 0) as [->|Hne]; [done|].
  destruct (Z.leb_spec maxSize 0); [lia | done].
Qed.

Lemma New_Inv X cfg d : New cfg = Ok d -> Inv X d.
Proof.
  intros [_ ->]%New_Ok. split; [done|]. split.
  - cbn [idToCluster clustersCounter].
    unfold storeInv, recency, peek, capacity, entries, createLogClusterCache.
    cbn [cache]. unfold simplelru.NewLRU.
    destruct (_ <=? 0) eqn:Hsz; cbn [simplelru.evictList simplelru.size map].
    + split; [apply NoDup_nil_2|]. split; [done | done].
    + split; [apply NoDup_nil_2|]. split; [|done].
      intros _. by apply Z.leb_gt in Hsz.
  - intros key node. cbn [rootNode]. simpl. by rewrite lookup_empty.
Qed.

Section Run.
Variable E : panic -> Prop.
Variable cfg : Config.
Variable X : Node -> Prop.

Hypothesis X_new : X createNode.
Hypothesis X_ids : forall nd ids, X nd -> X (mkNode (keyToChildNode nd) ids).
Hypothesis X_next : forall nd token, X nd ->
  match nextNode cfg nd token with
  | Some (key, _) => forall child,
      X (mkNode (<[key := child]> (keyToChildNode nd)) (clusterIDs nd))
  | None => E NilDereference
  end.

Lemma LogAll_safe d lines :
  config d = cfg ->
  Inv X d ->
  clustersCounter d + len lines <= MaxInt ->
  (cache (idToCluster d) = None -> E NilDereference) ->
  safe E (LogAll d lines)
       (fun d' =>
          Inv X d' /\ config d' = cfg /\
          clustersCounter d <= clustersCounter d' <= clustersCounter d + len lines /\
          (cache (idToCluster d') = None -> cache (idToCluster d) = None)).
Proof.
  revert d. induction lines as [|line rest IH]; intros d Hcfg HInv Hmax HE;
    cbn [LogAll].
  - split; [done|]. split; [done|]. split; [unfold len; simpl; lia | done].
  - assert (len (line :: rest) = len rest + 1) as Hlen
      by (unfold len; simpl length; lia).
    assert (0 <= len rest) as Hrest by (unfold len; lia).
    unfold Log.
    pose proof (LogStep_safe E cfg X X_new X_ids X_next d line Hcfg HInv) as Hs.
    destruct (LogStep d line) as [[[d1 cl] o]|p]; cbn [bind safe] in *;
      [|apply Hs; [lia | done]].
    destruct Hs as [HInv1 Hstep]; [lia | done |].
    pose proof Hstep as (Hcfg1 & _ & Hnil & _ & Ho).
    assert (clustersCounter d <= clustersCounter d1 <= clustersCounter d + 1) as Hc.
    { destruct o; destruct Ho as [-> _]; lia. }
    eapply safe_mono.
    { apply IH; [congruence | done | lia | auto]. }
    intros d' (HInv' & Hcfg' & Hc' & Hnil').
    split; [done|]. split; [done|]. split; [lia | auto].
Qed.

End Run.

Lemma trained_Ok cfg lines d :
  trained cfg lines = Ok d ->
  exists d0, New cfg = Ok d0 /\ LogAll d0 lines = Ok d.
Proof.
  unfold trained. destruct (New cfg) as [d0|] eqn:Hnew; [|done]. simpl. eauto.
Qed.

Lemma LogAll_tree (X : Node -> Prop) d lines d' :
  X createNode ->
  (forall nd ids, X nd -> X (mkNode (keyToChildNode nd) ids)) ->
  (forall nd token key child0 child, X nd ->
     nextNode (config d) nd token = Some (key, child0) ->
     X (mkNode (<[key := child]> (keyToChildNode nd)) (clusterIDs nd))) ->
  treeInv (fun _ => X) (rootNode d) ->
  LogAll d lines = Ok d' ->
  config d' = config d /\ treeInv (fun _ => X) (rootNode d').
Proof.
  intros X_new X_ids. revert d.
  induction lines as [|line rest IH]; intros d X_next Htree; cbn [LogAll].
  - by intros [= <-].
  - unfold Log. destruct (LogStep d line) as [[[d1 cl] o]|] eqn:Hstep; [|done].
    cbn [bind]. intros Hrest.
    destruct (LogStep_tree X d line d1 cl o X_new X_ids X_next Htree Hstep)
      as [Hcfg Htree1].
    destruct (IH d1) as [Hcfg' Htree']; [by rewrite Hcfg | done | done |].
    split; [congruence | done].
Qed.

(** A miner made by [New] and trained on at most [MaxInt] lines satisfies the
    invariant. *)
Lemma trained_inv cfg lines d :
  len lines <= MaxInt ->
  trained cfg lines = Ok d ->
  Inv (fun _ => True) d /\ config d = configured cfg /\
  0 <= clustersCounter d <= len lines.
Proof.
  intros Hlen (d0 & Hnew & Hrun)%trained_Ok.
  pose proof (New_Inv (fun _ => True) cfg d0 Hnew) as HInv0.
  apply New_Ok in Hnew as [_ ->].
  pose proof (LogAll_safe (fun _ => True) (configured cfg) (fun _ => True)
                I (fun _ _ _ => I)) as Hsafe.
  eapply safe_Ok in Hrun; [|apply Hsafe; try done].
  - destruct Hrun as (HInv & Hcfg & Hc & _). cbn [clustersCounter] in Hc.
    split; [done|]. split; [done | lia].
  - intros nd token _. by destruct (nextNode _ nd token) as [[? ?]|].
Qed.

(** With room for at least one child per node and a cache that exists, no
    call panics. *)
Lemma trained_total cfg lines :
  3 <= LogClusterDepth cfg ->
  1 <= MaxChildren cfg ->
  0 <= MaxClusters cfg ->
  len lines <= MaxInt ->
  exists d, trained cfg lines = Ok d /\
    Inv (fanOK (configured cfg)) d /\ cache (idToCluster d) <> None.
Proof.
  intros Hdepth Hchildren Hclusters Hlen.
  destruct (New_total cfg Hdepth) as [d0 Hnew]. unfold trained. rewrite Hnew.
  cbn [bind].
  pose proof (New_Inv (fanOK (configured cfg)) cfg d0 Hnew) as HInv0.
  apply New_Ok in Hnew as [_ ->].
  pose proof (LogAll_safe (fun _ => False) (configured cfg)
                (fanOK (configured cfg)) (fanOK_new _ Hchildren)
                (fanOK_ids _) (fanOK_next _)
                (mkDrain (configured cfg) createNode
                         (createLogClusterCache (MaxClusters cfg)) 0)
                lines eq_refl HInv0) as Hsafe.
  apply safe_total in Hsafe as (d & Hd & HInv & _ & _ & Hnil).
  - exists d. split; [done|]. split; [done|].
    intros Hc. by apply Hnil, createLogClusterCache_cache in Hc.
  - cbn [clustersCounter]. lia.
  - intros Hc. by apply createLogClusterCache_cache in Hc.
Qed.

(** * Theorems *)

(** ** Candidate scoring and the recency order *)

(** C1. Scoring the candidates of a leaf looks every candidate up with the
    touching [Get], so it changes the recency order: after training
    ["a b c d"] and ["x y"] on a store of two clusters the order is 2, 1
    (most recent first); scoring the line ["a z w v"] against the leaf that
    holds cluster 1 finds no match and leaves the order 1, 2; a [Log] of that
    line then evicts cluster 2, the more recently trained one, and keeps
    cluster 1. *)
Theorem fastMatch_touches_recency :
  exists d c' d',
    trained twoClusters ["a b c d"; "x y"] = Ok d /\
    recency (idToCluster d) = [2; 1] /\
    fastMatch (config d) [1] ["a"; "z"; "w"; "v"] (SimTh (config d)) false
              (idToCluster d) = Ok (None, c') /\
    recency c' = [1; 2] /\
    LogAll d ["a z w v"] = Ok d' /\
    liveClusterIDs d = Ok [1; 2] /\
    liveClusterIDs d' = Ok [3; 1].
Proof.
  eexists. eexists. eexists.
  split; [vm_compute; reflexivity|].
  split; [vm_compute; reflexivity|].
  split; [vm_compute; reflexivity|].
  split; [vm_compute; reflexivity|].
  split; [vm_compute; reflexivity|].
  split; vm_compute; reflexivity.
Qed.

(** ** The seed scenario *)

(** C6. With the default configuration, training the seven lines of S1 in
    order leaves exactly three clusters, listed in id order: id 1 of size 3
    with template ["connected to <*>"], id 2 of size 2 with template
    ["Hex number <*>"], id 3 of size 2 with template ["user <*> logged in"]. *)
Theorem S1_clusters :
  (do d <- trained DefaultConfig S1; Clusters d) =
    Ok [ mkLogCluster ["connected"; "to"; "<*>"] 1 3;
         mkLogCluster ["Hex"; "number"; "<*>"] 2 2;
         mkLogCluster ["user"; "<*>"; "logged"; "in"] 3 2 ] /\
  (do d <- trained DefaultConfig S1; do cs <- Clusters d; Ok (map getTemplate cs)) =
    Ok ["connected to <*>"; "Hex number <*>"; "user <*> logged in"] /\
  (do d <- trained DefaultConfig S1; do cs <- Clusters d; Ok (map String_ cs)) =
    Ok ["id={1} : size={3} : connected to <*>";
        "id={2} : size={2} : Hex number <*>";
        "id={3} : size={2} : user <*> logged in"].
Proof. repeat split; vm_compute; reflexivity. Qed.

(** ** The fan-out bound *)

(** The root is not bounded: with the default [MaxChildren] of 100, lines of
    101 different token counts give the root 101 children. *)
Lemma root_fanout_exceeds_MaxChildren :
  ~ (forall cfg lines d m,
       trained cfg lines = Ok d ->
       reach (rootNode d) m ->
       lenMap (keyToChildNode m) <= MaxChildren cfg).
Proof.
  intros H.
  assert ((do d <- trained DefaultConfig (countLines 101);
           Ok (lenMap (keyToChildNode (rootNode d)))) = Ok 101) as Hrun
    by (vm_compute; reflexivity).
  destruct (trained DefaultConfig (countLines 101)) as [d|] eqn:Htrain; [|done].
  cbn [bind] in Hrun. injection Hrun as Hrun.
  specialize (H DefaultConfig (countLines 101) d (rootNode d) Htrain
                (reach_here _)).
  rewrite Hrun in H. cbn [MaxChildren DefaultConfig] in H. lia.
Qed.

(** With [MaxChildren = 0] the bound fails below the root as well: a token
    with a digit gets its wildcard child. *)
Lemma fanout_exceeds_zero_MaxChildren :
  exists d first,
    trained (mkConfig 0 4 (SimTh DefaultConfig) 0 [] 0 "<*>") ["1 a b"] = Ok d /\
    keyToChildNode (rootNode d) !! "3" = Some first /\
    lenMap (keyToChildNode first) = 1.
Proof.
  eexists. eexists. split; [vm_compute; reflexivity|].
  split; vm_compute; reflexivity.
Qed.

(** C3 (amended). For every configuration with [MaxChildren >= 1] and every
    sequence of train calls, every node reachable from a child of the root
    (every node other than the root) has at most [MaxChildren] children. *)
Theorem fanout_bound_below_root (cfg : Config) (lines : list string) (d : Drain) :
  1 <= MaxChildren cfg ->
  trained cfg lines = Ok d ->
  forall key first m,
    keyToChildNode (rootNode d) !! key = Some first ->
    reach first m ->
    lenMap (keyToChildNode m) <= MaxChildren cfg.
Proof.
  intros Hmax (d0 & Hnew & Hrun)%trained_Ok key first m Hfirst Hreach.
  apply New_Ok in Hnew as [_ ->].
  apply (LogAll_tree (fanOK (configured cfg))) in Hrun as [_ Htree].
  - destruct (Htree key first Hfirst) as (n & _ & _ & Hall).
    apply (fanOK_bound (configured cfg)). by eapply allNodes_reach.
  - by apply fanOK_new.
  - apply fanOK_ids.
  - intros nd token key0 child0 child Hnd Hnn.
    pose proof (fanOK_next _ nd token Hnd) as Hnext.
    cbn [config] in Hnn. rewrite Hnn in Hnext. apply Hnext.
  - intros key0 node. cbn [rootNode]. simpl. by rewrite lookup_empty.
Qed.

Lemma fanout_bound_below_root_witness :
  exists d, trained DefaultConfig S1 = Ok d /\
    forall key first m,
      keyToChildNode (rootNode d) !! key = Some first ->
      reach first m ->
      lenMap (keyToChildNode m) <= 100.
Proof.
  eexists. split; [vm_compute; reflexivity|].
  apply (fanout_bound_below_root DefaultConfig S1); [simpl; lia|].
  vm_compute; reflexivity.
Defined.

(** ** Lengths *)

(** C5. The length-mismatch abort is unreachable: no sequence of train calls
    ends in the length-mismatch panic of the similarity function or of the
    template merge.  The reason is the invariant of the tree: a cluster
    whose id is stored below the depth-1 node of token count [n] has, as long
    as it is stored, a template of [n] tokens; and a merge returns a template
    as long as the one it was given. *)
Theorem length_mismatch_unreachable (cfg : Config) (lines : list string) :
  len lines <= MaxInt ->
  trained cfg lines <> Panic LengthMismatch /\
  (forall d n first leaf k cl,
     trained cfg lines = Ok d ->
     keyToChildNode (rootNode d) !! strconv.Itoa n = Some first ->
     reach first leaf ->
     k ∈ clusterIDs leaf ->
     peek (idToCluster d) k = Some cl ->
     len (logTemplateTokens cl) = n) /\
  (forall seq1 seq2 merged,
     createTemplate cfg seq1 seq2 = Ok merged -> len merged = len seq2).
Proof.
  intros Hlen. split; [|split].
  - unfold trained. destruct (New cfg) as [d0|p] eqn:Hnew; cbn [bind].
    + pose proof (New_Inv (fun _ => True) cfg d0 Hnew) as HInv0.
      apply New_Ok in Hnew as [_ ->].
      assert (safe (fun p => p <> LengthMismatch)
                (LogAll (mkDrain (configured cfg) createNode
                           (createLogClusterCache (MaxClusters cfg)) 0) lines)
                (fun _ => True)) as Hsafe.
      { eapply safe_mono.
        - apply (LogAll_safe (fun p => p <> LengthMismatch) (configured cfg)
                   (fun _ => True) I (fun _ _ _ => I)); try done.
          intros nd token _. by destruct (nextNode _ nd token) as [[? ?]|].
        - done. }
      destruct (LogAll _ lines) as [d|p]; [done|].
      cbn [safe] in Hsafe. congruence.
    + unfold New in Hnew. destruct (_ <? 3); [|done]. by injection Hnew as <-.
  - intros d n first leaf k cl Htrain Hfirst Hreach Hk Hcl.
    destruct (trained_inv cfg lines d Hlen Htrain) as ((_ & _ & Htree) & _ & _).
    destruct (Htree _ _ Hfirst) as (n' & Hn' & _ & Hall).
    apply Itoa_inj in Hn'. subst n'.
    destruct (allNodes_reach _ _ _ Hall Hreach) as [Hids _].
    apply (proj1 (Forall_forall _ _) Hids k Hk). done.
  - intros seq1 seq2 merged. unfold createTemplate.
    destruct (negb _); [done|]. intros [= <-].
    unfold len. by rewrite mergeTokens_length.
Qed.

Lemma length_mismatch_unreachable_witness :
  trained DefaultConfig S1 <> Panic LengthMismatch.
Proof.
  apply (length_mismatch_unreachable DefaultConfig S1).
  unfold len, MaxInt. simpl. lia.
Defined.

(** ** Tokenization *)

(** C10. Tokenization returns at least one token for every input string and
    every configuration.  Hence no train call creates the depth-1 node of
    token count 0 that the empty-line branches of the tree search and of the
    insertion work on, and whenever the similarity function gets past its
    length test on a tokenized line, the length it divides by is at least
    one. *)
Theorem tokens_nonempty (cfg : Config) (lines : list string) (d : Drain) :
  trained cfg lines = Ok d ->
  (forall c content, 1 <= len (getContentAsTokens c content)) /\
  keyToChildNode (rootNode d) !! strconv.Itoa 0 = None /\
  (forall content seq1 includeParams r,
     getSeqDistance (config d) seq1 (getContentAsTokens (config d) content)
                    includeParams = Ok r ->
     1 <= len seq1).
Proof.
  intros (d0 & Hnew & Hrun)%trained_Ok.
  assert (forall c content, 1 <= len (getContentAsTokens c content)) as Htok.
  { intros c content. pose proof (getContentAsTokens_nonempty c content) as Hne.
    unfold len. destruct (getContentAsTokens c content); [done | simpl; lia]. }
  split; [done|]. split.
  - apply New_Ok in Hnew as [_ ->].
    assert (treeInv (fun _ _ => True) (rootNode d)) as Htree.
    { apply (LogAll_tree (fun _ => True)) in Hrun as [_ Htree]; done. }
    destruct (keyToChildNode (rootNode d) !! strconv.Itoa 0) as [node|] eqn:H0;
      [|done].
    destruct (Htree _ _ H0) as (n & Hn & Hpos & _).
    apply Itoa_inj in Hn. lia.
  - intros content seq1 includeParams r. unfold getSeqDistance.
    destruct (Z.eqb_spec (len seq1) (len (getContentAsTokens (config d) content)))
      as [->|]; [|done].
    intros _. apply Htok.
Qed.

Lemma tokens_nonempty_witness :
  exists d, trained DefaultConfig S1 = Ok d /\
    ((forall c content, 1 <= len (getContentAsTokens c content)) /\
     keyToChildNode (rootNode d) !! strconv.Itoa 0 = None /\
     (forall content seq1 includeParams r,
        getSeqDistance (config d) seq1 (getContentAsTokens (config d) content)
                       includeParams = Ok r ->
        1 <= len seq1)).
Proof.
  eexists. split; [vm_compute; reflexivity|].
  apply (tokens_nonempty DefaultConfig S1). vm_compute; reflexivity.
Defined.

(** ** The token classifier *)

Lemma covered_sound tab1 tab2 r :
  covered tab1 tab2 = true ->
  unicode.inRanges tab1 r = true -> unicode.inRanges tab2 r = true.
Proof.
  unfold covered, unicode.inRanges. intros Hcov Hin.
  apply existsb_exists in Hin as ([lo hi] & Hmem & Hr).
  pose proof (proj1 (forallb_forall _ _) Hcov _ Hmem) as Hex. simpl in Hex.
  apply existsb_exists in Hex as ([lo' hi'] & Hmem' & Hr').
  apply existsb_exists. exists (lo', hi'). split; [done|]. lia.
Qed.

(** A decimal digit is a number. *)
Lemma IsDigit_IsNumber r : unicode.IsDigit r = true -> unicode.IsNumber r = true.
Proof. apply covered_sound. vm_compute. reflexivity. Qed.

Lemma anyNumber_exists rs :
  anyNumber rs = true <-> exists r, In r rs /\ unicode.IsNumber r = true.
Proof.
  induction rs as [|c rest IH]; cbn [anyNumber In].
  - split; [done | by intros (r & [] & _)].
  - destruct (unicode.IsNumber c) eqn:Hc.
    + split; [eauto | done].
    + rewrite IH. split.
      * intros (r & Hr & Hn). eauto.
      * intros (r & [->|Hr] & Hn); [congruence | eauto].
Qed.

(** The claim fails where a token has a number that is not a decimal digit:
    [hasNumbers] is true of the Roman numeral eight. *)
Lemma hasNumbers_roman_numeral :
  ~ (forall token,
       hasNumbers token = true <->
       exists r, In r (utf8.runes token) /\ unicode.IsDigit r = true).
Proof.
  intros H. destruct (proj1 (H romanEight)) as (r & Hr & Hd).
  - vm_compute. reflexivity.
  - vm_compute in Hr. destruct Hr as [<-|[]]. vm_compute in Hd. discriminate.
Qed.

(** C2 (amended). The token classifier returns true for a token if and only
    if at least one code point of the token is a number, that is, of one of
    the categories Nd (decimal digits), Nl (letter numbers such as Roman
    numerals) and No (other numbers such as fractions); so it is true of
    every token with a decimal digit and false of every token with no number
    code point. *)
Theorem hasNumbers_iff_number (token : string) :
  (hasNumbers token = true <->
   exists r, In r (utf8.runes token) /\ unicode.IsNumber r = true) /\
  ((exists r, In r (utf8.runes token) /\ unicode.IsDigit r = true) ->
   hasNumbers token = true) /\
  ((forall r, In r (utf8.runes token) -> unicode.IsNumber r = false) ->
   hasNumbers token = false).
Proof.
  unfold hasNumbers. split; [apply anyNumber_exists|]. split.
  - intros (r & Hr & Hd). apply anyNumber_exists.
    exists r. split; [done | by apply IsDigit_IsNumber].
  - intros Hnone. destruct (anyNumber (utf8.runes token)) eqn:Hany; [|done].
    apply anyNumber_exists in Hany as (r & Hr & Hn).
    rewrite (Hnone r Hr) in Hn. discriminate.
Qed.

(** ** Cluster ids *)

(** The [Log] calls of [createdIDs] from a miner that satisfies the
    invariant create the ids that follow its counter. *)
Lemma createdIDs_seqZ cfg d lines created :
  config d = cfg ->
  Inv (fun _ => True) d ->
  clustersCounter d + len lines <= MaxInt ->
  createdIDs d lines = Ok created ->
  created = seqZ (clustersCounter d + 1) (len created).
Proof.
  revert d created. induction lines as [|line rest IH];
    intros d created Hcfg HInv Hmax; cbn [createdIDs].
  - by intros [= <-].
  - assert (len (line :: rest) = len rest + 1) as Hlen
      by (unfold len; simpl length; lia).
    assert (0 <= len rest) as Hrest by (unfold len; lia).
    pose proof (LogStep_safe (fun _ => True) cfg (fun _ => True) I
                  (fun _ _ _ => I)) as Hs.
    specialize (Hs) with (d := d) (content := line).
    destruct (LogStep d line) as [[[d1 cl] o]|] eqn:Hstep; [|done].
    cbn [bind safe] in *.
    destruct Hs as [HInv1 Hrel]; [|done | done | lia | done |].
    { intros nd token _. by destruct (nextNode _ nd token) as [[? ?]|]. }
    destruct Hrel as (Hcfg1 & _ & _ & _ & Ho).
    destruct (createdIDs d1 rest) as [ids1|] eqn:Hrec; [|done].
    cbn [bind]. intros [= <-].
    destruct o.
    + destruct Ho as (Hc & -> & _). cbn [id].
      assert (len (clustersCounter d + 1 :: ids1) = len ids1 + 1) as ->
        by (unfold len; simpl length; lia).
      rewrite seqZ_cons by (unfold len; lia). f_equal.
      replace (Z.pred (len ids1 + 1)) with (len ids1) by lia.
      replace (Z.succ (clustersCounter d + 1)) with (clustersCounter d1 + 1)
        by lia.
      apply (IH d1); [congruence | done | lia | done].
    + destruct Ho as (Hc & _). rewrite <- Hc.
      apply (IH d1); [congruence | done | lia | done].
Qed.

(** C9. Cluster ids start at 1 and are strictly increasing in creation
    order, so none is used twice: the ids of the clusters that a sequence of
    train calls creates are, in order, 1, 2, 3, ... *)
Theorem cluster_ids_sequential (cfg : Config) (lines : list string)
    (d : Drain) (created : list Z) :
  len lines <= MaxInt ->
  New cfg = Ok d ->
  createdIDs d lines = Ok created ->
  created = seqZ 1 (len created) /\
  (forall i k, created !! i = Some k -> k = 1 + Z.of_nat i) /\
  (forall i j a b, (i < j)%nat ->
     created !! i = Some a -> created !! j = Some b -> a < b) /\
  NoDup created.
Proof.
  intros Hlen Hnew Hcreated.
  assert (created = seqZ 1 (len created)) as Hseq.
  { pose proof (New_Inv (fun _ => True) cfg d Hnew) as HInv.
    apply New_Ok in Hnew as [_ ->].
    by apply (createdIDs_seqZ (configured cfg)) in Hcreated. }
  split; [done|]. split; [|split].
  - intros i k. rewrite Hseq at 1. by intros [-> _]%lookup_seqZ.
  - intros i j a b Hij. rewrite Hseq at 1.
    intros [-> _]%lookup_seqZ. rewrite Hseq at 1.
    intros [-> _]%lookup_seqZ. lia.
  - rewrite Hseq. apply NoDup_seqZ.
Qed.

Lemma cluster_ids_sequential_witness :
  exists d created,
    New DefaultConfig = Ok d /\
    createdIDs d S1 = Ok created /\
    created = [1; 2; 3] /\
    created = seqZ 1 (len created).
Proof.
  eexists. eexists.
  split; [vm_compute; reflexivity|].
  split; [vm_compute; reflexivity|].
  split; [reflexivity|].
  refine (proj1 (cluster_ids_sequential DefaultConfig S1 _ _ _ _ _)).
  - unfold len, MaxInt. simpl. lia.
  - vm_compute; reflexivity.
  - vm_compute; reflexivity.
Defined.

(** ** Generalization and eviction *)

Lemma mergeTokens_wild param seq1 seq2 :
  generalizes param seq2 (mergeTokens param seq1 seq2).
Proof.
  revert seq1. induction seq2 as [|t2 r2 IH]; intros [|t1 r1] i; try done.
  destruct i as [|i]; cbn [mergeTokens].
  - simpl. intros [= ->]. by destruct (String.eqb t1 param).
  - simpl. apply IH.
Qed.

Lemma fate_trans param o1 o2 o3 :
  fate param o1 o2 -> fate param o2 o3 -> fate param o1 o3.
Proof.
  unfold fate. destruct o1 as [c1|]; [|by intros ->].
  intros [->|(c2 & -> & H12)]; [by intros ->; left|].
  intros [->|(c3 & -> & H23)]; [by left|]. right.
  exists c3. split; [done|]. intros i Hi. by apply H23, H12.
Qed.

Lemma stepRel_fate d d' tokens cl o k :
  stepRel d d' tokens cl o ->
  1 <= k <= clustersCounter d ->
  fate (ParamString (config d)) (peek (idToCluster d) k) (peek (idToCluster d') k) /\
  (peek (idToCluster d) k = None -> id cl <> k).
Proof.
  intros (_ & _ & _ & Hcl & Ho) Hk. unfold fate. destruct o.
  - destruct Ho as (_ & -> & Hother). cbn [id] in *.
    split; [|lia].
    destruct (Hother k) as [->| ->]; [lia | |by destruct (peek _ k); [left|]].
    destruct (peek (idToCluster d) k) as [c|]; [|done].
    right. exists c. split; [done|]. by intros i.
  - destruct Ho as (_ & _ & _ & Hother & old & Hold & _ & Heq).
    destruct (decide (k = id cl)) as [->|Hne].
    + rewrite Hold, Hcl. split; [|done]. right. exists cl. split; [done|].
      rewrite Heq. cbn [logTemplateTokens]. apply mergeTokens_wild.
    + rewrite (Hother k Hne). split; [|congruence].
      destruct (peek (idToCluster d) k) as [c|]; [|done].
      right. exists c. split; [done|]. by intros i.
Qed.

Lemma LogAll_fate cfg d lines d' k :
  config d = cfg ->
  Inv (fun _ => True) d ->
  clustersCounter d + len lines <= MaxInt ->
  LogAll d lines = Ok d' ->
  1 <= k <= clustersCounter d ->
  fate (ParamString cfg) (peek (idToCluster d) k) (peek (idToCluster d') k).
Proof.
  revert d. induction lines as [|line rest IH]; intros d Hcfg HInv Hmax;
    cbn [LogAll].
  - intros [= <-] _. unfold fate. destruct (peek _ k) as [c|]; [|done].
    right. exists c. split; [done|]. by intros i.
  - assert (len (line :: rest) = len rest + 1) as Hlen
      by (unfold len; simpl length; lia).
    assert (0 <= len rest) as Hrest by (unfold len; lia).
    unfold Log.
    pose proof (LogStep_safe (fun _ => True) cfg (fun _ => True) I
                  (fun _ _ _ => I)) as Hs.
    specialize (Hs) with (d := d) (content := line).
    destruct (LogStep d line) as [[[d1 cl] o]|] eqn:Hstep; [|done].
    cbn [bind safe] in *.
    destruct Hs as [HInv1 Hrel]; [|done | done | lia | done |].
    { intros nd token _. by destruct (nextNode _ nd token) as [[? ?]|]. }
    intros Hrun Hk.
    destruct (stepRel_fate _ _ _ _ _ k Hrel Hk) as [Hfate _].
    rewrite Hcfg in Hfate.
    destruct Hrel as (Hcfg1 & _ & _ & _ & Ho).
    assert (clustersCounter d <= clustersCounter d1 <= clustersCounter d + 1) as Hc.
    { destruct o; destruct Ho as [-> _]; lia. }
    eapply fate_trans; [exact Hfate|].
    apply IH; [congruence | done | lia | done | lia].
Qed.

(** C8. Generalization is monotone: a template position of a cluster that
    holds the wildcard marker still holds it after any further train calls,
    whichever of them merge a line into that cluster. *)
Theorem generalization_monotone (cfg : Config) (lines more : list string)
    (d d' : Drain) :
  len lines + len more <= MaxInt ->
  trained cfg lines = Ok d ->
  LogAll d more = Ok d' ->
  forall k cl cl' (i : nat),
    peek (idToCluster d) k = Some cl ->
    peek (idToCluster d') k = Some cl' ->
    logTemplateTokens cl !! i = Some (ParamString cfg) ->
    logTemplateTokens cl' !! i = Some (ParamString cfg).
Proof.
  intros Hlen Htrain Hmore k cl cl' i Hcl Hcl' Hi.
  assert (0 <= len more) as Hm by (unfold len; lia).
  destruct (trained_inv cfg lines d) as (HInv & Hcfg & Hc); [lia | done |].
  pose proof HInv as (_ & (_ & _ & Hent) & _).
  destruct (Hent k cl Hcl) as (Hk & _).
  pose proof (LogAll_fate (configured cfg) d more d' k Hcfg HInv) as Hfate.
  rewrite Hcl, Hcl' in Hfate. cbn [fate ParamString configured] in Hfate.
  destruct Hfate as [|(c' & [= <-] & Hgen)]; [lia | done | done | done |].
  by apply Hgen.
Qed.

Lemma generalization_monotone_witness :
  exists d d' cl cl',
    trained DefaultConfig ["a b c 1"; "a b c 2"] = Ok d /\
    LogAll d ["a b d 3"; "x y"] = Ok d' /\
    peek (idToCluster d) 1 = Some cl /\
    peek (idToCluster d') 1 = Some cl' /\
    logTemplateTokens cl = ["a"; "b"; "c"; "<*>"] /\
    logTemplateTokens cl' = ["a"; "b"; "<*>"; "<*>"] /\
    logTemplateTokens cl' !! 3%nat = Some "<*>".
Proof.
  eexists. eexists. eexists. eexists.
  split; [vm_compute; reflexivity|].
  split; [vm_compute; reflexivity|].
  split; [vm_compute; reflexivity|].
  split; [vm_compute; reflexivity|].
  split; [reflexivity|].
  split; [reflexivity|].
  refine (generalization_monotone DefaultConfig ["a b c 1"; "a b c 2"]
            ["a b d 3"; "x y"] _ _ _ _ _ 1 _ _ 3%nat _ _ _).
  - unfold len, MaxInt. simpl. lia.
  - vm_compute; reflexivity.
  - vm_compute; reflexivity.
  - vm_compute; reflexivity.
  - vm_compute; reflexivity.
  - reflexivity.
Defined.

(** ** Stale ids *)

Lemma Get_miss k c :
  cache c <> None -> peek c k = None -> Get k c = Ok (None, c).
Proof.
  unfold Get, peek, entries, simplelru.Get. destruct c as [[l|]]; [|done].
  cbn [cache]. intros _ ->. by destruct l.
Qed.

(** The new-cluster branch of [Log] ends with the insertion into the tree. *)
Lemma LogStep_created d line d' cl :
  LogStep d line = Ok (d', cl, Created) ->
  exists c2, cache c2 <> None /\
    addSeqToPrefixTree (config d) (rootNode d) cl c2
      = Ok (rootNode d', idToCluster d').
Proof.
  unfold LogStep.
  destruct (treeSearch _ _ _ _ _) as [[p d1]|] eqn:Hsearch; [|done].
  apply treeSearch_frame in Hsearch as [c1 ->].
  cbn [bind config rootNode idToCluster clustersCounter withCache].
  destruct p as [p|].
  - destruct (createTemplate _ _ _); [|done]. cbn [bind].
    by destruct (Get _ _) as [[? c3]|].
  - destruct (Set_ _ _ _) as [c2|] eqn:Hset; [|done]. cbn [bind].
    destruct (addSeqToPrefixTree _ _ _ _) as [[root' c3]|] eqn:Hadd; [|done].
    cbn [bind]. intros [= <- <-]. exists c2. split; [|done].
    unfold Set_ in Hset. destruct (cache c1); [|done]. by injection Hset as <-.
Qed.

(** Appending a fresh id to a leaf leaves only live ids in that leaf. *)
Lemma addSeq_prunes cfg pk n X root cl c root' c' :
  treeInv (nodeGood pk n X) root ->
  n < id cl ->
  is_Some (peek c' (id cl)) ->
  1 <= len (logTemplateTokens cl) ->
  addSeqToPrefixTree cfg root cl c = Ok (root', c') ->
  forall key first m,
    keyToChildNode root' !! key = Some first ->
    reach first m ->
    id cl ∈ clusterIDs m ->
    Forall (fun i => is_Some (peek c' i)) (clusterIDs m).
Proof.
  intros Htree Hfresh Hlive Hlen Hadd key first m Hfirst Hreach Hin.
  assert (forall i, peek c' i = peek c i) as Hpk.
  { pose proof (addSeqToPrefixTree_safe (fun _ => True) cfg
                  (fun _ _ => True) root cl c) as Hsafe.
    rewrite Hadd in Hsafe. cbn [safe] in Hsafe.
    destruct Hsafe as [_ (_ & _ & Hpk & _)]; try done.
    - intros nd token _. by destruct (nextNode cfg nd token) as [[? ?]|].
    - eapply treeInv_impl; [|exact Htree]. done. }
  set (P := fun (_ : Z) (nd : Node) =>
              id cl ∈ clusterIDs nd ->
              Forall (fun i => is_Some (peek c i)) (clusterIDs nd)).
  pose proof (addSeqToPrefixTree_safe (fun _ => True) cfg P root cl c) as Hsafe.
  rewrite Hadd in Hsafe. cbn [safe] in Hsafe.
  destruct Hsafe as [Htree' Hr]; try done.
  - intros nd _ _. cbn [clusterIDs]. apply Forall_app. split.
    + apply Forall_forall. by intros i [Hi _]%list_elem_of_filter.
    + apply Forall_singleton. by rewrite <- Hpk.
  - intros nd token Hnd. by destruct (nextNode cfg nd token) as [[? ?]|].
  - intros Hnil. by apply elem_of_nil in Hnil.
  - eapply treeInv_impl; [|exact Htree].
    intros count nd [Hids _] Hnd. exfalso.
    apply (proj1 (Forall_forall _ _) Hids) in Hnd as [? _]. lia.
  - destruct (Htree' key first Hfirst) as (count & _ & _ & Hall).
    pose proof (allNodes_reach _ _ _ Hall Hreach Hin) as Hm.
    eapply Forall_impl; [exact Hm|].
    intros i. by rewrite Hpk.
Qed.

(** The insertion loop ends at a node that gets the new id. *)
Lemma addSeqLoop_holds cfg clusterID tokenCount tokens :
  1 <= MaxChildren cfg ->
  forall curNode depth c node' c',
    allNodes (fanOK cfg) curNode ->
    tokens <> [] ->
    depth + len tokens = tokenCount + 1 ->
    addSeqLoop cfg clusterID tokenCount curNode depth tokens c = Ok (node', c') ->
    exists m, reach node' m /\ clusterID ∈ clusterIDs m.
Proof.
  intros Hchildren.
  induction tokens as [|token rest IH]; intros curNode depth c node' c' Hall Hne
    Hdepth; [done|].
  cbn [addSeqLoop].
  destruct ((depth >=? maxNodeDepth cfg) || (depth >=? tokenCount)) eqn:Hleaf.
  - destruct (liveIDs _ _) as [[newClusterIDs c1]|]; [|discriminate].
    cbn [bind]. intros [= <- <-]. eexists. split; [apply reach_here|].
    cbn [clusterIDs]. apply elem_of_app. right. by apply list_elem_of_singleton.
  - apply orb_false_iff in Hleaf as [_ Hcount].
    pose proof (fanOK_next cfg curNode token (allNodes_here _ _ Hall)) as Hnext.
    destruct (nextNode cfg curNode token) as [[key child]|] eqn:Hnode;
      [|destruct Hnext].
    destruct (addSeqLoop _ _ _ child _ _ _) as [[child' c1]|] eqn:Hloop;
      [|discriminate].
    cbn [bind]. intros [= <- <-].
    apply IH in Hloop as (m & Hreach & Hin).
    + exists m. split; [|done].
      eapply reach_child; [|exact Hreach]. cbn [keyToChildNode].
      by rewrite lookup_insert_eq.
    + apply nextNode_child in Hnode as [-> | Hchild].
      * by apply allNodes_createNode, fanOK_new.
      * by eapply allNodes_child.
    + unfold len in *. destruct rest; [|done]. simpl in Hdepth. lia.
    + unfold len in *. simpl length in Hdepth. lia.
Qed.

(** The insertion puts the id of the cluster into a node below the root. *)
Lemma addSeqToPrefixTree_holds cfg root cl c root' c' :
  1 <= MaxChildren cfg ->
  treeInv (fun _ => fanOK cfg) root ->
  1 <= len (logTemplateTokens cl) ->
  addSeqToPrefixTree cfg root cl c = Ok (root', c') ->
  exists first m,
    keyToChildNode root' !! strconv.Itoa (len (logTemplateTokens cl))
      = Some first /\
    reach first m /\ id cl ∈ clusterIDs m.
Proof.
  intros Hchildren Htree Hlen. unfold addSeqToPrefixTree.
  assert ((len (logTemplateTokens cl) =? 0) = false) as -> by lia.
  destruct (addSeqLoop _ _ _ _ _ _ _) as [[first c1]|] eqn:Hloop;
    [|discriminate].
  cbn [bind]. intros [= <- <-].
  apply addSeqLoop_holds in Hloop as (m & Hreach & Hin); [|exact Hchildren| | |].
  - exists first, m. cbn [keyToChildNode]. rewrite lookup_insert_eq.
    split; [reflexivity|]. split; assumption.
  - destruct (keyToChildNode root !! _) as [n|] eqn:Hn.
    + by destruct (Htree _ _ Hn) as (? & _ & _ & ?).
    + by apply allNodes_createNode, fanOK_new.
  - unfold len in *. destruct (logTemplateTokens cl); [simpl in Hlen; lia | done].
  - lia.
Qed.

(** C7. After a cluster has been evicted, a train call whose tree path still
    holds its id neither crashes nor brings it back: the call returns, the
    cluster it returns is another one, and the evicted id stays out of the
    store, also after any further train calls.  Scoring skips the id (the
    loop goes on as if the id were not in the list).  When the call creates
    a cluster, its id is put into a leaf of the tree, under the root child
    of the token count of the line, and every leaf that holds the new id
    holds live ids only, so not the evicted one. *)
Theorem stale_ids_harmless (cfg : Config) (lines : list string) (d : Drain)
    (k : Z) (line : string) :
  1 <= MaxChildren cfg ->
  0 <= MaxClusters cfg ->
  len lines < MaxInt ->
  trained cfg lines = Ok d ->
  1 <= k <= clustersCounter d ->
  peek (idToCluster d) k = None ->
  (exists d' cl o,
     LogStep d line = Ok (d', cl, o) /\
     id cl <> k /\
     peek (idToCluster d') k = None /\
     (o = Created ->
      (exists first m,
         keyToChildNode (rootNode d')
           !! strconv.Itoa (len (getContentAsTokens (config d) line))
           = Some first /\
         reach first m /\
         id cl ∈ clusterIDs m) /\
      forall key first m,
        keyToChildNode (rootNode d') !! key = Some first ->
        reach first m ->
        id cl ∈ clusterIDs m ->
        (k ∉ clusterIDs m) /\
        Forall (fun i => is_Some (peek (idToCluster d') i)) (clusterIDs m))) /\
  (forall rest tokens includeParams maxSim maxParamCount maxCluster,
     fastMatchLoop (config d) (k :: rest) tokens includeParams maxSim
                   maxParamCount maxCluster (idToCluster d) =
     fastMatchLoop (config d) rest tokens includeParams maxSim
                   maxParamCount maxCluster (idToCluster d)) /\
  (forall more d'',
     len lines + len more <= MaxInt ->
     LogAll d more = Ok d'' ->
     peek (idToCluster d'') k = None).
Proof.
  intros Hchildren Hclusters Hlen Htrain Hk Hdead.
  destruct (trained_Ok _ _ _ Htrain) as (d0 & [Hdepth _]%New_Ok & _).
  destruct (trained_total cfg lines Hdepth Hchildren Hclusters) as
    (d2 & Htrain2 & HInv & Hcache); [lia|].
  rewrite Htrain in Htrain2. injection Htrain2 as <-.
  destruct (trained_inv cfg lines d) as (HInvT & Hcfg & Hc); [lia | done |].
  split; [|split].
  - pose proof (LogStep_safe (fun _ => False) (configured cfg)
                  (fanOK (configured cfg)) (fanOK_new _ Hchildren)
                  (fanOK_ids _) (fanOK_next _) d line Hcfg HInv) as Hstep.
    apply safe_total in Hstep as ([[d' cl] o] & Hstep & HInv' & Hrel);
      [|lia | done].
    exists d', cl, o. split; [done|].
    destruct (stepRel_fate _ _ _ _ _ k Hrel Hk) as [Hfate Hne].
    rewrite Hdead in Hfate. cbn [fate] in Hfate.
    split; [by apply Hne|]. split; [done|].
    intros ->.
    destruct (LogStep_created _ _ _ _ Hstep) as (c2 & Hc2 & Hadd).
    destruct Hrel as (_ & _ & _ & Hcl & _ & Heq & _).
    assert (1 <= len (logTemplateTokens cl)) as Htokens.
    { rewrite Heq. cbn [logTemplateTokens].
      pose proof (getContentAsTokens_nonempty (configured cfg) line) as Hne'.
      unfold len. destruct (getContentAsTokens _ line); [done | simpl; lia]. }
    split.
    + destruct HInv as (_ & _ & Hfan). rewrite Hcfg in Hadd |- *.
      eapply addSeqToPrefixTree_holds in Hadd as (first & m & Hfirst & Hm);
        [|done| |done].
      * exists first, m. split; [|done].
        rewrite <- Hfirst. by rewrite Heq.
      * eapply treeInv_impl; [|exact Hfan]. by intros ? ? [_ ?].
    + intros key first m Hfirst Hreach Hin.
      destruct HInvT as (_ & _ & Htree).
      assert (Forall (fun i => is_Some (peek (idToCluster d') i)) (clusterIDs m))
        as Hlive.
      { eapply (addSeq_prunes _ _ _ _ _ cl c2); eauto.
        rewrite Heq. cbn [id]. lia. }
      split; [|done].
      intros Hkin. apply (proj1 (Forall_forall _ _) Hlive) in Hkin.
      rewrite Hfate in Hkin. by destruct Hkin.
  - intros rest tokens includeParams maxSim maxParamCount maxCluster.
    cbn [fastMatchLoop]. rewrite Get_miss by done. done.
  - intros more d'' Hmore Hrun.
    pose proof (LogAll_fate (configured cfg) d more d'' k Hcfg HInvT) as Hfate.
    rewrite Hdead in Hfate. apply Hfate; [lia | done | done].
Qed.

(** Scenario S7: a store of two clusters and three lines of distinct shapes;
    cluster 1 has been evicted, its id is still in the leaf that a fourth
    line of the first shape reaches.  The call creates cluster 4, which is
    put into a leaf that no longer holds the id 1. *)
Lemma stale_ids_harmless_witness :
  exists d,
    trained twoClusters ["a b c d"; "x y"; "p q r"] = Ok d /\
    peek (idToCluster d) 1 = None /\
    (exists first m,
       keyToChildNode (rootNode d) !! "4" = Some first /\
       keyToChildNode first !! "a" = Some m /\
       clusterIDs m = [1]) /\
    exists d' cl,
      LogStep d "a b c d" = Ok (d', cl, Created) /\
      id cl = 4 /\
      peek (idToCluster d') 1 = None /\
      exists first m,
        keyToChildNode (rootNode d') !! "4" = Some first /\
        reach first m /\
        id cl ∈ clusterIDs m /\
        1 ∉ clusterIDs m.
Proof.
  eexists. split; [vm_compute; reflexivity|].
  split; [vm_compute; reflexivity|].
  split; [eexists; eexists; repeat split; vm_compute; reflexivity|].
  match goal with
  | |- exists d' cl, LogStep ?D _ = _ /\ _ =>
      edestruct (stale_ids_harmless twoClusters ["a b c d"; "x y"; "p q r"]
                   D 1 "a b c d")
        as [(d' & cl & o & H1 & H2 & H3 & H4) _]
  end.
  - simpl. lia.
  - simpl. lia.
  - unfold len, MaxInt. simpl. lia.
  - vm_compute; reflexivity.
  - simpl. lia.
  - vm_compute; reflexivity.
  - assert (o = Created /\ id cl = 4) as [-> Hid].
    { vm_compute in H1. injection H1 as _ <- <-. by split. }
    destruct (H4 eq_refl) as [(first & m & Hfirst & Hreach & Hin) Hpruned].
    exists d', cl. split; [exact H1|]. split; [exact Hid|].
    split; [exact H3|]. exists first, m.
    split; [exact Hfirst|]. split; [exact Hreach|]. split; [exact Hin|].
    exact (proj1 (Hpruned _ first m Hfirst Hreach Hin)).
Defined.

(** ** The order of the similarities *)

Ltac sf_cases :=
  unfold SFltb, SFleb, SFeqb, SFcompare;
  repeat match goal with
         | x : spec_float |- _ => destruct x as [[|]|[|]| |[|] ? ?]
         end;
  try discriminate; try reflexivity;
  repeat match goal with
         | |- context [Z.compare ?x ?y] =>
             destruct (Z.compare_spec x y); subst
         | |- context [PosDef.Pos.compare_cont Eq ?x ?y] =>
             change (PosDef.Pos.compare_cont Eq x y) with (Pos.compare x y);
             destruct (Pos.compare_spec x y); subst
         end;
  cbn; intros; try discriminate; try reflexivity; try lia.

Ltac to_spec :=
  rewrite ?FloatAxioms.ltb_spec, ?FloatAxioms.leb_spec, ?FloatAxioms.eqb_spec;
  repeat match goal with
         | |- context [Prim2SF ?x] => generalize (Prim2SF x); intro
         end.

Lemma float_ltb_irrefl (a : float) : PrimFloat.ltb a a = false.
Proof. to_spec. sf_cases. Qed.

Lemma float_ltb_number (a b : float) :
  PrimFloat.ltb a b = true -> PrimFloat.eqb b b = true.
Proof. to_spec. sf_cases. Qed.

Lemma float_eqb_number (a b : float) :
  PrimFloat.eqb a b = true -> PrimFloat.eqb a a = true.
Proof. to_spec. sf_cases. Qed.

Lemma float_eqb_trans (a b c : float) :
  PrimFloat.eqb a b = true -> PrimFloat.eqb b c = true ->
  PrimFloat.eqb a c = true.
Proof. to_spec. sf_cases. Qed.

Lemma float_ltb_not_ltb (a b c : float) :
  PrimFloat.ltb a b = true -> PrimFloat.ltb a c = false ->
  PrimFloat.ltb b c = false.
Proof. to_spec. sf_cases. Qed.

Lemma float_ltb_not_eqb (a b c : float) :
  PrimFloat.ltb a b = true -> PrimFloat.ltb a c = false ->
  PrimFloat.eqb c b = false.
Proof. to_spec. sf_cases. Qed.

Lemma float_eqb_not_ltb (a b c : float) :
  PrimFloat.eqb b a = true -> PrimFloat.ltb a c = false ->
  PrimFloat.ltb b c = false.
Proof. to_spec. sf_cases. Qed.

Lemma float_not_leb_not_ltb (t a c : float) :
  PrimFloat.eqb a a = true -> PrimFloat.leb t a = false ->
  PrimFloat.ltb a c = false ->
  PrimFloat.leb t c = false.
Proof. to_spec. sf_cases. Qed.

Lemma float_ltb_leb_ltb (a t c : float) :
  PrimFloat.ltb a t = true -> PrimFloat.leb t c = true ->
  PrimFloat.ltb a c = true.
Proof. to_spec. sf_cases. Qed.

(** ** Matching *)

Lemma trained_cache cfg lines d :
  0 <= MaxClusters cfg ->
  len lines <= MaxInt ->
  trained cfg lines = Ok d ->
  cache (idToCluster d) <> None.
Proof.
  intros Hclusters Hlen (d0 & Hnew & Hrun)%trained_Ok.
  pose proof (New_Inv (fun _ => True) cfg d0 Hnew) as HInv0.
  apply New_Ok in Hnew as [_ ->].
  pose proof (LogAll_safe (fun _ => True) (configured cfg) (fun _ => True)
                I (fun _ _ _ => I)) as Hsafe.
  eapply safe_Ok in Hrun; [|apply Hsafe; try done].
  - destruct Hrun as (_ & _ & _ & Hnil). intros Hc.
    by apply Hnil, createLogClusterCache_cache in Hc.
  - intros nd token _. by destruct (nextNode _ nd token) as [[? ?]|].
Qed.

Lemma Get_Ok k c v c' :
  Get k c = Ok (v, c') -> v = peek c k /\ reordered c c'.
Proof.
  intros H. pose proof (Get_safe (fun _ => True) k c (fun _ => I)) as Hs.
  by rewrite H in Hs.
Qed.

(** The candidates of a list with one more id. *)
Lemma candidate_snoc cfg pk tokens includeParams seen k j cl s p :
  candidate cfg pk tokens includeParams (seen ++ [k])%list j cl s p ->
  candidate cfg pk tokens includeParams seen j cl s p \/
  (j = length seen /\ pk k = Some cl /\
   getSeqDistance cfg (logTemplateTokens cl) tokens includeParams = Ok (s, p)).
Proof.
  intros (k' & Hk' & Hcl & Hdist).
  apply lookup_app_Some in Hk' as [Hk' | [Hlen Hk']].
  - left. by exists k'.
  - right. destruct (j - length seen)%nat as [|n] eqn:Hj; [|done].
    injection Hk' as <-. split; [lia | done].
Qed.

(** An id that does not replace the maximum. *)
Lemma bestSoFar_skip cfg pk tokens includeParams seen k maxSim maxParamCount
    maxCluster :
  bestSoFar cfg pk tokens includeParams seen maxSim maxParamCount maxCluster ->
  (forall cl s p,
     pk k = Some cl ->
     getSeqDistance cfg (logTemplateTokens cl) tokens includeParams = Ok (s, p) ->
     PrimFloat.ltb maxSim s = false /\
     (PrimFloat.eqb s maxSim = true -> p <= maxParamCount)) ->
  bestSoFar cfg pk tokens includeParams (seen ++ [k])%list maxSim maxParamCount
            maxCluster.
Proof.
  intros (Hnum & Hmax & Hcl) Hk. split; [done|]. split.
  - intros j cl2 s2 p2 [Hold | (_ & Hcl2 & Hd2)]%candidate_snoc;
      [exact (Hmax _ _ _ _ Hold) | exact (Hk _ _ _ Hcl2 Hd2)].
  - destruct maxCluster as [[k0 cl0]|]; [|done].
    destruct Hcl as (i & Hi & Hcl0 & Hd0 & Hfirst).
    exists i. split; [by apply lookup_app_l_Some|]. repeat (split; [done|]).
    intros j cl2 s2 p2 [Hold | (-> & _)]%candidate_snoc Hj;
      [exact (Hfirst _ _ _ _ Hold Hj)|].
    apply lookup_lt_Some in Hi. lia.
Qed.

(** An id that replaces the maximum. *)
Lemma bestSoFar_take cfg pk tokens includeParams seen k cl curSim paramCount
    maxSim maxParamCount maxCluster :
  bestSoFar cfg pk tokens includeParams seen maxSim maxParamCount maxCluster ->
  pk k = Some cl ->
  getSeqDistance cfg (logTemplateTokens cl) tokens includeParams
    = Ok (curSim, paramCount) ->
  PrimFloat.ltb maxSim curSim = true \/
  (PrimFloat.eqb curSim maxSim = true /\ maxParamCount < paramCount) ->
  bestSoFar cfg pk tokens includeParams (seen ++ [k])%list curSim paramCount
            (Some (k, cl)).
Proof.
  intros (Hnum & Hmax & _) Hpeek Hdist Hbetter.
  assert (forall j cl2 s2 p2,
            candidate cfg pk tokens includeParams seen j cl2 s2 p2 ->
            PrimFloat.ltb curSim s2 = false /\
            (PrimFloat.eqb s2 curSim = true -> p2 < paramCount)) as Hold.
  { intros j cl2 s2 p2 Hc. destruct (Hmax _ _ _ _ Hc) as [Hle Hp].
    destruct Hbetter as [Hlt | [Heq Hmore]].
    - split; [by eapply float_ltb_not_ltb|].
      by rewrite (float_ltb_not_eqb _ _ _ Hlt Hle).
    - split; [by eapply float_eqb_not_ltb|].
      intros Hs. pose proof (float_eqb_trans _ _ _ Hs Heq) as Hs'.
      apply Hp in Hs'. lia. }
  split; [|split].
  - destruct Hbetter as [Hlt | [Heq _]];
      [by eapply float_ltb_number | by eapply float_eqb_number].
  - intros j cl2 s2 p2 [Hc | (_ & Hcl2 & Hd2)]%candidate_snoc.
    + destruct (Hold _ _ _ _ Hc) as [? Hp]. split; [done|].
      intros Hs. apply Hp in Hs. lia.
    + rewrite Hpeek in Hcl2. injection Hcl2 as <-.
      rewrite Hdist in Hd2. injection Hd2 as <- <-.
      split; [apply float_ltb_irrefl | lia].
  - exists (length seen). split; [by rewrite lookup_app_r, Nat.sub_diag|].
    split; [done|]. split; [done|].
    intros j cl2 s2 p2 [Hc | (-> & _)]%candidate_snoc Hj; [|lia].
    exact (proj2 (Hold _ _ _ _ Hc)).
Qed.

(** The scoring loop keeps the best candidate of the ids it has seen. *)
Lemma fastMatchLoop_best cfg tokens includeParams pk ids :
  forall seen maxSim maxParamCount maxCluster c maxSim' maxCluster' c',
    (forall k, peek c k = pk k) ->
    bestSoFar cfg pk tokens includeParams seen maxSim maxParamCount maxCluster ->
    fastMatchLoop cfg ids tokens includeParams maxSim maxParamCount maxCluster c
      = Ok (maxSim', maxCluster', c') ->
    exists maxParamCount',
      bestSoFar cfg pk tokens includeParams (seen ++ ids)%list maxSim'
                maxParamCount' maxCluster'.
Proof.
  induction ids as [|k rest IH];
    intros seen maxSim maxParamCount maxCluster c maxSim' maxCluster' c' Hpk
      Hbest; cbn [fastMatchLoop].
  - intros [= <- <- <-]. rewrite app_nil_r. eauto.
  - replace (seen ++ k :: rest)%list with ((seen ++ [k]) ++ rest)%list
      by (by rewrite <- app_assoc).
    destruct (Get k c) as [[v c1]|] eqn:Hget; [|discriminate]. cbn [bind].
    apply Get_Ok in Hget as [-> (_ & _ & Hp1 & _)].
    assert (forall k0, peek c1 k0 = pk k0) as Hpk1
      by (intros k0; by rewrite Hp1).
    destruct (peek c k) as [cl|] eqn:Hpeek.
    + destruct (getSeqDistance _ _ _ _) as [[curSim paramCount]|] eqn:Hdist;
        [|discriminate].
      cbn [bind]. rewrite Hpk in Hpeek.
      destruct (PrimFloat.ltb maxSim curSim) eqn:Hlt; cbn [orb].
      { apply IH; [done|]. eapply bestSoFar_take; eauto. }
      destruct (PrimFloat.eqb curSim maxSim) eqn:Heq; cbn [andb].
      * destruct (Z.ltb_spec maxParamCount paramCount) as [Hmore | Hless].
        -- apply IH; [done|]. eapply bestSoFar_take; eauto.
        -- apply IH; [done|]. apply bestSoFar_skip; [done|].
           intros cl2 s p Hcl2 Hd2.
           rewrite Hpeek in Hcl2. injection Hcl2 as <-.
           rewrite Hdist in Hd2. injection Hd2 as <- <-. split; [done | lia].
      * apply IH; [done|]. apply bestSoFar_skip; [done|].
        intros cl2 s p Hcl2 Hd2.
        rewrite Hpeek in Hcl2. injection Hcl2 as <-.
        rewrite Hdist in Hd2. injection Hd2 as <- <-.
        split; [done|]. by rewrite Heq.
    + apply IH; [done|]. apply bestSoFar_skip; [done|].
      intros cl2 s p Hcl2. rewrite <- Hpk, Hpeek in Hcl2. done.
Qed.

(** [fastMatch] returns the best candidate of its id list, or none. *)
Lemma fastMatch_best cfg ids tokens simTh includeParams c p c' :
  fastMatch cfg ids tokens simTh includeParams c = Ok (p, c') ->
  best cfg (peek c) tokens includeParams ids simTh (snd <$> p).
Proof.
  unfold fastMatch.
  destruct (fastMatchLoop _ _ _ _ _ _ _ _) as [[[maxSim q] c1]|] eqn:Hloop;
    [|discriminate].
  cbn [bind]. intros [= <- <-].
  eapply (fastMatchLoop_best _ _ _ (peek c) ids []) in Hloop
    as (n & Hnum & Hmax & Hcl); [|done|].
  2:{ split; [reflexivity|]. split; [|done].
      intros j cl2 s2 p2 (k & Hk & _). by rewrite lookup_nil in Hk. }
  rewrite app_nil_l in *.
  assert (forall j cl2 s2 p2,
            PrimFloat.leb simTh maxSim = false ->
            candidate cfg (peek c) tokens includeParams ids j cl2 s2 p2 ->
            PrimFloat.ltb (-1) s2 && PrimFloat.leb simTh s2 = false /\
            (PrimFloat.ltb (-1) simTh = true ->
             PrimFloat.leb simTh s2 = false)) as Hnone.
  { intros j cl2 s2 p2 Hth Hc. destruct (Hmax _ _ _ _ Hc) as [Hle _].
    rewrite (float_not_leb_not_ltb _ _ _ Hnum Hth Hle).
    split; [apply andb_false_r | done]. }
  destruct (PrimFloat.leb simTh maxSim) eqn:Hth.
  - destruct q as [[k cl]|]; cbn [fmap option_fmap option_map snd best].
    + destruct Hcl as (i & Hi & Hk & Hdist & Hfirst).
      exists i, maxSim, n. split; [by exists k|]. split; [done|].
      intros j cl2 s2 p2 Hc. destruct (Hmax _ _ _ _ Hc) as [Hle Hp].
      split; [done|]. intros Hs. split; [by apply Hp|].
      intros ->. destruct (decide (i <= j)%nat) as [|Hj]; [done|].
      pose proof (Hfirst _ _ _ _ Hc ltac:(lia) Hs). lia.
    + destruct Hcl as [-> ->].
      intros j cl2 s2 p2 Hc. destruct (Hmax _ _ _ _ Hc) as [Hle _].
      rewrite Hle. split; [done|]. intros Hlow.
      destruct (PrimFloat.leb simTh s2) eqn:Hs2; [|done].
      by rewrite (float_ltb_leb_ltb _ _ _ Hlow Hs2) in Hle.
  - cbn [fmap option_fmap option_map best]. intros j cl2 s2 p2 Hc.
    exact (Hnone _ _ _ _ eq_refl Hc).
Qed.

(** C4. A match on a trained miner tokenizes the line, searches the tree
    with [include_params = true] and returns the best cluster or none: when
    the search reaches no leaf it returns none, and otherwise it returns the
    best candidate of the leaf, scored with the wildcards counted.  The
    cluster returned has a similarity of at least [SimTh], no stored
    cluster of the leaf has a greater one, none of the same similarity has
    more wildcards, and none of the same similarity and wildcard count
    stands before it in the leaf; none is returned only when no stored
    cluster of the leaf reaches [SimTh].  The match merges no template and
    changes no size: the configuration, the tree, the counter and every
    stored cluster are as before; what the search inside may change is the
    recency order of the store.  The cluster returned is a stored one, with
    as many template tokens as the line has tokens. *)
Theorem Match_best_and_frame (cfg : Config) (lines : list string) (d : Drain)
    (content : string) :
  0 <= MaxClusters cfg ->
  len lines <= MaxInt ->
  trained cfg lines = Ok d ->
  exists r d',
    Match d content = Ok (r, d') /\
    config d' = config d /\
    rootNode d' = rootNode d /\
    clustersCounter d' = clustersCounter d /\
    capacity (idToCluster d') = capacity (idToCluster d) /\
    (forall k, peek (idToCluster d') k = peek (idToCluster d) k) /\
    recency (idToCluster d') ≡ₚ recency (idToCluster d) /\
    (forall cl, r = Some cl ->
       peek (idToCluster d) (id cl) = Some cl /\
       len (logTemplateTokens cl) = len (getContentAsTokens (config d) content)) /\
    match searchLeaf d (getContentAsTokens (config d) content) with
    | Some leaf =>
      best (config d) (peek (idToCluster d))
           (getContentAsTokens (config d) content) true (clusterIDs leaf)
           (SimTh cfg) r
    | None => r = None
    end.
Proof.
  intros Hclusters Hlen Htrain.
  pose proof (trained_cache cfg lines d Hclusters Hlen Htrain) as Hcache.
  destruct (trained_inv cfg lines d Hlen Htrain)
    as ((_ & Hstore & Htree) & Hcfg & _).
  unfold Match.
  pose proof (getContentAsTokens_nonempty (config d) content) as Hne.
  pose proof (treeSearch_safe (fun _ => False) (fun _ => True) d
                (clustersCounter d) (getContentAsTokens (config d) content)
                (SimTh (config d)) true) as Hsearch.
  apply safe_total in Hsearch
    as ([p d'] & Hrun & Hp & c' & -> & _ & Hcap & Hpk & Hrec);
    [|done | done | done].
  rewrite Hrun. cbn [bind]. eexists. eexists. split; [reflexivity|].
  cbn [config rootNode clustersCounter idToCluster withCache].
  repeat (split; [done|]). split.
  - intros cl Hr. destruct p as [[key cl0]|]; [|done].
    injection Hr as ->. destruct (Hp key cl eq_refl) as [Hkey Hl].
    destruct Hstore as (_ & _ & Hent).
    destruct (Hent key cl Hkey) as (_ & -> & _). done.
  - revert Hrun. unfold treeSearch, searchLeaf.
    destruct (keyToChildNode (rootNode d) !! _) as [curNode|];
      [|by intros [= <- _]].
    assert ((len (getContentAsTokens (config d) content) =? 0) = false) as ->.
    { apply Z.eqb_neq. unfold len.
      destruct (getContentAsTokens _ _); [done | simpl; lia]. }
    destruct (descend _ _ _ _ _) as [leaf|]; [|by intros [= <- _]].
    destruct (fastMatch _ _ _ _ _ _) as [[q c1]|] eqn:Hfm; [|discriminate].
    cbn [bind]. intros [= <- _].
    apply fastMatch_best in Hfm. by rewrite Hcfg in Hfm |- *.
Qed.

(** On a miner whose first cluster has the template [a b <*> <*> <*>], the
    line [a x y z w] reaches the leaf of that cluster; the match returns
    it, and leaves the miner as it is. *)
Lemma Match_best_and_frame_witness :
  exists d,
    trained DefaultConfig generalized = Ok d /\
    exists d',
      Match d "a x y z w"
        = Ok (Some (mkLogCluster ["a"; "b"; "<*>"; "<*>"; "<*>"] 1 2), d') /\
      rootNode d' = rootNode d /\
      clustersCounter d' = clustersCounter d /\
      (forall k, peek (idToCluster d') k = peek (idToCluster d) k) /\
      match searchLeaf d (getContentAsTokens (config d) "a x y z w") with
      | Some leaf =>
        best (config d) (peek (idToCluster d))
             (getContentAsTokens (config d) "a x y z w") true (clusterIDs leaf)
             (SimTh DefaultConfig)
             (Some (mkLogCluster ["a"; "b"; "<*>"; "<*>"; "<*>"] 1 2))
      | None => False
      end.
Proof.
  eexists. split; [vm_compute; reflexivity|].
  match goal with
  | |- exists d', Match ?D _ = _ /\ _ =>
      edestruct (Match_best_and_frame DefaultConfig generalized D "a x y z w")
        as (r & d' & Hm & _ & Hroot & Hc & _ & Hpk & _ & _ & Hbest)
  end.
  - simpl. lia.
  - unfold len, MaxInt. simpl. lia.
  - vm_compute; reflexivity.
  - assert (r = Some (mkLogCluster ["a"; "b"; "<*>"; "<*>"; "<*>"] 1 2)) as ->.
    { vm_compute in Hm. by injection Hm as <- _. }
    exists d'. split; [exact Hm|]. split; [exact Hroot|].
    split; [exact Hc|]. split; [exact Hpk|].
    destruct (searchLeaf _ _); [exact Hbest | discriminate Hbest].
Defined.

(** Scenarios S2 and S3 on the miner of S1: a line of the shape of cluster 3
    matches it, whose size stays 2; an unrelated line matches nothing. *)
Example Match_S2_S3 :
  (do d <- trained DefaultConfig S1;
   do '(r, _) <- Match d "user faceair logged in"; Ok r) =
    Ok (Some (mkLogCluster ["user"; "<*>"; "logged"; "in"] 3 2)) /\
  (do d <- trained DefaultConfig S1;
   do '(r, _) <- Match d "totally unrelated phrase here"; Ok r) = Ok None.
Proof. split; vm_compute; reflexivity. Qed.

(** The wildcards count in a match and not in a train call: the line
    [a x y z w] has one token of the template [a b <*> <*> <*>], a
    similarity of 1/5 for the search of [Log], which finds nothing, and of
    4/5 for [Match], which finds the cluster. *)
Example Match_counts_wildcards :
  (do d <- trained DefaultConfig generalized;
   do '(p, _) <- treeSearch d (rootNode d)
                   (getContentAsTokens (config d) "a x y z w")
                   (SimTh (config d)) false;
   Ok (snd <$> p)) = Ok None /\
  (do d <- trained DefaultConfig generalized;
   do '(r, _) <- Match d "a x y z w"; Ok r) =
    Ok (Some (mkLogCluster ["a"; "b"; "<*>"; "<*>"; "<*>"] 1 2)).
Proof. split; vm_compute; reflexivity. Qed.


(** * Further properties of the code *)

(** ** Panics *)

(** X1. With a tree depth of at least 3, room for at least one child per
    node and a non-negative store size, no [Log] call of a sequence of at
    most [MaxInt] lines panics, and [Clusters] returns afterwards. *)
Theorem Log_never_panics (cfg : Config) (lines : list string) :
  3 <= LogClusterDepth cfg ->
  1 <= MaxChildren cfg ->
  0 <= MaxClusters cfg ->
  len lines <= MaxInt ->
  exists d cs, trained cfg lines = Ok d /\ Clusters d = Ok cs.
Proof.
  intros Hdepth Hchildren Hclusters Hlen.
  destruct (trained_total cfg lines Hdepth Hchildren Hclusters Hlen)
    as (d & Hd & _ & Hcache).
  exists d. unfold Clusters, Values.
  destruct (cache (idToCluster d)) as [l|]; [eauto | done].
Qed.

Lemma Log_never_panics_witness :
  exists d cs, trained DefaultConfig S1 = Ok d /\ Clusters d = Ok cs.
Proof.
  apply (Log_never_panics DefaultConfig S1).
  - simpl. lia.
  - simpl. lia.
  - simpl. lia.
  - unfold len, MaxInt. simpl. lia.
Defined.

Lemma createNode_lookup key : keyToChildNode createNode !! key = None.
Proof. apply lookup_empty. Qed.

Lemma createNode_lenMap : lenMap (keyToChildNode createNode) = 0.
Proof. unfold lenMap. cbn [keyToChildNode createNode]. by rewrite map_size_empty. Qed.

(** [Log] on a miner that has no cluster yet reaches the insertion. *)
Lemma LogStep_fresh cfg c line :
  LogStep (mkDrain cfg createNode c 0) line =
  (let tokens := getContentAsTokens cfg line in
   let cl := mkLogCluster tokens 1 1 in
   do c <- Set_ 1 cl c;
   do '(root, c) <- addSeqToPrefixTree cfg createNode cl c;
   Ok (mkDrain cfg root c 1, cl, Created)).
Proof.
  unfold LogStep, treeSearch. cbn [config rootNode].
  rewrite createNode_lookup. cbn [bind idToCluster clustersCounter].
  rewrite wrap_small by lia. reflexivity.
Qed.

(** X2. A negative [MaxClusters] passes [New], but the store it makes is
    nil: the first [Log] call and [Clusters] panic with a nil dereference. *)
Theorem negative_MaxClusters_panics (cfg : Config) (line : string) :
  3 <= LogClusterDepth cfg ->
  MaxClusters cfg < 0 ->
  exists d,
    New cfg = Ok d /\
    Log d line = Panic NilDereference /\
    Clusters d = Panic NilDereference.
Proof.
  intros Hdepth Hneg. destruct (New_total cfg Hdepth) as [d Hnew].
  exists d. split; [done|].
  apply New_Ok in Hnew as [_ ->].
  assert (cache (createLogClusterCache (MaxClusters cfg)) = None) as Hnil.
  { unfold createLogClusterCache, simplelru.NewLRU. cbn [cache].
    destruct (Z.eqb_spec (MaxClusters cfg) 0); [lia|].
    destruct (Z.leb_spec (MaxClusters cfg) 0); [done | lia]. }
  split.
  - unfold Log. rewrite LogStep_fresh. cbn zeta. unfold Set_.
    by rewrite Hnil.
  - unfold Clusters, Values. cbn [idToCluster]. by rewrite Hnil.
Qed.

Lemma negative_MaxClusters_panics_witness :
  exists d,
    New (mkConfig 0 4 (SimTh DefaultConfig) 100 [] (-1) "<*>") = Ok d /\
    Log d "a b c" = Panic NilDereference /\
    Clusters d = Panic NilDereference.
Proof.
  apply (negative_MaxClusters_panics
           (mkConfig 0 4 (SimTh DefaultConfig) 100 [] (-1) "<*>") "a b c").
  - simpl. lia.
  - simpl. lia.
Defined.

(** X3. With [MaxChildren <= 0] and a tree depth of at least 4, the first
    [Log] call panics with a nil dereference whenever the line has at least
    two tokens and its first token has no number: no child may be added for
    the token, and the wildcard child that the loop moves to is nil. *)
Theorem zero_MaxChildren_panics (cfg : Config) (line : string)
    (t1 t2 : string) (rest : list string) :
  4 <= LogClusterDepth cfg ->
  MaxChildren cfg <= 0 ->
  0 <= MaxClusters cfg ->
  getContentAsTokens (configured cfg) line = t1 :: t2 :: rest ->
  hasNumbers t1 = false ->
  exists d, New cfg = Ok d /\ Log d line = Panic NilDereference.
Proof.
  intros Hdepth Hchildren Hclusters Htokens Hnum.
  destruct (New_total cfg) as [d Hnew]; [lia|].
  exists d. split; [done|].
  apply New_Ok in Hnew as [_ ->].
  unfold Log. rewrite LogStep_fresh. cbn zeta. rewrite Htokens.
  pose proof (createLogClusterCache_cache _ Hclusters) as Hcache.
  unfold Set_. destruct (cache (createLogClusterCache (MaxClusters cfg)))
    as [l|]; [|done].
  cbn [bind]. unfold addSeqToPrefixTree. cbn [logTemplateTokens id].
  rewrite createNode_lookup.
  assert (2 <= len (t1 :: t2 :: rest)) as Hlen
    by (unfold len; simpl length; lia).
  destruct (Z.eqb_spec (len (t1 :: t2 :: rest)) 0); [lia|].
  cbn [addSeqLoop maxNodeDepth configured].
  destruct (Z.geb_spec 1 (LogClusterDepth cfg - 2)); [lia|].
  destruct (Z.geb_spec 1 (len (t1 :: t2 :: rest))); [lia|].
  cbn [orb]. unfold nextNode. cbn [ParamString MaxChildren configured].
  rewrite !createNode_lookup, Hnum, createNode_lenMap. cbn [negb].
  change (0 + 1) with 1.
  destruct (Z.ltb_spec 1 (MaxChildren cfg)); [lia|].
  destruct (Z.eqb_spec 1 (MaxChildren cfg)); [lia|].
  reflexivity.
Qed.

Lemma zero_MaxChildren_panics_witness :
  exists d,
    New (mkConfig 0 4 (SimTh DefaultConfig) 0 [] 0 "<*>") = Ok d /\
    Log d "a b c" = Panic NilDereference.
Proof.
  apply (zero_MaxChildren_panics
           (mkConfig 0 4 (SimTh DefaultConfig) 0 [] 0 "<*>") "a b c"
           "a" "b" ["c"]).
  - simpl. lia.
  - simpl. lia.
  - simpl. lia.
  - vm_compute; reflexivity.
  - vm_compute; reflexivity.
Defined.

(** ** Stepping through a sequence of [Log] calls *)

Lemma Log_LogStep d line d' cl :
  Log d line = Ok (d', cl) -> exists o, LogStep d line = Ok (d', cl, o).
Proof.
  unfold Log. destruct (LogStep d line) as [[[d1 cl1] o]|]; [|done].
  cbn [bind]. intros [= <- <-]. eauto.
Qed.

(** One [Log] call on a miner that satisfies the invariant, without the
    allowance for panics. *)
Lemma LogStep_spec cfg d line d' cl o :
  config d = cfg ->
  Inv (fun _ => True) d ->
  clustersCounter d < MaxInt ->
  LogStep d line = Ok (d', cl, o) ->
  Inv (fun _ => True) d' /\ stepRel d d' (getContentAsTokens cfg line) cl o.
Proof.
  intros Hcfg HInv Hmax Hstep.
  pose proof (LogStep_safe (fun _ => True) cfg (fun _ => True) I
                (fun _ _ _ => I)) as Hs.
  specialize (Hs) with (d := d) (content := line).
  rewrite Hstep in Hs. cbn [safe] in Hs. apply Hs; try done.
  intros nd token _. by destruct (nextNode _ nd token) as [[? ?]|].
Qed.

(** Induction over a sequence of [Log] calls: [Q i] is kept by the call
    number [i + 1]. *)
Lemma LogAll_steps cfg (Q : Z -> Drain -> Prop) :
  (forall i d line d' cl o,
     config d = cfg -> Inv (fun _ => True) d -> Q i d -> 0 <= i < MaxInt ->
     clustersCounter d <= i ->
     LogStep d line = Ok (d', cl, o) ->
     stepRel d d' (getContentAsTokens cfg line) cl o ->
     Q (i + 1) d') ->
  forall lines i d d',
    config d = cfg -> Inv (fun _ => True) d ->
    clustersCounter d <= i -> 0 <= i -> i + len lines <= MaxInt ->
    Q i d ->
    LogAll d lines = Ok d' ->
    Q (i + len lines) d' /\ Inv (fun _ => True) d' /\ config d' = cfg /\
    clustersCounter d' <= i + len lines.
Proof.
  intros Hstep lines. induction lines as [|line rest IH];
    intros i d d' Hcfg HInv Hc Hi Hmax HQ; cbn [LogAll].
  - intros [= <-]. unfold len. simpl. rewrite Z.add_0_r. auto with lia.
  - assert (len (line :: rest) = len rest + 1) as Hlen
      by (unfold len; simpl length; lia).
    assert (0 <= len rest) as Hrest by (unfold len; lia).
    unfold Log.
    destruct (LogStep d line) as [[[d1 cl] o]|] eqn:Hs; [|done].
    cbn [bind]. intros Hrun.
    destruct (LogStep_spec cfg d line d1 cl o Hcfg HInv) as [HInv1 Hrel];
      [lia | done |].
    pose proof Hrel as (Hcfg1 & _ & _ & _ & Ho).
    assert (clustersCounter d1 <= clustersCounter d + 1) as Hc1.
    { destruct o; destruct Ho as [-> _]; lia. }
    destruct (IH (i + 1) d1 d') as (HQ' & HInv' & Hcfg' & Hc');
      [congruence | done | lia | lia | lia | | done |].
    { eapply Hstep; eauto with lia. }
    rewrite Hlen. replace (i + (len rest + 1)) with (i + 1 + len rest) by lia.
    auto.
Qed.

(** The same from [New]. *)
Lemma trained_steps cfg (Q : Z -> Drain -> Prop) lines d :
  (forall i d line d' cl o,
     config d = configured cfg -> Inv (fun _ => True) d -> Q i d ->
     0 <= i < MaxInt -> clustersCounter d <= i ->
     LogStep d line = Ok (d', cl, o) ->
     stepRel d d' (getContentAsTokens (configured cfg) line) cl o ->
     Q (i + 1) d') ->
  (forall d0, New cfg = Ok d0 -> Q 0 d0) ->
  len lines <= MaxInt ->
  trained cfg lines = Ok d ->
  Q (len lines) d.
Proof.
  intros Hstep H0 Hlen (d0 & Hnew & Hrun)%trained_Ok.
  pose proof (New_Inv (fun _ => True) cfg d0 Hnew) as HInv0.
  pose proof (H0 d0 Hnew) as HQ0.
  destruct (New_Ok cfg d0 Hnew) as [_ Heq].
  assert (config d0 = configured cfg) as Hcfg0 by (by rewrite Heq).
  assert (clustersCounter d0 = 0) as Hc0 by (by rewrite Heq).
  destruct (LogAll_steps (configured cfg) Q Hstep lines 0 d0 d Hcfg0 HInv0)
    as [HQ _]; try done; lia.
Qed.

(** ** Sizes *)

Lemma stepRel_sizes B d d' tokens cl o :
  stepRel d d' tokens cl o ->
  0 <= B < MaxInt ->
  sizesWithin B (idToCluster d) ->
  sizesWithin (B + 1) (idToCluster d').
Proof.
  intros (_ & _ & _ & Hcl & Ho) HB Hsz k cl' Hk.
  destruct (decide (k = id cl)) as [->|Hne].
  - rewrite Hcl in Hk. injection Hk as <-. destruct o.
    + destruct Ho as (_ & -> & _). cbn [size]. lia.
    + destruct Ho as (_ & _ & _ & _ & old & Hold & _ & ->). cbn [size].
      destruct (Hsz _ _ Hold) as [? ?].
      rewrite wrap_small by (unfold MaxInt in HB; lia). lia.
  - assert (peek (idToCluster d) k = Some cl') as Hk0.
    { destruct o.
      - destruct Ho as (_ & _ & Hother).
        destruct (Hother k Hne) as [<-|Hnone]; [done | congruence].
      - destruct Ho as (_ & _ & _ & Hother & _). by rewrite <- Hother. }
    destruct (Hsz _ _ Hk0). lia.
Qed.

Lemma trained_sizes cfg lines d :
  len lines <= MaxInt ->
  trained cfg lines = Ok d ->
  sizesWithin (len lines) (idToCluster d).
Proof.
  intros Hlen Htrain.
  apply (trained_steps cfg (fun i d => sizesWithin i (idToCluster d)) lines d);
    try done.
  - intros i d1 line d' cl o _ _ HQ Hi _ _ Hrel.
    by eapply stepRel_sizes.
  - intros d0 [_ ->]%New_Ok k cl. cbn [idToCluster].
    unfold peek, entries, createLogClusterCache, simplelru.NewLRU. cbn [cache].
    by destruct (_ <=? 0).
Qed.

(** X4. The [size] of a stored cluster is at least 1 and at most the number
    of lines trained, so [size++] never wraps. *)
Theorem size_within_calls (cfg : Config) (lines : list string) (d : Drain) :
  len lines <= MaxInt ->
  trained cfg lines = Ok d ->
  forall k cl, peek (idToCluster d) k = Some cl -> 1 <= size cl <= len lines.
Proof. intros Hlen Htrain. by apply (trained_sizes cfg). Qed.

Lemma size_within_calls_witness :
  exists d, trained DefaultConfig S1 = Ok d /\
    forall k cl, peek (idToCluster d) k = Some cl -> 1 <= size cl <= 7.
Proof.
  eexists. split; [vm_compute; reflexivity|].
  apply (size_within_calls DefaultConfig S1).
  - unfold len, MaxInt. simpl. lia.
  - vm_compute; reflexivity.
Defined.

(** ** What [Log] returns *)

Lemma mergeTokens_describes param seq1 seq2 :
  length seq1 = length seq2 ->
  describes param (mergeTokens param seq1 seq2) seq1.
Proof.
  intros Hlen. split; [by rewrite mergeTokens_length|].
  revert seq2 Hlen. induction seq1 as [|t1 r1 IH]; intros [|t2 r2] Hlen i t;
    try done.
  cbn [mergeTokens]. destruct i as [|i]; simpl.
  - intros [= <-]. destruct (String.eqb_spec t1 t2); [subst; by right | by left].
  - apply IH. simpl in Hlen. lia.
Qed.

(** X5. The cluster that [Log] returns is the one stored under its id, and
    its template describes the line: same number of tokens, and every
    template token is the wildcard or the token of the line at that place.
    It is either a new cluster (the next id, size 1, the tokens of the line
    as template) or a cluster that was stored before, with its size
    increased by one and its template merged with the line; in the second
    case the tree is unchanged. *)
Theorem Log_returns_describing_cluster (cfg : Config) (lines : list string)
    (d : Drain) (line : string) (d' : Drain) (cl : LogCluster) :
  len lines < MaxInt ->
  trained cfg lines = Ok d ->
  Log d line = Ok (d', cl) ->
  let tokens := getContentAsTokens (config d) line in
  peek (idToCluster d') (id cl) = Some cl /\
  describes (ParamString cfg) (logTemplateTokens cl) tokens /\
  ((peek (idToCluster d) (id cl) = None /\
    id cl = clustersCounter d + 1 /\
    clustersCounter d' = clustersCounter d + 1 /\
    size cl = 1 /\
    logTemplateTokens cl = tokens) \/
   (exists old,
      peek (idToCluster d) (id cl) = Some old /\
      clustersCounter d' = clustersCounter d /\
      rootNode d' = rootNode d /\
      size cl = size old + 1 /\
      logTemplateTokens cl =
        mergeTokens (ParamString cfg) tokens (logTemplateTokens old))).
Proof.
  intros Hlen Htrain [o Hstep]%Log_LogStep tokens.
  destruct (trained_inv cfg lines d) as (HInv & Hcfg & Hc); [lia | done |].
  destruct (LogStep_spec _ d line d' cl o Hcfg HInv) as [_ Hrel]; [lia | done |].
  unfold tokens. rewrite Hcfg. cbn [ParamString configured].
  destruct Hrel as (_ & _ & _ & Hcl & Ho). rewrite Hcfg in Ho.
  cbn [ParamString configured] in Ho.
  split; [done|]. destruct o.
  - destruct Ho as (Hcnt & -> & _). cbn [id logTemplateTokens size] in *.
    split; [split; [done | intros i t Ht; by right]|]. left.
    split; [|done].
    destruct (peek (idToCluster d) (clustersCounter d + 1)) as [c0|] eqn:Hc0;
      [|done].
    destruct HInv as (_ & (_ & _ & Hent) & _).
    destruct (Hent _ _ Hc0) as [? _]. lia.
  - destruct Ho as (Hcnt & Hroot & _ & _ & old & Hold & Hl & Heq).
    split.
    + rewrite Heq. cbn [logTemplateTokens]. apply mergeTokens_describes.
      unfold len in Hl. lia.
    + right. exists old. split; [done|]. split; [done|]. split; [done|].
      rewrite Heq. cbn [size logTemplateTokens]. split; [|done].
      pose proof (trained_sizes cfg lines d ltac:(lia) Htrain (id cl) old Hold)
        as [? ?].
      apply wrap_small. unfold MaxInt in Hlen. lia.
Qed.

Lemma Log_returns_describing_cluster_witness :
  exists d d' cl,
    trained DefaultConfig S1 = Ok d /\
    Log d "user root logged out" = Ok (d', cl) /\
    peek (idToCluster d') (id cl) = Some cl /\
    describes "<*>" (logTemplateTokens cl)
              (getContentAsTokens (config d) "user root logged out").
Proof.
  eexists. eexists. eexists.
  split; [vm_compute; reflexivity|].
  split; [vm_compute; reflexivity|].
  match goal with
  | |- peek (idToCluster ?D') (id ?CL) = _ /\ describes _ _ (_ (config ?D) _) =>
      edestruct (Log_returns_describing_cluster DefaultConfig S1 D
                   "user root logged out" D' CL) as (H1 & H2 & _)
  end.
  - unfold len, MaxInt. simpl. lia.
  - vm_compute; reflexivity.
  - vm_compute; reflexivity.
  - split; [exact H1 | exact H2].
Defined.

(** ** What stays of a cluster *)

(** X6. As long as a cluster is stored, further train calls keep its id and
    the length of its template, and its size does not decrease. *)
Theorem cluster_keeps_id_and_length (cfg : Config) (lines more : list string)
    (d d' : Drain) (k : Z) (cl cl' : LogCluster) :
  len lines + len more <= MaxInt ->
  trained cfg lines = Ok d ->
  LogAll d more = Ok d' ->
  peek (idToCluster d) k = Some cl ->
  peek (idToCluster d') k = Some cl' ->
  id cl = k /\ id cl' = k /\
  length (logTemplateTokens cl') = length (logTemplateTokens cl) /\
  size cl <= size cl'.
Proof.
  intros Hlen Htrain Hmore Hcl Hcl'.
  assert (0 <= len more) as Hm by (unfold len; lia).
  destruct (trained_inv cfg lines d) as (HInv & Hcfg & Hc); [lia | done |].
  pose proof (trained_sizes cfg lines d ltac:(lia) Htrain) as Hsz.
  pose proof HInv as (_ & (_ & _ & Hent) & _).
  destruct (Hent k cl Hcl) as (Hk & Hid & _).
  set (Q := fun (i : Z) (d1 : Drain) =>
    sizesWithin i (idToCluster d1) /\ k <= clustersCounter d1 /\
    forall cl1, peek (idToCluster d1) k = Some cl1 ->
      length (logTemplateTokens cl1) = length (logTemplateTokens cl) /\
      size cl <= size cl1).
  destruct (LogAll_steps (configured cfg) Q) with
    (lines := more) (i := len lines) (d := d) (d' := d')
    as ((_ & _ & HQ) & HInv' & _); try done; try lia.
  - intros i d1 line d2 cl2 o _ HInv1 (Hsz1 & Hk1 & Hkeep) Hi _ _ Hrel.
    split; [by eapply stepRel_sizes|].
    destruct Hrel as (_ & _ & _ & Hcl2 & Ho). destruct o.
    + destruct Ho as (Hcnt & Heq & Hother). split; [lia|].
      intros cl1 Hcl1. apply Hkeep.
      destruct (Hother k) as [<-|Hnone]; [rewrite Heq; cbn [id]; lia | done |].
      congruence.
    + destruct Ho as (Hcnt & _ & _ & Hother & old & Hold & _ & Heq).
      split; [lia|]. intros cl1 Hcl1.
      destruct (decide (k = id cl2)) as [->|Hne].
      * rewrite Hcl2 in Hcl1. injection Hcl1 as <-.
        destruct (Hkeep old Hold) as [Hl Hs]. rewrite Heq.
        cbn [logTemplateTokens size]. rewrite mergeTokens_length.
        split; [done|]. destruct (Hsz1 _ _ Hold) as [? ?].
        rewrite wrap_small by (unfold MaxInt in Hi; lia). lia.
      * apply Hkeep. by rewrite <- Hother.
  - split; [done|]. split; [lia|]. intros cl1. rewrite Hcl.
    intros [= <-]. split; [done | lia].
  - split; [done|]. destruct HInv' as (_ & (_ & _ & Hent') & _).
    destruct (Hent' k cl' Hcl') as (_ & Hid' & _).
    split; [done|]. by apply HQ.
Qed.

Lemma cluster_keeps_id_and_length_witness :
  exists d d' cl cl',
    trained DefaultConfig ["a b c 1"; "a b c 2"] = Ok d /\
    LogAll d ["a b d 3"; "x y"] = Ok d' /\
    peek (idToCluster d) 1 = Some cl /\
    peek (idToCluster d') 1 = Some cl' /\
    (id cl = 1 /\ id cl' = 1 /\
     length (logTemplateTokens cl') = length (logTemplateTokens cl) /\
     size cl <= size cl').
Proof.
  eexists. eexists. eexists. eexists.
  split; [vm_compute; reflexivity|].
  split; [vm_compute; reflexivity|].
  split; [vm_compute; reflexivity|].
  split; [vm_compute; reflexivity|].
  eapply (cluster_keeps_id_and_length DefaultConfig ["a b c 1"; "a b c 2"]
            ["a b d 3"; "x y"]).
  - unfold len, MaxInt. simpl. lia.
  - vm_compute; reflexivity.
  - vm_compute; reflexivity.
  - vm_compute; reflexivity.
  - vm_compute; reflexivity.
Defined.

(** ** The store during a [Log] call *)

(** The new-cluster branch of [Log] seen from the store: the search
    reorders it, [Set] adds the cluster, the insertion reorders it again. *)
Lemma LogStep_created_store cfg d line d' cl :
  config d = cfg ->
  Inv (fun _ => True) d ->
  LogStep d line = Ok (d', cl, Created) ->
  exists c1 c2,
    reordered (idToCluster d) c1 /\
    Set_ (id cl) cl c1 = Ok c2 /\
    reordered c2 (idToCluster d').
Proof.
  intros Hcfg (Hn & Hstore & Htree). unfold LogStep.
  pose proof (treeSearch_safe (fun _ => True) (fun _ => True) d
                (clustersCounter d) (getContentAsTokens (config d) line)
                (SimTh (config d)) false) as Hsearch.
  destruct (treeSearch _ _ _ _ _) as [[p d1]|]; [|done].
  cbn [safe bind] in *.
  destruct Hsearch as (_ & c1 & -> & Hr1);
    [done | apply getContentAsTokens_nonempty | done |].
  cbn [config rootNode idToCluster clustersCounter withCache].
  destruct p as [p|].
  { destruct (createTemplate _ _ _); [|done]. cbn [bind].
    by destruct (Get _ _) as [[? c3]|]. }
  destruct (Set_ _ _ _) as [c2|] eqn:Hset; [|done]. cbn [bind].
  match goal with
  | |- context [addSeqToPrefixTree ?cf ?r ?cl0 ?c0] =>
      pose proof (addSeqToPrefixTree_safe (fun _ => True) cf
                    (fun _ _ => True) r cl0 c0) as Hadd
  end.
  cbn [logTemplateTokens] in Hadd.
  destruct (addSeqToPrefixTree _ _ _ _) as [[root' c3]|]; [|done].
  cbn [bind safe] in *. intros [= <- <-]. cbn [id idToCluster].
  exists c1, c2. split; [done|]. split; [done|].
  apply Hadd; try done.
  - intros nd token _. by destruct (nextNode _ nd token) as [[? ?]|].
  - pose proof (getContentAsTokens_nonempty (config d) line) as Hne.
    unfold len. destruct (getContentAsTokens _ line); [done | simpl; lia].
  - eapply treeInv_impl; [|exact Htree]. done.
Qed.

(** [Set] of a key that is not stored: the key goes to the front, and the
    oldest key leaves when the store is full. *)
Lemma Set_fresh k cl c c' :
  Set_ k cl c = Ok c' ->
  peek c k = None ->
  0 < capacity c ->
  capacity c' = capacity c /\
  if decide (len (recency c) < capacity c)
  then recency c' = k :: recency c /\
       forall k', peek c' k' = if decide (k' = k) then Some cl else peek c k'
  else recency c' = removelast (k :: recency c).
Proof.
  unfold Set_, peek, recency, capacity, entries.
  destruct (cache c) as [l|]; [|done]. intros [= <-] Hfresh Hpos.
  cbn [cache]. unfold simplelru.Add. rewrite Hfresh. unfold len.
  cbn [length map]. rewrite length_map.
  destruct (Z.gtb_spec (Z.of_nat (S (length (simplelru.evictList l))))
              (simplelru.size l)) as [Hgt|Hle];
    cbn [simplelru.size simplelru.evictList].
  - split; [done|]. rewrite decide_False by lia.
    by rewrite removelast_keys.
  - split; [done|]. rewrite decide_True by lia. split; [done|].
    intros k'. cbn [simplelru.lookup]. rewrite Z.eqb_sym.
    destruct (Z.eqb_spec k' k); by case_decide.
Qed.

Lemma length_removelast_cons {A} (x : A) (l : list A) :
  length (removelast (x :: l)) = length l.
Proof.
  rewrite removelast_firstn_len, length_take. simpl length. lia.
Qed.

Lemma reordered_count c c' :
  reordered c c' -> length (recency c') = length (recency c).
Proof. intros (_ & _ & _ & Hp). by rewrite Hp. Qed.

(** The number of stored clusters after one [Log] call. *)
Lemma LogStep_count cfg d line d' cl o :
  config d = cfg ->
  Inv (fun _ => True) d ->
  clustersCounter d < MaxInt ->
  LogStep d line = Ok (d', cl, o) ->
  len (recency (idToCluster d)) <= capacity (idToCluster d) ->
  len (recency (idToCluster d')) =
    match o with
    | Created => Z.min (len (recency (idToCluster d)) + 1)
                       (capacity (idToCluster d))
    | Merged => len (recency (idToCluster d))
    end.
Proof.
  intros Hcfg HInv Hmax Hstep Hcount.
  destruct (LogStep_spec cfg d line d' cl o Hcfg HInv Hmax Hstep)
    as [HInv' Hrel].
  destruct o.
  - destruct (LogStep_created_store cfg d line d' cl Hcfg HInv Hstep)
      as (c1 & c2 & Hr1 & Hset & Hr2).
    pose proof HInv as (_ & Hstore & _).
    pose proof (reordered_storeInv _ _ _ Hr1 Hstore) as (_ & Hcap1 & Hent1).
    assert (peek c1 (id cl) = None) as Hfresh.
    { destruct (peek c1 (id cl)) as [c0|] eqn:Hc0; [|done].
      destruct (Hent1 _ _ Hc0) as [? _].
      destruct Hrel as (_ & _ & _ & _ & _ & -> & _). cbn [id] in *. lia. }
    assert (cache c1 <> None) as Hsome.
    { unfold Set_ in Hset. by destruct (cache c1). }
    destruct (Set_fresh _ _ _ _ Hset Hfresh (Hcap1 Hsome)) as [Hcap2 Hrec].
    unfold len in *. rewrite (reordered_count _ _ Hr2).
    rewrite <- (reordered_count _ _ Hr1) in Hcount |- *.
    destruct Hr1 as (_ & Hc1 & _). rewrite <- Hc1 in Hcount |- *.
    case_decide as Hroom.
    + destruct Hrec as [-> _]. simpl length. lia.
    + rewrite Hrec, length_removelast_cons. lia.
  - destruct Hrel as (_ & _ & _ & _ & _ & _ & Hp & _).
    unfold len. by rewrite Hp.
Qed.

Lemma createLogCluster_capacity maxSize :
  0 <= maxSize ->
  capacity (createLogClusterCache maxSize) =
    if maxSize =? 0 then MaxInt else maxSize.
Proof.
  intros H. unfold capacity, createLogClusterCache, simplelru.NewLRU.
  cbn [cache]. destruct (Z.eqb_spec maxSize 0) as [->|Hne]; [done|].
  destruct (Z.leb_spec maxSize 0); [lia | done].
Qed.

Lemma New_recency cfg d : New cfg = Ok d -> recency (idToCluster d) = [].
Proof.
  intros [_ ->]%New_Ok. cbn [idToCluster].
  unfold recency, entries, createLogClusterCache, simplelru.NewLRU.
  cbn [cache]. by destruct (_ <=? 0).
Qed.

(** The store of a trained miner holds at most as many clusters as it has
    room for, and no more than have been created. *)
Lemma trained_count cfg lines d :
  0 <= MaxClusters cfg ->
  len lines <= MaxInt ->
  trained cfg lines = Ok d ->
  capacity (idToCluster d) =
    (if MaxClusters cfg =? 0 then MaxInt else MaxClusters cfg) /\
  len (recency (idToCluster d)) <= capacity (idToCluster d) /\
  len (recency (idToCluster d)) <= clustersCounter d.
Proof.
  intros Hclusters Hlen Htrain.
  apply (trained_steps cfg (fun _ d =>
           capacity (idToCluster d) =
             (if MaxClusters cfg =? 0 then MaxInt else MaxClusters cfg) /\
           len (recency (idToCluster d)) <= capacity (idToCluster d) /\
           len (recency (idToCluster d)) <= clustersCounter d) lines d);
    try done.
  - intros i d1 line d' cl o Hcfg HInv (Hcap & Hcount & Hcnt) Hi Hc Hstep Hrel.
    pose proof (LogStep_count _ d1 line d' cl o Hcfg HInv ltac:(lia) Hstep Hcount)
      as Hnew.
    destruct Hrel as (_ & Hcap' & _ & _ & Ho). rewrite Hcap', Hnew.
    split; [done|]. destruct o; destruct Ho as [-> _]; lia.
  - intros d0 Hnew. rewrite (New_recency cfg d0 Hnew).
    apply New_Ok in Hnew as [_ ->]. cbn [idToCluster clustersCounter].
    rewrite createLogCluster_capacity by done. unfold len. simpl.
    split; [done|]. split; [|done].
    destruct (_ =? 0); unfold MaxInt; lia.
Qed.

(** ** Listing the store *)

Lemma lookup_NoDup_In {V} (l : list (Z * V)) k v :
  NoDup (map fst l) -> In (k, v) l -> simplelru.lookup k l = Some v.
Proof.
  induction l as [|[k0 v0] t IH]; [done|].
  cbn [map fst simplelru.lookup In]. intros [Hk0 Ht]%NoDup_cons.
  intros [[= -> ->]|Hin]; [by rewrite Z.eqb_refl|].
  destruct (Z.eqb_spec k0 k) as [->|Hne]; [|by apply IH].
  exfalso. apply Hk0. apply list_elem_of_In, in_map_iff. by exists (k, v).
Qed.

Lemma lookup_Some_In {V} (l : list (Z * V)) k v :
  simplelru.lookup k l = Some v -> In (k, v) l.
Proof.
  induction l as [|[k0 v0] t IH]; [done|]. cbn [simplelru.lookup In].
  destruct (Z.eqb_spec k0 k) as [->|Hne].
  - intros [= ->]. by left.
  - intros H. right. by apply IH.
Qed.

Lemma omap_lookup_keys {V} (l l' : list (Z * V)) :
  (forall e, In e l' -> simplelru.lookup (fst e) l = Some (snd e)) ->
  omap (fun key => simplelru.lookup key l) (map fst l') = map snd l'.
Proof.
  induction l' as [|e t IH]; [done|]. intros H. cbn [map]. csimpl.
  rewrite (H e) by (by left). csimpl.
  f_equal. apply IH. intros e' He'. apply H. by right.
Qed.

(** [Values] lists the entries from the back of the eviction list. *)
Lemma Values_entries c :
  cache c <> None -> NoDup (recency c) ->
  Values c = Ok (rev (map snd (entries c))).
Proof.
  unfold Values, recency, entries, simplelru.Keys, simplelru.Peek.
  destruct (cache c) as [l|]; [|done]. intros _ Hnd. f_equal.
  rewrite <- !map_rev. apply omap_lookup_keys.
  intros [k v] Hin%in_rev. by apply lookup_NoDup_In.
Qed.

(** X7. [Clusters] on a trained miner returns every stored cluster exactly
    once, the least recently used first: the ids listed are the keys of the
    store from the oldest to the newest, they are distinct, and a cluster is
    listed exactly when the store holds it under its id. *)
Theorem Clusters_lists_the_store (cfg : Config) (lines : list string)
    (d : Drain) :
  0 <= MaxClusters cfg ->
  len lines <= MaxInt ->
  trained cfg lines = Ok d ->
  exists cs,
    Clusters d = Ok cs /\
    map id cs = rev (recency (idToCluster d)) /\
    NoDup (map id cs) /\
    (forall cl, cl ∈ cs <-> peek (idToCluster d) (id cl) = Some cl).
Proof.
  intros Hclusters Hlen Htrain.
  pose proof (trained_cache cfg lines d Hclusters Hlen Htrain) as Hcache.
  destruct (trained_inv cfg lines d Hlen Htrain)
    as ((_ & (Hnd & _ & Hent) & _) & _ & _).
  exists (rev (map snd (entries (idToCluster d)))).
  split; [by apply Values_entries|].
  assert (map id (rev (map snd (entries (idToCluster d))))
          = rev (recency (idToCluster d))) as Hids.
  { rewrite <- !map_rev. unfold recency. rewrite <- !map_rev, map_map.
    apply map_ext_in. intros [k cl] Hin%in_rev. cbn [fst snd].
    apply (lookup_NoDup_In _ _ _ Hnd) in Hin. by destruct (Hent k cl Hin) as (_ & ? & _). }
  split; [done|]. split; [rewrite Hids, <- Permutation_rev; done|].
  intros cl. rewrite list_elem_of_In, <- in_rev, in_map_iff. split.
  - intros ([k cl'] & <- & Hin). cbn [snd].
    apply (lookup_NoDup_In _ _ _ Hnd) in Hin.
    destruct (Hent k cl' Hin) as (_ & -> & _). done.
  - intros Hin%lookup_Some_In. by exists (id cl, cl).
Qed.

Lemma Clusters_lists_the_store_witness :
  exists d cs,
    trained DefaultConfig S1 = Ok d /\
    Clusters d = Ok cs /\
    map id cs = rev (recency (idToCluster d)) /\
    map id cs = [1; 2; 3].
Proof.
  eexists. eexists.
  split; [vm_compute; reflexivity|].
  split; [vm_compute; reflexivity|].
  split; [|reflexivity].
  match goal with
  | |- map id ?CS = rev (recency (idToCluster ?D)) =>
      edestruct (Clusters_lists_the_store DefaultConfig S1 D)
        as (cs & Hcs & Hids & _)
  end.
  - simpl. lia.
  - unfold len, MaxInt. simpl. lia.
  - vm_compute; reflexivity.
  - vm_compute in Hcs. injection Hcs as <-. exact Hids.
Defined.

(** X8. With [MaxClusters > 0], [Clusters] never lists more than
    [MaxClusters] clusters; whatever [MaxClusters] is, it lists no more
    clusters than have been created. *)
Theorem Clusters_within_MaxClusters (cfg : Config) (lines : list string)
    (d : Drain) :
  0 <= MaxClusters cfg ->
  len lines <= MaxInt ->
  trained cfg lines = Ok d ->
  exists cs,
    Clusters d = Ok cs /\
    len cs <= clustersCounter d /\
    (0 < MaxClusters cfg -> len cs <= MaxClusters cfg).
Proof.
  intros Hclusters Hlen Htrain.
  pose proof (trained_cache cfg lines d Hclusters Hlen Htrain) as Hcache.
  destruct (trained_inv cfg lines d Hlen Htrain)
    as ((_ & (Hnd & _) & _) & _ & _).
  destruct (trained_count cfg lines d Hclusters Hlen Htrain)
    as (Hcap & Hcount & Hcnt).
  exists (rev (map snd (entries (idToCluster d)))).
  split; [by apply Values_entries|].
  assert (len (rev (map snd (entries (idToCluster d))))
          = len (recency (idToCluster d))) as ->.
  { unfold len, recency. by rewrite length_rev, !length_map. }
  split; [done|]. intros Hpos. rewrite Hcap in Hcount.
  destruct (Z.eqb_spec (MaxClusters cfg) 0); [lia | done].
Qed.

Lemma Clusters_within_MaxClusters_witness :
  exists d cs,
    trained twoClusters ["a b c d"; "x y"; "p q r"] = Ok d /\
    Clusters d = Ok cs /\
    len cs <= 2.
Proof.
  eexists. eexists.
  split; [vm_compute; reflexivity|].
  split; [vm_compute; reflexivity|].
  match goal with
  | |- len ?CS <= 2 =>
      edestruct (Clusters_within_MaxClusters twoClusters
                   ["a b c d"; "x y"; "p q r"])
        as (cs & Hcs & _ & Hbound)
  end.
  - simpl. lia.
  - unfold len, MaxInt. simpl. lia.
  - vm_compute; reflexivity.
  - vm_compute in Hcs. injection Hcs as <-. apply Hbound. simpl. lia.
Defined.

(** ** Size accounting *)

Lemma sumZ_Permutation l l' : l ≡ₚ l' -> sumZ l = sumZ l'.
Proof.
  induction 1 as [|x l l' _ IH|x y l|l l' l'' _ IH1 _ IH2]; simpl; lia.
Qed.

Lemma sumZ_map_ext (f g : Z -> Z) l :
  (forall x, x ∈ l -> f x = g x) -> sumZ (map f l) = sumZ (map g l).
Proof.
  induction l as [|x l IH]; [done|]. intros H. simpl.
  rewrite (H x) by (apply elem_of_cons; by left).
  rewrite IH; [done|]. intros y Hy. apply H. apply elem_of_cons. by right.
Qed.

(** Changing [f] at one element of a list without duplicates. *)
Lemma sumZ_map_update (f g : Z -> Z) k l :
  NoDup l -> k ∈ l -> (forall x, x <> k -> g x = f x) ->
  sumZ (map g l) = sumZ (map f l) + (g k - f k).
Proof.
  induction l as [|x l IH]; [by intros _ ?%elem_of_nil|].
  intros [Hx Hl]%NoDup_cons Hk Hother. simpl.
  destruct (decide (x = k)) as [->|Hne].
  - rewrite (sumZ_map_ext g f l); [lia|].
    intros y Hy. apply Hother. intros ->. done.
  - apply elem_of_cons in Hk as [->|Hk]; [done|].
    rewrite IH by done. rewrite (Hother x Hne). lia.
Qed.

Lemma totalSize_reordered c c' :
  reordered c c' -> totalSize c' = totalSize c.
Proof.
  intros (_ & _ & Hpk & Hrec). unfold totalSize.
  rewrite (sumZ_map_ext _ (fun k => from_option size 0 (peek c k)))
    by (intros k _; by rewrite Hpk).
  apply sumZ_Permutation. by rewrite Hrec.
Qed.

Lemma peek_Some_recency c k cl : peek c k = Some cl -> k ∈ recency c.
Proof.
  intros H. destruct (decide (k ∈ recency c)) as [|Hn]; [done|].
  apply lookup_None_keys in Hn. unfold peek in H. congruence.
Qed.

(** [Values] and [totalSize] add up the same sizes. *)
Lemma Values_totalSize c cs :
  NoDup (recency c) -> Values c = Ok cs -> sumZ (map size cs) = totalSize c.
Proof.
  intros Hnd Hv.
  assert (cache c <> None) as Hc by (unfold Values in Hv; by destruct (cache c)).
  rewrite Values_entries in Hv by done. injection Hv as <-.
  rewrite (sumZ_Permutation _ (map size (map snd (entries c))))
    by (by rewrite <- Permutation_rev).
  unfold totalSize, recency, peek. rewrite !map_map.
  f_equal. apply map_ext_in. intros [k cl] Hin. cbn [fst snd].
  by rewrite (lookup_NoDup_In _ _ _ Hnd Hin).
Qed.

(** X9. With [MaxClusters = 0] nothing is evicted, and every train call is
    counted once: the sizes of the clusters that [Clusters] lists add up to
    the number of lines trained, and there are as many clusters as ids
    given out. *)
Theorem sizes_add_up_to_calls (cfg : Config) (lines : list string)
    (d : Drain) :
  MaxClusters cfg = 0 ->
  len lines <= MaxInt ->
  trained cfg lines = Ok d ->
  exists cs,
    Clusters d = Ok cs /\
    sumZ (map size cs) = len lines /\
    len cs = clustersCounter d.
Proof.
  intros Hzero Hlen Htrain.
  assert (0 <= MaxClusters cfg) as Hclusters by lia.
  pose proof (trained_cache cfg lines d Hclusters Hlen Htrain) as Hcache.
  destruct (trained_inv cfg lines d Hlen Htrain)
    as ((_ & (Hnd & _) & _) & _ & _).
  set (Q := fun (i : Z) (d1 : Drain) =>
    sizesWithin i (idToCluster d1) /\
    capacity (idToCluster d1) = MaxInt /\
    len (recency (idToCluster d1)) = clustersCounter d1 /\
    totalSize (idToCluster d1) = i).
  assert (Q (len lines) d) as (_ & _ & Hcount & Htotal).
  { apply (trained_steps cfg Q lines d); try done.
    - intros i d1 line d' cl o Hcfg HInv (Hsz & Hcap & Hcnt & Htot) Hi Hc
        Hstep Hrel.
      pose proof (LogStep_count _ d1 line d' cl o Hcfg HInv ltac:(lia) Hstep
                    ltac:(lia)) as Hnew.
      split; [by eapply stepRel_sizes|].
      pose proof Hrel as (_ & Hcap' & _ & Hcl & Ho).
      split; [congruence|]. destruct o.
      + destruct Ho as (Hcnt' & Heq & _).
        split; [lia|].
        destruct (LogStep_created_store _ d1 line d' cl Hcfg HInv Hstep)
          as (c1 & c2 & Hr1 & Hset & Hr2).
        pose proof HInv as (_ & Hstore & _).
        pose proof (reordered_storeInv _ _ _ Hr1 Hstore) as (_ & Hcap1 & Hent1).
        assert (peek c1 (id cl) = None) as Hfresh.
        { destruct (peek c1 (id cl)) as [c0|] eqn:Hc0; [|done].
          destruct (Hent1 _ _ Hc0) as [? _]. rewrite Heq in *. cbn [id] in *.
          lia. }
        assert (cache c1 <> None) as Hsome.
        { unfold Set_ in Hset. by destruct (cache c1). }
        destruct (Set_fresh _ _ _ _ Hset Hfresh (Hcap1 Hsome)) as [_ Hrec].
        rewrite decide_True in Hrec.
        2:{ unfold len. rewrite (reordered_count _ _ Hr1).
            destruct Hr1 as (_ & -> & _). unfold len in Hcnt. lia. }
        destruct Hrec as [Hrec Hpk].
        rewrite (totalSize_reordered _ _ Hr2), <- Htot,
          <- (totalSize_reordered _ _ Hr1).
        unfold totalSize. rewrite Hrec. cbn [map sumZ foldr].
        rewrite Hpk, decide_True by done. cbn [from_option].
        rewrite (sumZ_map_ext _ (fun k => from_option size 0 (peek c1 k))).
        * rewrite Heq. cbn [size]. unfold sumZ. lia.
        * intros k Hk. rewrite Hpk. rewrite decide_False; [done|].
          intros ->. apply lookup_None_keys in Hfresh. done.
      + destruct Ho as (Hcnt' & _ & Hp & Hother & old & Hold & _ & Heq).
        split; [lia|]. unfold totalSize.
        rewrite (sumZ_Permutation _ _ (Permutation_map _ Hp)).
        pose proof HInv as (_ & (Hnd1 & _) & _).
        rewrite (sumZ_map_update
                   (fun k => from_option size 0 (peek (idToCluster d1) k))
                   (fun k => from_option size 0 (peek (idToCluster d') k))
                   (id cl)); [| done | by eapply peek_Some_recency |].
        * fold (totalSize (idToCluster d1)).
          rewrite Hcl, Hold, Htot. cbn [from_option]. rewrite Heq. cbn [size].
          destruct (Hsz _ _ Hold) as [? ?].
          rewrite wrap_small by (unfold MaxInt in Hi; lia). lia.
        * intros k Hk. by rewrite Hother.
    - intros d0 Hnew. unfold Q, totalSize. rewrite (New_recency cfg d0 Hnew).
      apply New_Ok in Hnew as [_ ->]. cbn [idToCluster clustersCounter].
      rewrite createLogCluster_capacity, Hzero by lia.
      split; [|done]. intros k cl.
      unfold peek, entries, createLogClusterCache, simplelru.NewLRU.
      cbn [cache]. by destruct (_ <=? 0). }
  exists (rev (map snd (entries (idToCluster d)))).
  pose proof (Values_entries (idToCluster d) Hcache Hnd) as Hv.
  split; [done|]. split.
  - by rewrite (Values_totalSize _ _ Hnd Hv).
  - rewrite <- Hcount. unfold len, recency. by rewrite length_rev, !length_map.
Qed.

Lemma sizes_add_up_to_calls_witness :
  exists d cs,
    trained DefaultConfig S1 = Ok d /\
    Clusters d = Ok cs /\
    sumZ (map size cs) = 7 /\
    len cs = 3.
Proof.
  eexists. eexists.
  split; [vm_compute; reflexivity|].
  split; [vm_compute; reflexivity|].
  match goal with
  | |- sumZ (map size ?CS) = _ /\ _ =>
      edestruct (sizes_add_up_to_calls DefaultConfig S1)
        as (cs & Hcs & Hsum & Hcount)
  end.
  - reflexivity.
  - unfold len, MaxInt. simpl. lia.
  - vm_compute; reflexivity.
  - vm_compute in Hcs. injection Hcs as <-.
    split; [exact Hsum | exact Hcount].
Defined.

(** ** Merging and similarity *)

Lemma mergeTokens_comm param seq1 seq2 :
  length seq1 = length seq2 ->
  mergeTokens param seq1 seq2 = mergeTokens param seq2 seq1.
Proof.
  revert seq2. induction seq1 as [|t1 r1 IH]; intros [|t2 r2] Hlen; try done.
  cbn [mergeTokens]. rewrite IH by (simpl in Hlen; lia). f_equal.
  rewrite (String.eqb_sym t2 t1). by destruct (String.eqb_spec t1 t2).
Qed.

Lemma mergeTokens_idem param seq1 seq2 :
  mergeTokens param seq1 (mergeTokens param seq1 seq2) =
  mergeTokens param seq1 seq2.
Proof.
  revert seq2. induction seq1 as [|t1 r1 IH]; intros [|t2 r2]; try done.
  cbn [mergeTokens]. rewrite IH. f_equal.
  destruct (String.eqb_spec t1 t2) as [->|Hne].
  - by rewrite String.eqb_refl.
  - by destruct (String.eqb_spec t1 param).
Qed.

Lemma mergeTokens_self param seq : mergeTokens param seq seq = seq.
Proof.
  induction seq as [|t r IH]; [done|]. cbn [mergeTokens].
  by rewrite String.eqb_refl, IH.
Qed.

Lemma len_eq {A B} (l : list A) (l' : list B) :
  len l = len l' <-> length l = length l'.
Proof. unfold len. lia. Qed.

(** X10. The template merge panics exactly when its arguments differ in
    length.  On arguments of the same length it does not depend on their
    order, merging a line into the result a second time changes nothing, and
    a sequence merged with itself is returned as it is. *)
Theorem createTemplate_merge_laws (cfg : Config) (seq1 seq2 : list string) :
  (createTemplate cfg seq1 seq2 = Panic LengthMismatch <->
   length seq1 <> length seq2) /\
  (length seq1 = length seq2 ->
   exists merged,
     createTemplate cfg seq1 seq2 = Ok merged /\
     createTemplate cfg seq2 seq1 = Ok merged /\
     createTemplate cfg seq1 merged = Ok merged /\
     length merged = length seq2) /\
  createTemplate cfg seq1 seq1 = Ok seq1.
Proof.
  unfold createTemplate. split; [|split].
  - destruct (Z.eqb_spec (len seq1) (len seq2)) as [He|Hne]; cbn [negb].
    + apply len_eq in He. split; [done | by intros []].
    + split; [intros _ He%len_eq; done | done].
  - intros Hlen. exists (mergeTokens (ParamString cfg) seq1 seq2).
    assert (len seq1 = len seq2) as He by (by apply len_eq).
    rewrite <- He, Z.eqb_refl. cbn [negb].
    assert (len (mergeTokens (ParamString cfg) seq1 seq2) = len seq1) as ->.
    { unfold len. rewrite mergeTokens_length. lia. }
    rewrite Z.eqb_refl. cbn [negb].
    rewrite mergeTokens_idem, (mergeTokens_comm _ seq2 seq1) by done.
    by rewrite mergeTokens_length.
  - rewrite Z.eqb_refl. cbn [negb]. by rewrite mergeTokens_self.
Qed.

Lemma createTemplate_merge_laws_witness :
  length ["user"; "root"; "in"] = length ["user"; "admin"; "in"] /\
  exists merged,
    createTemplate DefaultConfig ["user"; "root"; "in"] ["user"; "admin"; "in"]
      = Ok merged /\
    createTemplate DefaultConfig ["user"; "admin"; "in"] ["user"; "root"; "in"]
      = Ok merged /\
    createTemplate DefaultConfig ["user"; "root"; "in"] merged = Ok merged /\
    length merged = length ["user"; "admin"; "in"].
Proof.
  split; [reflexivity|].
  apply (proj1 (proj2 (createTemplate_merge_laws DefaultConfig
                         ["user"; "root"; "in"] ["user"; "admin"; "in"]))).
  reflexivity.
Defined.

Lemma countSim_counts param seq1 seq2 simTokens paramCount :
  length seq1 = length seq2 ->
  countSim param seq1 seq2 simTokens paramCount =
    (simTokens + matches param seq1 seq2, paramCount + wildcards param seq1).
Proof.
  revert seq2 simTokens paramCount.
  induction seq1 as [|t1 r1 IH]; intros [|t2 r2] a b Hlen; try done.
  - cbn. f_equal; lia.
  - cbn [countSim matches wildcards]. simpl in Hlen.
    destruct (String.eqb t1 param).
    + rewrite IH by lia. f_equal; lia.
    + destruct (String.eqb t1 t2); rewrite IH by lia; f_equal; lia.
Qed.

Lemma matches_wildcards_bound param seq1 seq2 :
  0 <= matches param seq1 seq2 /\ 0 <= wildcards param seq1 /\
  matches param seq1 seq2 + wildcards param seq1 <= len seq1.
Proof.
  revert seq2. induction seq1 as [|t1 r1 IH]; intros seq2.
  - unfold len. destruct seq2; cbn; lia.
  - assert (len (t1 :: r1) = len r1 + 1) as -> by (unfold len; simpl length; lia).
    cbn [wildcards]. destruct seq2 as [|t2 r2].
    + cbn [matches]. destruct (IH []) as (_ & ? & ?).
      destruct r1; cbn [matches] in *; destruct (String.eqb t1 param); lia.
    + cbn [matches]. destruct (IH r2) as (? & ? & ?).
      destruct (String.eqb t1 param); [lia|]. destruct (String.eqb t1 t2); lia.
Qed.

Lemma matches_self param seq :
  matches param seq seq + wildcards param seq = len seq.
Proof.
  induction seq as [|t r IH]; [done|].
  assert (len (t :: r) = len r + 1) as -> by (unfold len; simpl length; lia).
  cbn [matches wildcards]. rewrite String.eqb_refl.
  destruct (String.eqb t param); lia.
Qed.

(** X11. The similarity function panics exactly when its arguments differ
    in length.  Otherwise the count it returns is the number of wildcards
    of the template, whatever the line and [includeParams] are, and the
    similarity is the quotient of a number of places by the length: the
    places where the template has the token of the line, plus the wildcards
    when [includeParams] is set.  That number is never above the length,
    and with [includeParams] it is the length when the line is the template
    itself. *)
Theorem getSeqDistance_counts (cfg : Config) (seq1 seq2 : list string)
    (includeParams : bool) :
  let w := wildcards (ParamString cfg) seq1 in
  let m := matches (ParamString cfg) seq1 seq2 in
  (getSeqDistance cfg seq1 seq2 includeParams = Panic LengthMismatch <->
   length seq1 <> length seq2) /\
  (length seq1 = length seq2 ->
   getSeqDistance cfg seq1 seq2 includeParams =
     Ok (PrimFloat.div (float64 (if includeParams then m + w else m))
                       (float64 (len seq1)), w)) /\
  0 <= m /\ 0 <= w /\ m + w <= len seq1 /\
  (seq1 = seq2 -> m + w = len seq1).
Proof.
  intros w m. unfold getSeqDistance. split; [|split].
  - destruct (Z.eqb_spec (len seq1) (len seq2)) as [He|Hne]; cbn [negb].
    + apply len_eq in He. split; [|by intros []].
      by destruct (countSim _ _ _ _ _).
    + split; [intros _ He%len_eq; done | done].
  - intros Hlen. assert (len seq1 = len seq2) as He by (by apply len_eq).
    rewrite <- He, Z.eqb_refl. cbn [negb].
    rewrite countSim_counts by done. fold w m.
    by destruct includeParams.
  - pose proof (matches_wildcards_bound (ParamString cfg) seq1 seq2)
      as (? & ? & ?).
    split; [done|]. split; [done|]. split; [done|].
    intros <-. apply matches_self.
Qed.

Lemma getSeqDistance_counts_witness :
  length ["user"; "<*>"; "logged"; "in"]
    = length ["user"; "root"; "logged"; "out"] /\
  getSeqDistance DefaultConfig ["user"; "<*>"; "logged"; "in"]
                 ["user"; "root"; "logged"; "out"] false
    = Ok (PrimFloat.div (float64 2) (float64 4), 1).
Proof.
  split; [reflexivity|].
  apply (proj1 (proj2 (getSeqDistance_counts DefaultConfig
                         ["user"; "<*>"; "logged"; "in"]
                         ["user"; "root"; "logged"; "out"] false))).
  reflexivity.
Defined.

(** ** Tokens and the template string *)

Lemma append_cons c s t : String c s +:+ t = String c (s +:+ t).
Proof. reflexivity. Qed.

Lemma append_nil_r s : s +:+ "" = s.
Proof. induction s as [|c s IH]; [done|]. by rewrite append_cons, IH. Qed.

Lemma append_assoc s1 s2 s3 : (s1 +:+ s2) +:+ s3 = s1 +:+ (s2 +:+ s3).
Proof. induction s1 as [|c s1 IH]; [done|]. by rewrite !append_cons, IH. Qed.

Lemma prefix_space c t :
  String.prefix " " (String c t) = if ascii_dec " " c then true else false.
Proof.
  cbn [String.prefix]. destruct (ascii_dec " " c); [by destruct t | done].
Qed.

Lemma Join_cons e rest sep :
  rest <> [] -> gostrings.Join (e :: rest) sep = e +:+ sep +:+ gostrings.Join rest sep.
Proof. by destruct rest. Qed.

Lemma Join_splitFrom cur s :
  gostrings.Join (gostrings.splitFrom " " 0 cur s) " " = cur +:+ s.
Proof.
  revert cur. induction s as [|c t IH]; intros cur; cbn [gostrings.splitFrom].
  - cbn [gostrings.Join]. by rewrite append_nil_r.
  - rewrite prefix_space. destruct (ascii_dec " " c) as [<-|Hne].
    + rewrite Join_cons by apply splitFrom_nonempty.
      change (String.length " " - 1)%nat with 0%nat. by rewrite IH.
    + rewrite IH, append_assoc. done.
Qed.

Lemma spaceless_app_char cur c :
  spaceless cur -> " "%char <> c -> spaceless (cur +:+ String c "").
Proof.
  unfold spaceless. induction cur as [|c0 cur IH].
  - intros _ Hne [H|[]]. congruence.
  - rewrite append_cons. cbn [list_ascii_of_string In].
    intros Hcur Hne [H|H]; [by apply Hcur; left|].
    apply IH; [|done|done]. intros Hin. apply Hcur. by right.
Qed.

Lemma splitFrom_spaceless cur s t :
  spaceless cur -> In t (gostrings.splitFrom " " 0 cur s) -> spaceless t.
Proof.
  revert cur. induction s as [|c s IH]; intros cur Hcur;
    cbn [gostrings.splitFrom].
  - by intros [<-|[]].
  - rewrite prefix_space. destruct (ascii_dec " " c) as [<-|Hne].
    + change (String.length " " - 1)%nat with 0%nat.
      intros [<-|Hin]; [done|]. apply (IH ""); [|done]. by intros [].
    + apply IH. by apply spaceless_app_char.
Qed.

(** X12. Splitting and joining are inverse to each other: the tokens of a
    line, joined by single spaces, are the normalized line again, so the
    template string of a cluster whose template is the tokens of a line, as
    a newly created cluster has it, is that normalized line; and no token
    contains a space. *)
Theorem tokens_rejoin (cfg : Config) (content : string) :
  gostrings.Join (getContentAsTokens cfg content) " " = normalized cfg content /\
  (forall cl, logTemplateTokens cl = getContentAsTokens cfg content ->
     getTemplate cl = normalized cfg content) /\
  (forall t, In t (getContentAsTokens cfg content) -> spaceless t).
Proof.
  assert (gostrings.Join (getContentAsTokens cfg content) " "
          = normalized cfg content) as Hjoin.
  { unfold getContentAsTokens, gostrings.Split. fold (normalized cfg content).
    apply Join_splitFrom. }
  split; [done|]. split.
  - intros cl Hcl. unfold getTemplate. by rewrite Hcl.
  - intros t. unfold getContentAsTokens, gostrings.Split.
    apply splitFrom_spaceless. by intros [].
Qed.

Lemma tokens_rejoin_witness :
  logTemplateTokens (mkLogCluster ["user"; "root"; "logged"; "in"] 1 1)
    = getContentAsTokens DefaultConfig "  user root logged in " /\
  getTemplate (mkLogCluster ["user"; "root"; "logged"; "in"] 1 1)
    = normalized DefaultConfig "  user root logged in ".
Proof.
  split; [vm_compute; reflexivity|].
  apply (proj1 (proj2 (tokens_rejoin DefaultConfig "  user root logged in "))).
  vm_compute; reflexivity.
Defined.

(** ** The token classifier on ASCII *)

Lemma IsNumber_ascii c :
  (byteval c <? utf8.RuneSelf) = true ->
  unicode.IsNumber (byteval c) = isAsciiDigit c.
Proof.
  destruct c as [[] [] [] [] [] [] [] []]; vm_compute;
    intros H; first [discriminate H | reflexivity].
Qed.

Lemma runesFrom_ascii s :
  (forall c, In c (list_ascii_of_string s) -> byteval c < utf8.RuneSelf) ->
  utf8.runesFrom 0 s = map byteval (list_ascii_of_string s).
Proof.
  induction s as [|c t IH]; [done|]. intros H.
  cbn [utf8.runesFrom list_ascii_of_string map].
  assert ((byteval c <? utf8.RuneSelf) = true) as Hc.
  { apply Z.ltb_lt, H. by left. }
  unfold utf8.DecodeRuneInString. rewrite Hc.
  change (1 - 1)%nat with 0%nat. f_equal. apply IH.
  intros c' Hc'. apply H. by right.
Qed.

(** X13. On a token of ASCII bytes the classifier is the test for a decimal
    digit: it is true exactly when one of the bytes is ['0'] to ['9']. *)
Theorem hasNumbers_ascii (token : string) :
  (forall c, In c (list_ascii_of_string token) -> byteval c < utf8.RuneSelf) ->
  hasNumbers token = existsb isAsciiDigit (list_ascii_of_string token).
Proof.
  intros Hascii. unfold hasNumbers, utf8.runes.
  rewrite runesFrom_ascii by done.
  induction (list_ascii_of_string token) as [|c l IH]; [done|].
  cbn [map anyNumber existsb].
  rewrite IsNumber_ascii by (apply Z.ltb_lt, Hascii; by left).
  destruct (isAsciiDigit c); [done|]. apply IH.
  intros c' Hc'. apply Hascii. by right.
Qed.

Lemma hasNumbers_ascii_witness :
  hasNumbers "0xDEADBEAF" = existsb isAsciiDigit (list_ascii_of_string "0xDEADBEAF").
Proof.
  apply hasNumbers_ascii.
  intros c Hc. vm_compute in Hc.
  repeat (destruct Hc as [<-|Hc]; [vm_compute; reflexivity|]). destruct Hc.
Defined.

(** ** The shape of the tree *)

Lemma trained_fanOK cfg lines d :
  1 <= MaxChildren cfg ->
  trained cfg lines = Ok d ->
  treeInv (fun _ => fanOK (configured cfg)) (rootNode d).
Proof.
  intros Hmax (d0 & Hnew & Hrun)%trained_Ok.
  apply New_Ok in Hnew as [_ ->].
  apply (LogAll_tree (fanOK (configured cfg))) in Hrun as [_ Htree]; [done|..].
  - by apply fanOK_new.
  - apply fanOK_ids.
  - intros nd token key0 child0 child Hnd Hnn.
    pose proof (fanOK_next _ nd token Hnd) as Hnext.
    cbn [config] in Hnn. rewrite Hnn in Hnext. apply Hnext.
  - intros key0 node. cbn [rootNode]. by rewrite createNode_lookup.
Qed.

(** X14. The last slot of a node is kept for the wildcard: with
    [MaxChildren >= 1], a node below the root that has [MaxChildren]
    children has the wildcard child among them, and a node without the
    wildcard child has fewer than [MaxChildren] children. *)
Theorem full_node_has_wildcard (cfg : Config) (lines : list string)
    (d : Drain) :
  1 <= MaxChildren cfg ->
  trained cfg lines = Ok d ->
  forall key first m,
    keyToChildNode (rootNode d) !! key = Some first ->
    reach first m ->
    (MaxChildren cfg <= lenMap (keyToChildNode m) ->
     is_Some (keyToChildNode m !! ParamString cfg)) /\
    (keyToChildNode m !! ParamString cfg = None ->
     lenMap (keyToChildNode m) < MaxChildren cfg).
Proof.
  intros Hmax Htrain key first m Hfirst Hreach.
  destruct (trained_fanOK cfg lines d Hmax Htrain key first Hfirst)
    as (n & _ & _ & Hall).
  pose proof (allNodes_reach _ _ _ Hall Hreach) as Hfan.
  unfold fanOK in Hfan. cbn [ParamString MaxChildren configured] in Hfan.
  destruct (keyToChildNode m !! ParamString cfg) as [w|].
  - split; [eauto | done].
  - split; [lia | intros _; lia].
Qed.

(** [MaxChildren = 3] and a tree depth of 5: the third new token under
    ["x"] takes the wildcard slot, and the fourth goes through it. *)
Lemma full_node_has_wildcard_witness :
  exists d first m,
    trained (mkConfig 0 5 (SimTh DefaultConfig) 3 [] 0 "<*>")
            ["x a end"; "x b end"; "x c end"; "x d end"] = Ok d /\
    keyToChildNode (rootNode d) !! "3" = Some first /\
    keyToChildNode first !! "x" = Some m /\
    lenMap (keyToChildNode m) = 3 /\
    is_Some (keyToChildNode m !! "<*>").
Proof.
  eexists. eexists. eexists.
  split; [vm_compute; reflexivity|].
  split; [vm_compute; reflexivity|].
  split; [vm_compute; reflexivity|].
  split; [vm_compute; reflexivity|].
  match goal with
  | |- is_Some (keyToChildNode ?M !! _) =>
      refine (proj1 (full_node_has_wildcard
                (mkConfig 0 5 (SimTh DefaultConfig) 3 [] 0 "<*>")
                ["x a end"; "x b end"; "x c end"; "x d end"] _ _ _
                "3" _ M _ (reach_child _ "x" _ _ _ (reach_here _))) _)
  end.
  - simpl. lia.
  - vm_compute; reflexivity.
  - vm_compute; reflexivity.
  - vm_compute; reflexivity.
  - vm_compute. discriminate.
Defined.

(** ** The tree during a sequence of [Log] calls *)

(** What a [Log] call does to the tree: nothing when it merges, one
    insertion of the cluster it creates otherwise. *)
Lemma LogStep_root d line d' cl o :
  LogStep d line = Ok (d', cl, o) ->
  config d' = config d /\
  match o with
  | Merged => rootNode d' = rootNode d
  | Created =>
    logTemplateTokens cl = getContentAsTokens (config d) line /\
    size cl = 1 /\ id cl = clustersCounter d' /\
    exists c2 c3,
      addSeqToPrefixTree (config d) (rootNode d) cl c2 = Ok (rootNode d', c3)
  end.
Proof.
  unfold LogStep.
  destruct (treeSearch _ _ _ _ _) as [[p d1]|] eqn:Hsearch; [|done].
  apply treeSearch_frame in Hsearch as [c1 ->].
  cbn [bind config rootNode idToCluster clustersCounter withCache].
  destruct p as [p|].
  - destruct (createTemplate _ _ _); [|done]. cbn [bind].
    destruct (Get _ _) as [[? c3]|]; [|done]. cbn [bind].
    by intros [= <- <- <-].
  - destruct (Set_ _ _ _) as [c2|]; [|done]. cbn [bind].
    destruct (addSeqToPrefixTree _ _ _ _) as [[root' c3]|] eqn:Hadd; [|done].
    cbn [bind]. intros [= <- <- <-]. cbn [config rootNode clustersCounter].
    split; [done|]. split; [done|]. split; [done|]. split; [done|]. eauto.
Qed.

(** A property of the root that every insertion of a line's new cluster
    keeps holds after a sequence of [Log] calls. *)
Lemma LogAll_root (R : Node -> Prop) cfg lines :
  (forall line root cl c2 root' c3,
     In line lines -> R root ->
     logTemplateTokens cl = getContentAsTokens cfg line ->
     addSeqToPrefixTree cfg root cl c2 = Ok (root', c3) ->
     R root') ->
  forall d d',
    config d = cfg -> R (rootNode d) -> LogAll d lines = Ok d' ->
    config d' = cfg /\ R (rootNode d').
Proof.
  induction lines as [|line rest IH]; intros Hstep d d' Hcfg HR; cbn [LogAll].
  - by intros [= <-].
  - unfold Log. destruct (LogStep d line) as [[[d1 cl] o]|] eqn:Hs; [|done].
    cbn [bind]. apply LogStep_root in Hs as [Hcfg1 Ho].
    apply IH.
    + intros line' root cl' c2 root' c3 Hin. apply Hstep. by right.
    + congruence.
    + destruct o.
      * destruct Ho as (Htok & _ & _ & c2 & c3 & Hadd). rewrite Hcfg in *.
        eapply (Hstep line); eauto. by left.
      * by rewrite Ho.
Qed.

(** The keys of the root after an insertion. *)
Lemma addSeqToPrefixTree_keys cfg root cl c root' c' key :
  addSeqToPrefixTree cfg root cl c = Ok (root', c') ->
  is_Some (keyToChildNode root' !! key) ->
  is_Some (keyToChildNode root !! key) \/
  key = strconv.Itoa (len (logTemplateTokens cl)).
Proof.
  unfold addSeqToPrefixTree.
  match goal with
  | |- bind ?r _ = _ -> _ => destruct r as [[first c1]|]; [|done]
  end.
  cbn [bind]. intros [= <- <-]. cbn [keyToChildNode].
  destruct (decide (strconv.Itoa (len (logTemplateTokens cl)) = key))
    as [<-|Hne]; [by right|].
  rewrite lookup_insert_ne by done. by left.
Qed.

(** X15. A line with a number of tokens that no earlier line had starts a
    new cluster: [Log] returns a cluster of size 1 whose template is the
    tokens of the line and whose id is the new value of the counter. *)
Theorem new_token_count_creates (cfg : Config) (lines : list string)
    (d : Drain) (line : string) (d' : Drain) (cl : LogCluster) :
  trained cfg lines = Ok d ->
  (forall l, In l lines ->
     length (getContentAsTokens (configured cfg) l) <>
     length (getContentAsTokens (configured cfg) line)) ->
  Log d line = Ok (d', cl) ->
  logTemplateTokens cl = getContentAsTokens (configured cfg) line /\
  size cl = 1 /\
  id cl = clustersCounter d' /\
  clustersCounter d' = wrap (clustersCounter d + 1).
Proof.
  intros (d0 & Hnew & Hrun)%trained_Ok Hcounts [o Hstep]%Log_LogStep.
  apply New_Ok in Hnew as [_ ->].
  set (R := fun root : Node => forall key,
         is_Some (keyToChildNode root !! key) ->
         exists l, In l lines /\
           key = strconv.Itoa (len (getContentAsTokens (configured cfg) l))).
  destruct (LogAll_root R (configured cfg) lines) with (d' := d)
    (d := mkDrain (configured cfg) createNode
            (createLogClusterCache (MaxClusters cfg)) 0) as [Hcfg HR];
    try done.
  - intros l root cl0 c2 root' c3 Hin HR Htok Hadd key Hkey.
    destruct (addSeqToPrefixTree_keys _ _ _ _ _ _ _ Hadd Hkey) as [Hold | ->].
    + by apply HR.
    + exists l. by rewrite Htok.
  - intros key. cbn [rootNode]. rewrite createNode_lookup. by intros [? ?].
  - assert (keyToChildNode (rootNode d) !!
              strconv.Itoa (len (getContentAsTokens (configured cfg) line))
            = None) as Hnone.
    { destruct (keyToChildNode (rootNode d) !! _) as [n|] eqn:Hk; [|done].
      destruct (HR _ (mk_is_Some _ _ Hk)) as (l & Hin & Heq).
      apply Itoa_inj in Heq. exfalso. apply (Hcounts l Hin).
      unfold len in Heq. lia. }
    revert Hstep. unfold LogStep, treeSearch. rewrite Hcfg, Hnone.
    cbn [bind idToCluster rootNode clustersCounter config].
    destruct (Set_ _ _ _) as [c2|]; [|done]. cbn [bind].
    destruct (addSeqToPrefixTree _ _ _ _) as [[root' c3]|]; [|done].
    cbn [bind]. by intros [= <- <- <-].
Qed.

Lemma new_token_count_creates_witness :
  exists d d' cl,
    trained DefaultConfig ["a b c"] = Ok d /\
    Log d "a b c d" = Ok (d', cl) /\
    (logTemplateTokens cl = getContentAsTokens (configured DefaultConfig) "a b c d" /\
     size cl = 1 /\
     id cl = clustersCounter d' /\
     clustersCounter d' = wrap (clustersCounter d + 1)).
Proof.
  eexists. eexists. eexists.
  split; [vm_compute; reflexivity|].
  split; [vm_compute; reflexivity|].
  eapply (new_token_count_creates DefaultConfig ["a b c"] _ "a b c d").
  - vm_compute; reflexivity.
  - intros l [<-|[]]. vm_compute. discriminate.
  - vm_compute; reflexivity.
Defined.

(** ** The depth of the tree *)

Lemma depthInv_createNode M count j : depthInv M count j createNode.
Proof.
  constructor; [done | done |]. intros k c. by rewrite createNode_lookup.
Qed.

Lemma depthInv_child M count j n k c :
  depthInv M count j n -> keyToChildNode n !! k = Some c ->
  depthInv M count (j + 1) c /\ j < M /\ j < count.
Proof.
  intros Hn Hk. inversion Hn as [j0 n0 Hleaf _ Hch]; subst.
  split; [by eapply Hch|].
  destruct (decide (M <= j \/ count <= j)) as [Hstop|Hgo]; [|lia].
  rewrite (Hleaf Hstop), lookup_empty in Hk. done.
Qed.

(** The insertion loop keeps the shape. *)
Lemma addSeqLoop_depth cfg clusterID count curNode j tokens c n' c' :
  depthInv (maxNodeDepth cfg) count j curNode ->
  addSeqLoop cfg clusterID count curNode j tokens c = Ok (n', c') ->
  depthInv (maxNodeDepth cfg) count j n'.
Proof.
  revert curNode j n' c'. induction tokens as [|token rest IH];
    intros curNode j n' c' Hcur; cbn [addSeqLoop].
  - by intros [= <- <-].
  - destruct (Z.geb_spec j (maxNodeDepth cfg)) as [Hm|Hm];
      [|destruct (Z.geb_spec j count) as [Hc|Hc]]; cbn [orb].
    1,2: destruct (liveIDs _ _) as [[new c1]|]; [|done]; cbn [bind];
         intros [= <- <-]; inversion Hcur as [j0 n0 Hleaf Hids Hch]; subst;
         constructor; cbn [keyToChildNode clusterIDs]; [done | lia | done].
    destruct (nextNode cfg curNode token) as [[key child]|] eqn:Hnn.
    + assert (depthInv (maxNodeDepth cfg) count (j + 1) child) as Hchild.
      { destruct (nextNode_child _ _ _ _ _ Hnn) as [->|Hk].
        - apply depthInv_createNode.
        - by eapply depthInv_child. }
      destruct (addSeqLoop _ _ _ child _ _ _) as [[child' c1]|] eqn:Hrec;
        [|done].
      cbn [bind]. intros [= <- <-].
      pose proof (IH _ _ _ _ Hchild Hrec) as Hchild'.
      inversion Hcur as [j0 n0 Hleaf Hids Hch]; subst.
      constructor; cbn [keyToChildNode clusterIDs]; [lia | done |].
      intros k c0. destruct (decide (key = k)) as [->|Hne].
      * rewrite lookup_insert_eq. by intros [= <-].
      * rewrite lookup_insert_ne by done. apply Hch.
    + destruct rest; [|done]. by intros [= <- <-].
Qed.

Lemma addSeqToPrefixTree_depth cfg root cl c root' c' :
  1 <= len (logTemplateTokens cl) ->
  treeDepthInv (maxNodeDepth cfg) root ->
  addSeqToPrefixTree cfg root cl c = Ok (root', c') ->
  treeDepthInv (maxNodeDepth cfg) root'.
Proof.
  intros Hlen Htree. unfold addSeqToPrefixTree.
  destruct (Z.eqb_spec (len (logTemplateTokens cl)) 0); [lia|].
  destruct (addSeqLoop _ _ _ _ _ _ _) as [[first c1]|] eqn:Hloop; [|done].
  cbn [bind]. intros [= <- <-] key node. cbn [keyToChildNode].
  destruct (decide (strconv.Itoa (len (logTemplateTokens cl)) = key))
    as [<-|Hne].
  - rewrite lookup_insert_eq. intros [= <-].
    exists (len (logTemplateTokens cl)). split; [done|]. split; [done|].
    eapply addSeqLoop_depth; [|exact Hloop].
    destruct (keyToChildNode root !! _) as [n0|] eqn:Hroot.
    + destruct (Htree _ _ Hroot) as (count & Heq & _ & Hd).
      apply Itoa_inj in Heq. by subst count.
    + apply depthInv_createNode.
  - rewrite lookup_insert_ne by done. apply Htree.
Qed.

Lemma trained_depth cfg lines d :
  trained cfg lines = Ok d ->
  config d = configured cfg /\
  treeDepthInv (LogClusterDepth cfg - 2) (rootNode d).
Proof.
  intros (d0 & Hnew & Hrun)%trained_Ok.
  apply New_Ok in Hnew as [_ ->].
  change (LogClusterDepth cfg - 2) with (maxNodeDepth (configured cfg)).
  eapply (LogAll_root _ (configured cfg) lines); [| |  |exact Hrun].
  - intros line root cl c2 root' c3 _ HR Htok Hadd.
    eapply addSeqToPrefixTree_depth; [|exact HR|exact Hadd].
    rewrite Htok.
    pose proof (getContentAsTokens_nonempty (configured cfg) line) as Hne.
    unfold len. destruct (getContentAsTokens _ line); [done | simpl; lia].
  - done.
  - intros key node. cbn [rootNode]. by rewrite createNode_lookup.
Qed.

Lemma depthInv_reachIn M count j n i m :
  depthInv M count j n -> reachIn n i m -> j <= M -> j <= count ->
  depthInv M count (j + i) m /\ j + i <= M /\ j + i <= count /\ 0 <= i.
Proof.
  intros Hn Hr. revert j Hn. induction Hr as [n|n k c i m Hk _ IH];
    intros j Hn HM Hc.
  - rewrite Z.add_0_r. auto with lia.
  - destruct (depthInv_child _ _ _ _ _ _ Hn Hk) as (Hchild & ? & ?).
    destruct (IH (j + 1) Hchild) as (Hm & ? & ? & ?); [lia | lia |].
    replace (j + (i + 1)) with (j + 1 + i) by lia. auto with lia.
Qed.

(** X16. The tree has a fixed depth: every node is at most
    [LogClusterDepth - 2] edges below the root, and a node that holds
    cluster ids, in the subtree of the lines of [count] tokens, is exactly
    [min (LogClusterDepth - 2) count] edges below it. *)
Theorem tree_depth_is_bounded (cfg : Config) (lines : list string)
    (d : Drain) :
  trained cfg lines = Ok d ->
  forall key first i m,
    keyToChildNode (rootNode d) !! key = Some first ->
    reachIn first i m ->
    i + 1 <= LogClusterDepth cfg - 2 /\
    (clusterIDs m <> [] ->
     exists count,
       key = strconv.Itoa count /\
       i + 1 = Z.min (LogClusterDepth cfg - 2) count).
Proof.
  intros Htrain key first i m Hfirst Hreach.
  destruct (trained_Ok _ _ _ Htrain) as (d0 & [Hdepth _]%New_Ok & _).
  destruct (trained_depth cfg lines d Htrain) as [_ Htree].
  destruct (Htree key first Hfirst) as (count & Hkey & Hcount & Hd).
  destruct (depthInv_reachIn _ _ _ _ _ _ Hd Hreach) as (Hm & ? & ? & ?);
    [lia | lia |].
  split; [lia|]. intros Hids. exists count. split; [done|].
  inversion Hm as [j n _ Hnoids _]; subst.
  destruct (decide (1 + i < LogClusterDepth cfg - 2 /\ 1 + i < count))
    as [Hin|Hout]; [by apply Hnoids in Hin | lia].
Qed.

Lemma tree_depth_is_bounded_witness :
  exists d first m,
    trained DefaultConfig S1 = Ok d /\
    keyToChildNode (rootNode d) !! "4" = Some first /\
    keyToChildNode first !! "user" = Some m /\
    clusterIDs m = [3] /\
    0 + 1 + 1 <= LogClusterDepth DefaultConfig - 2.
Proof.
  eexists. eexists. eexists.
  split; [vm_compute; reflexivity|].
  split; [vm_compute; reflexivity|].
  split; [vm_compute; reflexivity|].
  split; [vm_compute; reflexivity|].
  match goal with
  | |- _ =>
      refine (proj1 (tree_depth_is_bounded DefaultConfig S1 _ _ "4" _ (0 + 1) _
                       _ (reachIn_child _ "user" _ 0 _ _ (reachIn_here _))))
  end.
  - vm_compute; reflexivity.
  - vm_compute; reflexivity.
  - vm_compute; reflexivity.
Defined.

(** ** The threshold *)

Lemma fastMatchLoop_sound cfg tokens includeParams pk ids0 ids maxSim
    maxParamCount maxCluster c maxSim' maxCluster' c' :
  (forall k, peek c k = pk k) ->
  (forall k, In k ids -> In k ids0) ->
  candidateOK cfg tokens includeParams pk ids0 maxSim maxParamCount maxCluster ->
  fastMatchLoop cfg ids tokens includeParams maxSim maxParamCount maxCluster c
    = Ok (maxSim', maxCluster', c') ->
  exists maxParamCount',
    candidateOK cfg tokens includeParams pk ids0 maxSim' maxParamCount'
                maxCluster'.
Proof.
  revert maxSim maxParamCount maxCluster c.
  induction ids as [|k rest IH]; intros maxSim maxParamCount maxCluster c
    Hpk Hsub Hbest; cbn [fastMatchLoop].
  - intros [= <- <- <-]. eauto.
  - destruct (Get k c) as [[v c1]|] eqn:Hget; [|done]. cbn [bind].
    apply Get_Ok in Hget as [-> (_ & _ & Hp1 & _)].
    assert (forall k0, peek c1 k0 = pk k0) as Hpk1
      by (intros k0; by rewrite Hp1).
    assert (forall k0, In k0 rest -> In k0 ids0) as Hsub1
      by (intros k0 Hk0; apply Hsub; by right).
    destruct (peek c k) as [cl|] eqn:Hcl; [|by apply IH].
    destruct (getSeqDistance _ _ _ _) as [[curSim paramCount]|] eqn:Hdist;
      [|done].
    cbn [bind]. destruct (_ || _); apply IH; try done.
    intros k0 cl0 [= <- <-]. split; [apply Hsub; by left|].
    by rewrite <- Hpk.
Qed.

Lemma fastMatch_sound cfg ids tokens simTh includeParams c k cl c' :
  fastMatch cfg ids tokens simTh includeParams c = Ok (Some (k, cl), c') ->
  In k ids /\ peek c k = Some cl /\
  exists sim n,
    getSeqDistance cfg (logTemplateTokens cl) tokens includeParams
      = Ok (sim, n) /\
    PrimFloat.leb simTh sim = true.
Proof.
  unfold fastMatch.
  destruct (fastMatchLoop _ _ _ _ _ _ _ _) as [[[maxSim p] c1]|] eqn:Hloop;
    [|done].
  cbn [bind]. destruct (PrimFloat.leb simTh maxSim) eqn:Hth; [|done].
  intros [= -> <-].
  eapply (fastMatchLoop_sound _ _ _ (peek c) ids) in Hloop
    as [n Hbest]; [|done|done|by intros ? ?].
  destruct (Hbest k cl eq_refl) as (? & ? & ?). eauto 10.
Qed.

(** X17. A cluster that the leaf scoring returns is one of the candidates
    given, it is stored, and its similarity to the line is at least the
    threshold. *)
Theorem fastMatch_returns_similar_candidate (cfg : Config) (ids : list Z)
    (tokens : list string) (simTh : float) (includeParams : bool)
    (c : LogClusterCache) (k : Z) (cl : LogCluster) (c' : LogClusterCache) :
  fastMatch cfg ids tokens simTh includeParams c = Ok (Some (k, cl), c') ->
  In k ids /\ peek c k = Some cl /\
  exists sim n,
    getSeqDistance cfg (logTemplateTokens cl) tokens includeParams
      = Ok (sim, n) /\
    PrimFloat.leb simTh sim = true.
Proof. apply fastMatch_sound. Qed.

Lemma fastMatch_returns_similar_candidate_witness :
  exists d k cl c',
    trained DefaultConfig S1 = Ok d /\
    fastMatch (config d) [7; 3] ["user"; "root"; "logged"; "in"]
              (SimTh (config d)) false (idToCluster d)
      = Ok (Some (k, cl), c') /\
    k = 3 /\
    peek (idToCluster d) k = Some cl.
Proof.
  eexists. eexists. eexists. eexists.
  split; [vm_compute; reflexivity|].
  split; [vm_compute; reflexivity|].
  split; [reflexivity|].
  match goal with
  | |- peek ?C ?K = Some ?CL =>
      refine (proj1 (proj2 (fastMatch_returns_similar_candidate
                (configured DefaultConfig) [7; 3]
                ["user"; "root"; "logged"; "in"] (SimTh DefaultConfig) false
                C K CL _ _)))
  end.
  vm_compute; reflexivity.
Defined.

(** The search ends in the leaf scoring. *)
Lemma treeSearch_Some d tokens simTh includeParams p d' :
  tokens <> [] ->
  treeSearch d (rootNode d) tokens simTh includeParams = Ok (Some p, d') ->
  exists ids c',
    fastMatch (config d) ids tokens simTh includeParams (idToCluster d)
      = Ok (Some p, c').
Proof.
  intros Hne. unfold treeSearch.
  destruct (keyToChildNode (rootNode d) !! _) as [curNode|]; [|done].
  assert ((len tokens =? 0) = false) as ->.
  { apply Z.eqb_neq. unfold len. destruct tokens; [done | simpl; lia]. }
  destruct (descend _ _ _ _ _) as [leaf|]; [|done].
  destruct (fastMatch _ _ _ _ _ _) as [[q c1]|] eqn:Hfm; [|done].
  cbn [bind]. intros [= -> <-]. eauto.
Qed.

(** X18. [Log] merges a line only into a cluster that is similar enough:
    when the cluster returned was stored before the call, the similarity of
    its template before the call to the line, wildcards not counted, is at
    least [SimTh]. *)
Theorem Log_merges_only_similar (cfg : Config) (lines : list string)
    (d : Drain) (line : string) (d' : Drain) (cl old : LogCluster) :
  len lines < MaxInt ->
  trained cfg lines = Ok d ->
  Log d line = Ok (d', cl) ->
  peek (idToCluster d) (id cl) = Some old ->
  exists sim n,
    getSeqDistance (config d) (logTemplateTokens old)
                   (getContentAsTokens (config d) line) false = Ok (sim, n) /\
    PrimFloat.leb (SimTh cfg) sim = true.
Proof.
  intros Hlen Htrain [o Hstep]%Log_LogStep Hold.
  destruct (trained_inv cfg lines d) as (HInv & Hcfg & Hc); [lia | done |].
  pose proof HInv as (_ & (_ & _ & Hent) & _).
  revert Hstep. unfold LogStep.
  destruct (treeSearch _ _ _ _ _) as [[p d1]|] eqn:Hsearch; [|done].
  cbn [bind]. destruct p as [[k old']|].
  - apply treeSearch_Some in Hsearch as (ids & c1 & Hfm);
      [|apply getContentAsTokens_nonempty].
    apply fastMatch_sound in Hfm as (_ & Hk & sim & n & Hdist & Hth).
    destruct (Hent k old' Hk) as (_ & Hid & _).
    cbn [snd]. destruct (createTemplate _ _ _); [|done]. cbn [bind id].
    destruct (Get _ _) as [[? c3]|]; [|done]. cbn [bind].
    intros [= _ <- _]. cbn [id] in Hold. rewrite Hid, Hk in Hold.
    injection Hold as <-. exists sim, n. split; [done|].
    rewrite Hcfg in Hth. done.
  - apply treeSearch_frame in Hsearch as [c1 ->].
    cbn [config rootNode idToCluster clustersCounter withCache].
    destruct (Set_ _ _ _) as [c2|]; [|done]. cbn [bind].
    destruct (addSeqToPrefixTree _ _ _ _) as [[root' c3]|]; [|done].
    cbn [bind]. intros [= _ <- _]. cbn [id] in Hold.
    rewrite wrap_small in Hold by (unfold MaxInt in Hlen; lia).
    destruct (Hent _ _ Hold) as [? _]. lia.
Qed.

Lemma Log_merges_only_similar_witness :
  exists d d' cl old,
    trained DefaultConfig S1 = Ok d /\
    Log d "user root logged in" = Ok (d', cl) /\
    peek (idToCluster d) (id cl) = Some old /\
    exists sim n,
      getSeqDistance (config d) (logTemplateTokens old)
                     (getContentAsTokens (config d) "user root logged in")
                     false = Ok (sim, n) /\
      PrimFloat.leb (SimTh DefaultConfig) sim = true.
Proof.
  eexists. eexists. eexists. eexists.
  split; [vm_compute; reflexivity|].
  split; [vm_compute; reflexivity|].
  split; [vm_compute; reflexivity|].
  eapply (Log_merges_only_similar DefaultConfig S1).
  - unfold len, MaxInt. simpl. lia.
  - vm_compute; reflexivity.
  - vm_compute; reflexivity.
  - vm_compute; reflexivity.
Defined.
